(** * The real-time voice engine of the E4A learning platform

    A shallow embedding of [frontend/src/pages/VoiceAssistantPage.jsx]:
    the PCM codec, the capture resampler, the playback scheduler, the
    dialogue-context controller, the lesson-audio handoff and the inbound
    event router, followed by the properties established about them.

    Conventions.
    - A finite [Float32Array] sample is a dyadic rational, and every
      arithmetic step the page performs on samples (clamping, scaling by
      [0x7fff] or [0x8000], dividing an int16 by [32768]) is exact in
      IEEE double precision, so samples are modelled as [Q].
    - The audio clock, the scheduling cursor, the start times and the
      durations of buffers are doubles, denoted by the rationals they are.
      The quotient and the sum the scheduler computes are rounded to the
      nearest double ([round_double]); they stay far below the largest
      double, so rounding never overflows there.  The countdown of the
      rate-limit notice subtracts in double precision as well.
    - The index arithmetic of the resampler is kept in exact rationals.  It
      is what the page computes whenever every product [i * ratio] is an
      exact double and no quotient [length / ratio] is within rounding
      distance of a half: at 48000 Hz, 96000 Hz and 36000 Hz, for
      instance.  At a rate such as 44100 Hz a rounded product can fall on
      the other side of a half, and the index the page reads is then next
      to the one computed here.
    - A JSON number [JNum n] is written in the message as the integer
      literal [n]; [JSON.parse] reads it as the double nearest to [n].
      Literals with a fraction or an exponent are outside the model.
    - React state and refs are fields of one record [State]; a handler is
      a function [State -> State] and re-rendering happens between
      handlers, so a handler reads the state it is applied to.
    - What the page does to the browser (buffer sources started and
      stopped, frames sent on the socket, router navigations) is recorded
      in the same record.
    - An [await] on a promise that is already settled resumes before any
      other event is handled, and [audioContext.resume()] is taken to settle
      at once; so a handler is one transition, except at [getUserMedia],
      whose promise settles later.  [startAudioCapture] is split there into
      the request and the continuation, and for each handler that starts
      capture there are two events: one for the promise settling before
      anything else happens, and one for the handler up to the request, the
      promise settling in an event of its own.
    - A string is held as the bytes of its UTF-8 encoding; the literals
      are those of the source file, byte for byte.
    - The socket URL is taken to be well formed, so [new WebSocket] does
      not throw.
    - The page has no error boundary: an exception thrown while rendering
      unmounts it, which runs the cleanup of the mount effect. *)

From Stdlib Require Import ZArith QArith Qround Qabs Qminmax Qpower String Ascii List Lia Lqa.
From stdpp Require Import base option list gmap strings pretty.
From coqutil Require Import Datatypes.RecordSetters.
Import TriangleBracketNotations.

Ltac Zify.zify_post_hook ::= Z.to_euclidean_division_equations.

Set Warnings "-register-all".

(* ===================================================================== *)
(** * 1. JavaScript values and built-ins used by the page                *)
(* ===================================================================== *)

(** Values produced by [JSON.parse], plus [undefined] for absent fields.
    Numbers of the protocol are counts and indices: [JNum n] is the number
    that [JSON.parse] makes of the integer literal [n]. *)
Inductive json : Type :=
| JUndefined
| JNull
| JBool (b : bool)
| JNum (n : Z)
| JStr (s : string)
| JArr (items : list json)
| JObj (fields : list (string * json)).

Fixpoint assoc (k : string) (fields : list (string * json)) : json :=
  match fields with
  | [] => JUndefined
  | (k', v) :: rest => if String.eqb k k' then v else assoc k rest
  end.

(** [v.k] on a value that is neither [null] nor [undefined]. *)
Definition get (k : string) (v : json) : json :=
  match v with
  | JObj fields => assoc k fields
  | _ => JUndefined
  end.

Definition nullish (v : json) : bool :=
  match v with
  | JUndefined | JNull => true
  | _ => false
  end.

(** [v?.k]. *)
Definition get_opt (k : string) (v : json) : json :=
  if nullish v then JUndefined else get k v.

(** Truthiness, as tested by [if], [&&], [||] and [?:]. *)
Definition truthy (v : json) : bool :=
  match v with
  | JUndefined | JNull => false
  | JBool b => b
  | JNum n => negb (n =? 0)%Z
  | JStr s => negb (String.eqb s "")
  | JArr _ | JObj _ => true
  end.

(** [a || b]. *)
Definition js_or (a b : json) : json := if truthy a then a else b.

(** Strict equality with a string literal: [v === 'lit']. *)
Definition is_str (v : json) (lit : string) : bool :=
  match v with
  | JStr s => String.eqb s lit
  | _ => false
  end.

(** [Math.round]: the nearest integer, halves going up. *)
Definition Math_round (x : Q) : Z := Qfloor (x + (1 # 2)).

(** ** Double precision *)

(** The floor of the binary logarithm of a positive rational. *)
Definition Qlog2 (x : Q) : Z :=
  let e := (Z.log2 (Qnum x) - Z.log2 (Zpos (Qden x)))%Z in
  if Qle_bool (Qpower 2 e) x then e else (e - 1)%Z.

(** The nearest integer, a half going to the even neighbour. *)
Definition round_half_even (x : Q) : Z :=
  let f := Qfloor x in
  match (x - inject_Z f ?= 1 # 2)%Q with
  | Lt => f
  | Gt => (f + 1)%Z
  | Eq => if Z.even f then f else (f + 1)%Z
  end.

(** The exponent of the last mantissa bit of the doubles around [x]: 53
    bits in the binade of [x], and never below [2^-1074]. *)
Definition double_exponent (x : Q) : Z := Z.max (Qlog2 x - 52) (-1074).

Definition round_double_pos (x : Q) : Q :=
  (inject_Z (round_half_even (x / Qpower 2 (double_exponent x)))
   * Qpower 2 (double_exponent x))%Q.

(** The double nearest to [x], ties to the even mantissa: what an
    arithmetic operation of the page returns for the exact result [x], as
    long as that is below the overflow threshold. *)
Definition round_double (x : Q) : Q :=
  match (x ?= 0)%Q with
  | Eq => 0%Q
  | Gt => round_double_pos x
  | Lt => (- round_double_pos (- x))%Q
  end.

Definition is_double (x : Q) : Prop := (round_double x == x)%Q.

(** From here on rounding gives [Infinity]: half way between the largest
    double and [2^1024]. *)
Definition overflows (x : Q) : bool :=
  Qle_bool (inject_Z (2 ^ 1024 - 2 ^ 970)) x.

(** A number that need not be finite. *)
Inductive number : Type :=
| Finite (q : Q)
| PlusInfinity
| NotANumber.

Definition Math_ceil (x : number) : number :=
  match x with
  | Finite q => Finite (inject_Z (Qceiling q))
  | PlusInfinity => PlusInfinity
  | NotANumber => NotANumber
  end.

(** ** Printing a number *)

(** The [k]-digit number [m], followed by [n - k] zeros, reads back as the
    double [v]. *)
Definition reads_back (v : Z) (n k : nat) (m : Z) : bool :=
  (10 ^ Z.of_nat (k - 1) <=? m)%Z && (m <? 10 ^ Z.of_nat k)%Z
  && Qeq_bool (round_double (inject_Z (m * 10 ^ Z.of_nat (n - k)))) (inject_Z v).

(** The [k]-digit number that reads back as [v], if there is one; of two,
    the one nearer to [v], and the even one if they are equally near. *)
Definition digits_of_length (v : Z) (n k : nat) : option Z :=
  let p := (10 ^ Z.of_nat (n - k))%Z in
  let lo := (v / p)%Z in
  let hi := (lo + 1)%Z in
  match reads_back v n k lo, reads_back v n k hi with
  | true, true =>
      match (v - lo * p ?= hi * p - v)%Z with
      | Lt => Some lo
      | Gt => Some hi
      | Eq => Some (if Z.even lo then lo else hi)
      end
  | true, false => Some lo
  | false, true => Some hi
  | false, false => None
  end.

(** The shortest digits that read back as [v], with their number. *)
Definition shortest_digits (v : Z) (n : nat) : nat * Z :=
  default (n, v)
    (list_find (fun km => bool_decide (is_Some (snd km)))
               (map (fun k => (k, digits_of_length v n k)) (seq 1 17))
     ≫= fun '(_, (k, m)) => (fun d => (k, d)) <$> m).

(** [Number::toString] of the whole number [v >= 0] held in a double:
    its shortest digits, filled up with zeros below [10^21], and in
    exponent notation from there on. *)
Definition show_whole (v : Z) : string :=
  let n := String.length (pretty v) in
  if (v =? 0)%Z then "0"
  else if (v <? 10 ^ 21)%Z then
    let '(k, m) := shortest_digits v n in
    (pretty m ++ string_of_list_ascii (repeat "0"%char (n - k)))%string
  else if Qeq_bool (round_double (inject_Z (10 ^ Z.of_nat n))) (inject_Z v) then
    ("1e+" ++ pretty (Z.of_nat n))%string
  else
    let '(k, m) := shortest_digits v n in
    match pretty m with
    | String d rest =>
        (String d (if (k =? 1)%nat then "" else String "."%char rest)
         ++ "e+" ++ pretty (Z.of_nat (n - 1)))%string
    | EmptyString => ""
    end.

(** [String(x)] for the number that [JSON.parse] makes of the integer
    literal [n]: the double nearest to it. *)
Definition show_literal (n : Z) : string :=
  let sign := if (n <? 0)%Z then "-" else "" in
  if overflows (inject_Z (Z.abs n)) then (sign ++ "Infinity")%string
  else (sign ++ show_whole (Qfloor (round_double (inject_Z (Z.abs n)))))%string.

Definition join_with (sep : string) (parts : list string) : string :=
  match parts with
  | [] => ""
  | p :: rest => fold_left (fun acc x => acc ++ sep ++ x)%string rest p
  end.

(** [String(v)]: the text a value contributes to a template literal, to a
    string concatenation or to a property key. *)
Fixpoint toString (v : json) : string :=
  match v with
  | JUndefined => "undefined"
  | JNull => "null"
  | JBool true => "true"
  | JBool false => "false"
  | JNum n => show_literal n
  | JStr s => s
  | JArr items =>
      join_with ","
        (map (fun x => match x with
                       | JUndefined | JNull => ""
                       | _ => toString x
                       end) items)
  | JObj _ => "[object Object]"
  end.

(** [{...prev, k: v}]: the properties of [prev] with [k] set to [v], in
    place when [prev] has it and at the end otherwise. *)
Fixpoint set_field (k : string) (v : json) (fields : list (string * json))
  : list (string * json) :=
  match fields with
  | [] => [(k, v)]
  | (k', v') :: rest =>
      if String.eqb k k' then (k, v) :: rest else (k', v') :: set_field k v rest
  end.

(** The own enumerable properties that [{...v}] copies: the fields of an
    object, the indexed elements of an array, the indexed characters of a
    string, and nothing for the other values. *)
Definition own_fields (v : json) : list (string * json) :=
  match v with
  | JObj fields => fields
  | JArr items => imap (fun i x => (pretty i, x)) items
  | JStr s =>
      imap (fun i c => (pretty i, JStr (String c EmptyString)))
           (list_ascii_of_string s)
  | _ => []
  end.

Definition spread_with (prev : json) (k : string) (v : json) : json :=
  JObj (set_field k v (own_fields prev)).

(** Truncation toward zero, the first step of [ToInt16]. *)
Definition Qtrunc (x : Q) : Z := Z.quot (Qnum x) (Zpos (Qden x)).

(** A [Float32Array] element: a finite value or [NaN] (what storing
    [undefined] leaves in the array). *)
Inductive sample : Type :=
| Fin (q : Q)
| NaN.

(** [ToInt16]: truncate, then wrap modulo 2^16 into [-32768, 32767];
    [NaN] converts to [0]. *)
Definition wrap16 (n : Z) : Z :=
  let m := (n mod 65536)%Z in
  if (32768 <=? m)%Z then (m - 65536)%Z else m.

Definition ToInt16 (v : sample) : Z :=
  match v with
  | Fin q => wrap16 (Qtrunc q)
  | NaN => 0%Z
  end.

(** [DataView.setInt16(offset, v, true)]: the two bytes written, low byte
    first. *)
Definition setInt16_le (v : sample) : list Z :=
  let n := ToInt16 v in
  [(n mod 256)%Z; ((n / 256) mod 256)%Z].

(** [DataView.getInt16(byteOffset, true)]; [None] is the [RangeError] of a
    read past the end of the view. *)
Definition getInt16_le (view : list Z) (byteOffset : nat) : option Z :=
  match view !! byteOffset, view !! S byteOffset with
  | Some lo, Some hi => Some (wrap16 (lo + 256 * hi))
  | _, _ => None
  end.

(* ===================================================================== *)
(** * 2. PCM codec                                                       *)
(* ===================================================================== *)

(** [Math.max(-1, Math.min(1, x))]; with a [NaN] argument both return
    [NaN]. *)
Definition clamp (x : sample) : sample :=
  match x with
  | Fin q => Fin (Qmax (-1) (Qmin 1 q))
  | NaN => NaN
  end.

(** [s < 0 ? s * 0x8000 : s * 0x7fff]; a comparison with [NaN] is false. *)
Definition scale (s : sample) : sample :=
  match s with
  | Fin q => if Qlt_le_dec q 0 then Fin (q * 32768) else Fin (q * 32767)
  | NaN => NaN
  end.

(** [floatTo16BitPCM]: the bytes of the returned [ArrayBuffer]. *)
Definition floatTo16BitPCM (float32Array : list sample) : list Z :=
  flat_map (fun x => setInt16_le (scale (clamp x))) float32Array.

(** The decoding loop of [playAudio]: [numSamples = byteLength / 2] and,
    for every [i < numSamples],
    [float32Array[i] = getInt16(i * 2, true) / 32768.0].  With an odd byte
    length [numSamples] ends in [.5], so the loop runs once more than there
    are whole samples and its last read throws ([None]). *)
Definition pcm16ToFloat (pcmData : list Z) : option (list sample) :=
  mapM (fun i => (fun int16 => Fin (inject_Z int16 / 32768)) <$>
                   getInt16_le pcmData (i * 2))
       (seq 0 (Nat.div2 (S (length pcmData)))).

(* ===================================================================== *)
(** * 3. Capture resampler                                               *)
(* ===================================================================== *)

Definition targetSampleRate : Q := 24000.

(** [typedArray[k]]: an index outside the array reads [undefined], which a
    [Float32Array] stores as [NaN]. *)
Definition typed_get (a : list sample) (k : Z) : sample :=
  if (k <? 0)%Z then NaN else default NaN (a !! Z.to_nat k).

Definition resample_ratio (sourceSampleRate : Q) : Q :=
  sourceSampleRate / targetSampleRate.

(** [Math.round(inputData.length / ratio)]. *)
Definition resample_length (ratio : Q) (inputLength : nat) : Z :=
  Math_round (inject_Z (Z.of_nat inputLength) / ratio).

(** [Math.round(i * ratio)]. *)
Definition resample_index (ratio : Q) (i : nat) : Z :=
  Math_round (inject_Z (Z.of_nat i) * ratio).

(** The [audioData] computed by [onaudioprocess]. *)
Definition resample (sourceSampleRate : Q) (inputData : list sample) : list sample :=
  if negb (Qeq_bool sourceSampleRate targetSampleRate) then
    let ratio := resample_ratio sourceSampleRate in
    let newLength := resample_length ratio (length inputData) in
    map (fun i => typed_get inputData (resample_index ratio i))
        (seq 0 (Z.to_nat newLength))
  else inputData.

(* ===================================================================== *)
(** * 4. Base64 framing ([atob], [btoa])                                 *)
(* ===================================================================== *)

Definition b64_alphabet : string :=
  "ABCDEFGHIJKLMNOPQRSTUVWXYZabcdefghijklmnopqrstuvwxyz0123456789+/".

Fixpoint index_of (c : ascii) (s : string) : option nat :=
  match s with
  | EmptyString => None
  | String c' rest =>
      if Ascii.eqb c c' then Some 0%nat else S <$> index_of c rest
  end.

Definition b64_digit (n : Z) : string :=
  match String.get (Z.to_nat n) b64_alphabet with
  | Some c => String c EmptyString
  | None => ""
  end.

(** [btoa] of the binary string holding one character per byte. *)
Fixpoint btoa (bytes : list Z) : string :=
  match bytes with
  | [] => ""
  | [a] =>
      (b64_digit (a / 4) ++ b64_digit ((a mod 4) * 16) ++ "==")%string
  | [a; b] =>
      (b64_digit (a / 4) ++ b64_digit ((a mod 4) * 16 + b / 16)
       ++ b64_digit ((b mod 16) * 4) ++ "=")%string
  | a :: b :: c :: rest =>
      (b64_digit (a / 4) ++ b64_digit ((a mod 4) * 16 + b / 16)
       ++ b64_digit ((b mod 16) * 4 + c / 64) ++ b64_digit (c mod 64)
       ++ btoa rest)%string
  end.

Definition is_ascii_whitespace (c : ascii) : bool :=
  let n := nat_of_ascii c in
  ((n =? 9) || (n =? 10) || (n =? 12) || (n =? 13) || (n =? 32))%nat.

Definition strip_padding (cs : list ascii) : list ascii :=
  if (length cs mod 4 =? 0)%nat then
    match rev cs with
    | "="%char :: "="%char :: r => rev r
    | "="%char :: r => rev r
    | _ => cs
    end
  else cs.

Fixpoint sextets_to_bytes (v : list Z) : list Z :=
  match v with
  | a :: b :: c :: d :: rest =>
      [(a * 4 + b / 16)%Z; ((b mod 16) * 16 + c / 4)%Z; ((c mod 4) * 64 + d)%Z]
        ++ sextets_to_bytes rest
  | [a; b; c] => [(a * 4 + b / 16)%Z; ((b mod 16) * 16 + c / 4)%Z]
  | [a; b] => [(a * 4 + b / 16)%Z]
  | _ => []
  end.

(** [atob]: forgiving base64 decoding; [None] is the [InvalidCharacterError]
    it throws. *)
Definition atob (data : string) : option (list Z) :=
  let cs := strip_padding
              (filter (fun c => negb (is_ascii_whitespace c))
                      (list_ascii_of_string data)) in
  if (length cs mod 4 =? 1)%nat then None
  else sextets_to_bytes <$>
         mapM (fun c => Z.of_nat <$> index_of c b64_alphabet) cs.

Definition arrayBufferToBase64 (buffer : list Z) : string := btoa buffer.

Definition base64ToArrayBuffer (base64 : string) : option (list Z) := atob base64.

(* ===================================================================== *)
(** * 5. Session state                                                   *)
(* ===================================================================== *)

(** A conversation-log entry.  [id] is [Date.now()] and [timestamp] the
    ISO rendering of the same instant; both are kept as the millisecond
    count. *)
Record Message : Type := {
  msg_id : Z;
  role : string;
  content : string;
  timestamp : Z
}.

(** [currentContext].  [quizAnswers] is an object used as a map from the
    question index (as a property key) to the answer. *)
Record Context : Type := {
  mode : string;
  course : json;
  lesson : json;
  quiz : json;
  assignment : json;
  quizQuestions : json;
  currentQuestionIndex : json;
  quizAnswers : gmap string json;
  pendingConfirmation : json
}.

Inductive ReadyState : Type := CONNECTING | OPEN | CLOSING | CLOSED.

(** A socket made by [connect].  Its [onmessage] is the [handleMessage] of
    the render in which [connect] ran, so the handler reads [aiTranscript]
    as it was then; [onmessage_aiTranscript] is that captured value. *)
Record WebSocket : Type := {
  ws_url : string;
  readyState : ReadyState;
  onmessage_aiTranscript : string
}.

(** An [AudioBufferSourceNode] handed to the audio context. *)
Record AudioSource : Type := {
  source_id : nat;
  buffer : list sample;
  startTime : Q
}.

(** [audioBuffer.duration] of a mono buffer created at 24000 Hz: the
    length over the rate, as a double. *)
Definition duration (b : list sample) : Q :=
  round_double (inject_Z (Z.of_nat (length b)) / 24000).

Record State : Type := {
  (* Connection state *)
  isConnected : bool;
  isConnecting : bool;
  connectionError : option string;
  (* Audio state *)
  isListening : bool;
  isSpeaking : bool;
  isProcessing : bool;
  rateLimitWait : number;
  (* Conversation state *)
  messages : list Message;
  currentTranscript : string;
  aiTranscript : string;
  (* Context and display state *)
  currentContext : Context;
  displayContent : json;
  (* Lesson audio state *)
  lessonAudioPlaying : bool;
  aiPaused : bool;
  pendingLessonAudio : option string;
  readyToPlayLessonAudio : bool;
  lessonAudioRef : option string;      (* the [Audio] element, by its URL *)
  pendingLessonAudioRef : option string;
  (* Refs *)
  wsRef : option WebSocket;
  replacedSockets : list WebSocket;    (* sockets [wsRef] held before; their
                                          handlers stay installed *)
  audioContextRef : bool;              (* an [AudioContext] exists *)
  mediaStreamRef : bool;               (* a microphone stream is held *)
  processorRef : bool;                 (* a script processor is connected *)
  audioQueueRef : list string;
  isListeningRef : bool;
  audioPlaybackTimeRef : Q;
  activeAudioSourcesRef : list AudioSource;
  getUserMediaPending : nat;           (* [getUserMedia] promises not yet
                                          settled *)
  (* What the page has asked of the browser so far *)
  started : list AudioSource;          (* [source.start(startTime)] calls *)
  stopped : list nat;                  (* ids on which [source.stop()] ran *)
  sent : list json;                    (* frames given to [ws.send] *)
  navigated : list json                (* [navigate(url)] calls *)
}.

(** What a handler reads from its surroundings while it runs. *)
Record Env : Type := {
  Date_now : Z;                        (* [Date.now()] *)
  currentTime : Q;                     (* [audioContext.currentTime] *)
  sampleRate : Q;                      (* [audioContext.sampleRate]: 24000 is
                                          requested, the browser decides *)
  micGranted : bool;                   (* [getUserMedia] resolves *)
  user : json;                         (* the signed-in user of the store *)
  VITE_API_URL : string;
  VITE_WS_URL : string;
  token : string
}.

Definition initialContext : Context := {|
  mode := "idle";
  course := JNull;
  lesson := JNull;
  quiz := JNull;
  assignment := JNull;
  quizQuestions := JArr [];
  currentQuestionIndex := JNum 0;
  quizAnswers := ∅;
  pendingConfirmation := JNull
|}.

(** The state of the first render. *)
Definition initialState : State := {|
  isConnected := false;
  isConnecting := false;
  connectionError := None;
  isListening := false;
  isSpeaking := false;
  isProcessing := false;
  rateLimitWait := Finite 0;
  messages := [];
  currentTranscript := "";
  aiTranscript := "";
  currentContext := initialContext;
  displayContent := JNull;
  lessonAudioPlaying := false;
  aiPaused := false;
  pendingLessonAudio := None;
  readyToPlayLessonAudio := false;
  lessonAudioRef := None;
  pendingLessonAudioRef := None;
  wsRef := None;
  replacedSockets := [];
  audioContextRef := false;
  mediaStreamRef := false;
  processorRef := false;
  audioQueueRef := [];
  isListeningRef := false;
  audioPlaybackTimeRef := 0;
  activeAudioSourcesRef := [];
  getUserMediaPending := 0;
  started := [];
  stopped := [];
  sent := [];
  navigated := []
|}.

(** [wsRef.current?.readyState === WebSocket.OPEN]. *)
Definition ws_open (s : State) : bool :=
  match wsRef s with
  | Some ws => match readyState ws with OPEN => true | _ => false end
  | None => false
  end.

(** Truthiness of a state slot holding [null] or a string. *)
Definition present (o : option string) : bool :=
  match o with
  | Some u => negb (String.eqb u "")
  | None => false
  end.

(** [wsRef.current.send(JSON.stringify(frame))]. *)
Definition ws_send (frame : json) (s : State) : State :=
  s <| sent ::= fun out => out ++ [frame] |>.

Definition addMessage (env : Env) (r c : string) (s : State) : State :=
  s <| messages ::= fun prev =>
         prev ++ [{| msg_id := Date_now env; role := r; content := c;
                     timestamp := Date_now env |}] |>.

(* ===================================================================== *)
(** * 6. Playback scheduler                                              *)
(* ===================================================================== *)

Definition initAudioContext (s : State) : State :=
  s <| audioContextRef := true |>.

(** [playAudio].  Every failure inside its [try] (invalid base64, a read
    past the end of an odd-length payload, [createBuffer] refusing a
    zero-length buffer) is caught and logged, leaving nothing scheduled. *)
Definition playAudio (env : Env) (base64Audio : string) (s : State) : State :=
  let s := initAudioContext s in
  match base64ToArrayBuffer base64Audio ≫= pcm16ToFloat with
  | None => s
  | Some float32Array =>
      if (length float32Array =? 0)%nat then s
      else
        let start := Qmax (currentTime env) (audioPlaybackTimeRef s) in
        let source := {| source_id := length (started s);
                         buffer := float32Array;
                         startTime := start |} in
        s <| started ::= fun l => l ++ [source] |>
          <| activeAudioSourcesRef ::= fun l => l ++ [source] |>
          <| audioPlaybackTimeRef :=
               round_double (start + duration float32Array) |>
  end.

(** [source.onended]: natural completion removes the handle from the active
    set. *)
Definition source_onended (id : nat) (s : State) : State :=
  s <| activeAudioSourcesRef ::=
         filter (fun src => negb (source_id src =? id)%nat) |>.

Definition response_cancel : json := JObj [("type", JStr "response.cancel")].

(** [interruptAudio]. *)
Definition interruptAudio (s : State) : State :=
  let s := s <| stopped ::= fun l => l ++ map source_id (activeAudioSourcesRef s) |>
             <| activeAudioSourcesRef := [] |>
             <| audioQueueRef := [] |>
             <| audioPlaybackTimeRef := 0%Q |>
             <| isSpeaking := false |> in
  if ws_open s then ws_send response_cancel s else s.

(** [processAudioQueue]: shift and play until the queue is empty. *)
Definition processAudioQueue (env : Env) (s : State) : State :=
  match audioQueueRef s with
  | [] => s
  | queue =>
      fold_left (fun st audioData => playAudio env audioData st) queue
                (s <| isSpeaking := true |> <| audioQueueRef := [] |>)
  end.

Definition resetAudioPlayback (s : State) : State :=
  s <| audioPlaybackTimeRef := 0%Q |> <| isSpeaking := false |>.

(* ===================================================================== *)
(** * 7. Dialogue state machine                                          *)
(* ===================================================================== *)

(** How a block of handler code ends: normally, or by throwing. *)
Inductive Completion : Type := Normal | Thrown.

(** [handleContextUpdate].  The state returned with [Thrown] is the state
    at the throw: updates made before it stay. *)
Definition handleContextUpdate (env : Env) (data : json) (s : State)
  : State * Completion :=
  if nullish data then (s, Thrown)            (* reading [data.action] *)
  else
    let action := get "action" data in
    if is_str action "start_quiz" then
      (s <| currentContext ::= fun prev =>
              prev <| mode := "quiz" |>
                   <| quiz := get "quiz" data |>
                   <| quizQuestions := js_or (get "questions" data) (JArr []) |>
                   <| currentQuestionIndex := JNum 0 |>
                   <| quizAnswers := ∅ |> |>
         <| displayContent :=
              JObj [("type", JStr "quiz"); ("quiz", get "quiz" data);
                    ("questions", get "questions" data);
                    ("currentIndex", JNum 0)] |>,
       Normal)
    else if is_str action "show_question" then
      (s <| currentContext ::= fun prev =>
              prev <| currentQuestionIndex := get "questionIndex" data |> |>
         <| displayContent ::= fun prev =>
              spread_with prev "currentIndex" (get "questionIndex" data) |>,
       Normal)
    else if is_str action "pending_answer" then
      (s <| currentContext ::= fun prev =>
              prev <| pendingConfirmation :=
                        JObj [("type", JStr "quiz_answer");
                              ("questionIndex", get "questionIndex" data);
                              ("answer", get "answer" data);
                              ("answerText", get "answerText" data)] |> |>,
       Normal)
    else if is_str action "answer_confirmed" then
      (s <| currentContext ::= fun prev =>
              prev <| quizAnswers :=
                        <[toString (get "questionIndex" data) := get "answer" data]>
                          (quizAnswers prev) |>
                   <| pendingConfirmation := JNull |> |>
         (* [prev?.type === 'quiz' ? {...prev} : prev]: the same content *)
         <| displayContent ::= fun prev =>
              if is_str (get_opt "type" prev) "quiz" then prev else prev |>,
       Normal)
    else if is_str action "answer_cancelled" then
      (s <| currentContext ::= fun prev =>
              prev <| pendingConfirmation := JNull |> |>,
       Normal)
    else if is_str action "quiz_completed" then
      (s <| displayContent :=
              JObj [("type", JStr "quiz_result"); ("score", get "correct" data);
                    ("total", get "total" data); ("passed", get "passed" data);
                    ("answers", get "answers" data)] |>
         <| currentContext ::= fun prev =>
              prev <| mode := "idle" |> <| pendingConfirmation := JNull |> |>,
       Normal)
    else if is_str action "start_lesson" then
      let s := s <| currentContext ::= fun prev =>
                      prev <| mode := "lesson" |> <| lesson := get "lesson" data |> |>
                 <| displayContent :=
                      JObj [("type", JStr "lesson"); ("lesson", get "lesson" data)] |> in
      let audio_url := get_opt "audio_url" (get "lesson" data) in
      if truthy (get "has_audio" data) && truthy audio_url then
        match audio_url with
        | JStr u =>
            let audioUrl :=
              if String.prefix "http" u then u
              else (VITE_API_URL env ++ u)%string in
            let s := s <| pendingLessonAudio := Some audioUrl |>
                       <| pendingLessonAudioRef := Some audioUrl |> in
            if isListeningRef s then
              (s <| isListeningRef := false |>
                 <| processorRef := false |>
                 <| mediaStreamRef := false |>
                 <| isListening := false |>,
               Normal)
            else (s, Normal)
        | _ => (s, Thrown)                    (* no [startsWith] to call *)
        end
      else (s, Normal)
    else if is_str action "start_assignment" then
      (s <| currentContext ::= fun prev =>
              prev <| mode := "assignment" |>
                   <| assignment := get "assignment" data |> |>
         <| displayContent :=
              JObj [("type", JStr "assignment");
                    ("assignment", get "assignment" data)] |>,
       Normal)
    else if is_str action "confirm_submission" then
      (s <| currentContext ::= fun prev =>
              prev <| pendingConfirmation :=
                        JObj [("type", get "submissionType" data);
                              ("data", get "submissionData" data)] |> |>,
       Normal)
    else if is_str action "submission_complete" then
      (s <| currentContext ::= fun prev =>
              prev <| mode := "idle" |> <| pendingConfirmation := JNull |> |>
         <| displayContent :=
              JObj [("type", JStr "submission_result");
                    ("success", get "success" data);
                    ("message", get "message" data);
                    ("result", get "result" data)] |>,
       Normal)
    else if is_str action "show_courses" then
      (s <| displayContent :=
              JObj [("type", JStr "courses"); ("courses", get "courses" data);
                    ("enrolled", get "enrolled" data)] |>,
       Normal)
    else if is_str action "show_progress" then
      (s <| displayContent :=
              JObj [("type", JStr "progress"); ("progress", get "progress" data)] |>,
       Normal)
    else if is_str action "enrollment_complete" then
      (s <| displayContent :=
              JObj [("type", JStr "enrollment_result");
                    ("success", get "success" data);
                    ("course", get "course" data);
                    ("message", get "message" data)] |>,
       Normal)
    else if is_str action "show_assignments" then
      (s <| displayContent :=
              JObj [("type", JStr "assignments");
                    ("assignments", get "assignments" data)] |>,
       Normal)
    else if is_str action "show_quizzes" then
      (s <| displayContent :=
              JObj [("type", JStr "quizzes"); ("quizzes", get "quizzes" data)] |>,
       Normal)
    else if is_str action "navigate" then
      (if truthy (get "url" data)
       then s <| navigated ::= fun l => l ++ [get "url" data] |>
       else s,
       Normal)
    else if is_str action "clear_display" then
      (s <| displayContent := JNull |>
         <| currentContext ::= fun prev => prev <| mode := "idle" |> |>,
       Normal)
    else (s, Normal).

(* ===================================================================== *)
(** * 8. Event router                                                    *)
(* ===================================================================== *)

Definition is_digit (c : ascii) : bool :=
  let n := nat_of_ascii c in ((48 <=? n) && (n <=? 57))%nat.

Definition is_digit_or_dot (c : ascii) : bool :=
  is_digit c || Ascii.eqb c ".".

(** The longest prefix whose characters satisfy [p], and the rest. *)
Fixpoint span (p : ascii -> bool) (s : string) : string * string :=
  match s with
  | EmptyString => (EmptyString, EmptyString)
  | String c rest =>
      if p c then let '(a, b) := span p rest in (String c a, b)
      else (EmptyString, s)
  end.

Fixpoint drop_prefix (p s : string) : option string :=
  match p, s with
  | EmptyString, _ => Some s
  | String a p', String b s' => if Ascii.eqb a b then drop_prefix p' s' else None
  | String _ _, EmptyString => None
  end.

(** [msg.match(/try again in ([\d.]+)s/)]: the text of the capture group of
    the leftmost match.  The group is greedy and must be followed by [s],
    which is neither a digit nor a dot, so at each position only the
    longest run can match. *)
Fixpoint match_try_again (msg : string) : option string :=
  match msg with
  | EmptyString => None
  | String _ rest =>
      match drop_prefix "try again in " msg with
      | Some tail =>
          let '(group, after) := span is_digit_or_dot tail in
          if negb (String.eqb group "") && String.prefix "s" after
          then Some group
          else match_try_again rest
      | None => match_try_again rest
      end
  end.

Definition digits_value (ds : string) : Z :=
  fold_left (fun acc c => (acc * 10 + (Z.of_nat (nat_of_ascii c) - 48))%Z)
            (list_ascii_of_string ds) 0%Z.

(** [parseFloat] on a run of digits and dots: the longest prefix that is a
    decimal literal, read as the double nearest to its value (the engines
    round literals of any length correctly), [Infinity] when that is out
    of range, and [NaN] when there is no such prefix. *)
Definition parseFloat (text : string) : number :=
  let '(int_part, rest) := span is_digit text in
  let frac_part :=
    match rest with
    | String "."%char rest' => fst (span is_digit rest')
    | _ => EmptyString
    end in
  if String.eqb int_part "" && String.eqb frac_part "" then NotANumber
  else
    let value := (inject_Z (digits_value int_part)
                  + inject_Z (digits_value frac_part)
                    / inject_Z (10 ^ Z.of_nat (String.length frac_part)))%Q in
    if overflows value then PlusInfinity else Finite (round_double value).

(** Text of a number in a template literal.  The numbers printed on this
    page are whole and not negative: [5], or a result of [Math.ceil]. *)
Definition show_number (n : number) : string :=
  match n with
  | Finite q => show_whole (Qfloor q)
  | PlusInfinity => "Infinity"
  | NotANumber => "NaN"
  end.

(** The interval callback started on a rate limit:
    [setRateLimitWait(prev => prev <= 1 ? 0 : prev - 1)], the subtraction
    in double precision. *)
Definition countdown_tick (s : State) : State :=
  s <| rateLimitWait ::= fun prev =>
         match prev with
         | Finite n =>
             if Qle_bool n 1 then Finite 0 else Finite (round_double (n - 1))
         | PlusInfinity => PlusInfinity
         | NotANumber => NotANumber
         end |>.

(** The [aiTranscript] seen by the [handleMessage] installed on the socket. *)
Definition captured_aiTranscript (s : State) : string :=
  match wsRef s with
  | Some ws => onmessage_aiTranscript ws
  | None => ""
  end.

(** [message?.match(/try again in ([\d.]+)s/)]: the outer [None] is the
    [TypeError] of calling [match] on a value that has none; [Some None] is
    no match (or a missing message); [Some (Some group)] a match. *)
Definition message_match (message : json) : option (option string) :=
  match message with
  | JStr m => Some (match_try_again m)
  | JUndefined | JNull => Some None
  | _ => None
  end.

(** The rate-limit check of [case 'response.done']:
    [if (data.response?.status === 'failed') { ... }]. *)
Definition check_rate_limit (env : Env) (data : json) (s : State)
  : State * Completion :=
  if is_str (get_opt "status" (get "response" data)) "failed" then
    let errorDetails :=
      get_opt "error" (get_opt "status_details" (get "response" data)) in
    if is_str (get_opt "code" errorDetails) "rate_limit_exceeded" then
      match message_match (get "message" errorDetails) with
      | Some waitMatch =>
          let waitTime :=
            match waitMatch with
            | Some group => Math_ceil (parseFloat group)
            | None => Finite 5
            end in
          (addMessage env "system"
             ("‚è≥ Rate limit reached. Please wait " ++ show_number waitTime
              ++ " seconds before speaking again.")
             (s <| rateLimitWait := waitTime |>),
           Normal)
      | None => (s, Thrown)
      end
    else if truthy (get_opt "message" errorDetails) then
      (addMessage env "error" (toString (get_opt "message" errorDetails)) s,
       Normal)
    else (s, Normal)
  else (s, Normal).

(** The [case 'response.done'] block: the rate-limit check, then the
    hand-over to the pending lesson audio. *)
Definition on_response_done (env : Env) (data : json) (s : State)
  : State * Completion :=
  match check_rate_limit env data (s <| isProcessing := false |>) with
  | (s, Thrown) => (s, Thrown)
  | (s, Normal) =>
      if present (pendingLessonAudioRef s) then
        (addMessage env "system" "üéß Press Space to start the lesson audio."
           (s <| readyToPlayLessonAudio := true |> <| aiPaused := true |>),
         Normal)
      else (s, Normal)
  end.

(** The body of the [try] in [handleMessage], for the render whose
    [aiTranscript] the handler captured; [None] stands for an [event.data]
    that [JSON.parse] rejects. *)
Definition handleMessage_try_with (captured : string)
    (env : Env) (event_data : option json) (s : State) : State * Completion :=
  match event_data with
  | None => (s, Thrown)
  | Some data =>
      if nullish data then (s, Thrown)        (* reading [data.type] *)
      else
        let type := get "type" data in
        if is_str type "session.created" then
          (addMessage env "system"
             "Voice assistant ready. Press Space or click the microphone to start speaking."
             (s <| isConnected := true |> <| isConnecting := false |>),
           Normal)
        else if is_str type "session.updated" then (s, Normal)
        else if is_str type "input_audio_buffer.speech_started" then
          ((interruptAudio s) <| currentTranscript := "Listening..." |>, Normal)
        else if is_str type "input_audio_buffer.speech_stopped" then
          (s <| currentTranscript := "Processing..." |> <| isProcessing := true |>,
           Normal)
        else if is_str type "conversation.item.input_audio_transcription.completed" then
          (if truthy (get "transcript" data)
           then addMessage env "user" (toString (get "transcript" data))
                  (s <| currentTranscript := "" |>)
           else s,
           Normal)
        else if is_str type "conversation.item.input_audio_transcription.failed" then
          (s <| currentTranscript := "" |> <| isProcessing := false |>, Normal)
        else if is_str type "input_audio_buffer.committed" then (s, Normal)
        else if is_str type "conversation.item.created" then (s, Normal)
        else if is_str type "response.created" then
          (s <| isProcessing := true |>, Normal)
        else if is_str type "response.audio_transcript.delta" then
          (if truthy (get "delta" data)
           then s <| aiTranscript ::= fun prev =>
                       (prev ++ toString (get "delta" data))%string |>
           else s,
           Normal)
        else if is_str type "response.audio_transcript.done" then
          let captured := JStr captured in
          ((if truthy captured || truthy (get "transcript" data)
            then (addMessage env "assistant"
                    (toString (js_or (get "transcript" data) captured)) s)
                   <| aiTranscript := "" |>
            else s) <| isProcessing := false |>,
           Normal)
        else if is_str type "response.audio.delta" then
          (if truthy (get "delta" data)
           then processAudioQueue env
                  (s <| audioQueueRef ::= fun q =>
                          q ++ [toString (get "delta" data)] |>)
           else s,
           Normal)
        else if is_str type "response.audio.done" then
          (resetAudioPlayback s, Normal)
        else if is_str type "response.function_call_arguments.done" then (s, Normal)
        else if is_str type "response.done" then on_response_done env data s
        else if is_str type "context_update" then
          handleContextUpdate env (get "data" data) s
        else if is_str type "display_update" then
          (s <| displayContent := get "content" data |>, Normal)
        else if is_str type "error" then
          ((addMessage env "error"
              (toString (js_or (get_opt "message" (get "error" data))
                               (JStr "An error occurred"))) s)
             <| isProcessing := false |>,
           Normal)
        else (s, Normal)                      (* [default]: logged, ignored *)
  end.

(** The body as installed on the socket held by [wsRef]. *)
Definition handleMessage_try (env : Env) (event_data : option json) (s : State)
  : State * Completion :=
  handleMessage_try_with (captured_aiTranscript s) env event_data s.

(** [handleMessage]: the [catch] logs whatever the body threw and returns
    normally. *)
Definition handleMessage (env : Env) (event_data : option json) (s : State)
  : State * Completion :=
  match handleMessage_try env event_data s with
  | (s', _) => (s', Normal)
  end.

(** [handleMessage] as installed on the socket [ws], which need not be the
    one [wsRef] holds. *)
Definition handleMessage_of (ws : WebSocket)
    (env : Env) (event_data : option json) (s : State) : State * Completion :=
  match handleMessage_try_with (onmessage_aiTranscript ws) env event_data s with
  | (s', _) => (s', Normal)
  end.

(* ===================================================================== *)
(** * 9. Transport session and audio capture                             *)
(* ===================================================================== *)

(** [connect]: a no-op on an open socket; otherwise a fresh socket whose
    [onmessage] is the current render's [handleMessage].  A socket that
    [wsRef] held is not closed: it is dropped from the ref with its
    handlers in place. *)
Definition connect (env : Env) (s : State) : State :=
  if ws_open s then s
  else
    s <| isConnecting := true |>
      <| connectionError := None |>
      <| replacedSockets ::= fun l => l ++ option_list (wsRef s) |>
      <| wsRef := Some {| ws_url := (VITE_WS_URL env ++ "/voice/realtime/" ++ token env)%string;
                          readyState := CONNECTING;
                          onmessage_aiTranscript := aiTranscript s |} |>.

(** The browser moves the socket held by [wsRef] to a new ready state. *)
Definition set_readyState (r : ReadyState) (s : State) : State :=
  s <| wsRef ::= fmap (fun ws => ws <| readyState := r |>) |>.

(** A socket from which events can still come. *)
Definition live (ws : WebSocket) : bool :=
  match readyState ws with
  | CLOSED => false
  | _ => true
  end.

(** The [i]-th of the sockets dropped from [wsRef] is still live. *)
Definition replaced_live (i : nat) (s : State) : bool :=
  match replacedSockets s !! i with
  | Some ws => live ws
  | None => false
  end.

(** The browser moves that socket to a new ready state. *)
Definition set_replaced_readyState (i : nat) (r : ReadyState) (s : State) : State :=
  s <| replacedSockets ::= alter (fun ws => ws <| readyState := r |>) i |>.

(** [stopAudioCapture]. *)
Definition stopAudioCapture (s : State) : State :=
  let s := s <| isListeningRef := false |>
             <| processorRef := false |>
             <| mediaStreamRef := false |>
             <| isListening := false |> in
  if ws_open s
  then ws_send (JObj [("type", JStr "input_audio_buffer.commit")]) s
  else s.

(** [startAudioCapture] up to [await getUserMedia(...)]: the audio context
    is there and the promise is pending. *)
Definition startAudioCapture_request (s : State) : State :=
  (initAudioContext s) <| getUserMediaPending ::= S |>.

(** The rest of [startAudioCapture], run when a pending [getUserMedia]
    settles; a refusal lands in the [catch]. *)
Definition getUserMedia_settled (env : Env) (s : State) : State :=
  match getUserMediaPending s with
  | O => s
  | S pending =>
      let s := s <| getUserMediaPending := pending |> in
      if micGranted env then
        s <| mediaStreamRef := true |>
          <| processorRef := true |>
          <| isListeningRef := true |>
          <| isListening := true |>
      else
        s <| connectionError :=
               Some "Microphone access denied. Please allow microphone permissions." |>
  end.

(** [startAudioCapture] when [getUserMedia] settles before anything else
    happens. *)
Definition startAudioCapture (env : Env) (s : State) : State :=
  getUserMedia_settled env (startAudioCapture_request s).

(** [processorRef.current.onaudioprocess]: a frame is dropped unless the
    page is listening on an open socket; otherwise it is resampled, encoded
    and sent at once. *)
Definition onaudioprocess (env : Env) (inputData : list sample) (s : State) : State :=
  if negb (isListeningRef s) || negb (ws_open s) then s
  else
    let audioData := resample (sampleRate env) inputData in
    let pcmBuffer := floatTo16BitPCM audioData in
    let base64Audio := arrayBufferToBase64 pcmBuffer in
    ws_send (JObj [("type", JStr "input_audio_buffer.append");
                   ("audio", JStr base64Audio)]) s.

(** [wsRef.current.onerror]. *)
Definition ws_onerror (s : State) : State :=
  s <| connectionError :=
         Some "Connection error. Please check if the server is running." |>
    <| isConnecting := false |>.

(** The [onclose] handler that [connect] installs on a socket.  It runs
    when that socket has closed; [stopAudioCapture] in it looks at the
    socket [wsRef] holds, which may be another one by then. *)
Definition socket_onclose (code : Z) (reason : string) (s : State) : State :=
  let s := stopAudioCapture (s <| isConnected := false |> <| isListening := false |>) in
  if negb (code =? 1000)%Z then
    s <| connectionError :=
           Some ("Connection closed: "
                 ++ (if String.eqb reason "" then "Unknown reason" else reason))%string |>
  else s.

(** The socket held by [wsRef] closes. *)
Definition ws_onclose (code : Z) (reason : string) (s : State) : State :=
  socket_onclose code reason (set_readyState CLOSED s).

(* ===================================================================== *)
(** * 10. Lesson-audio handoff                                           *)
(* ===================================================================== *)

(** [stopLessonAudio]. *)
Definition stopLessonAudio (s : State) : State :=
  s <| lessonAudioRef := None |> <| lessonAudioPlaying := false |>.

(** What the three callbacks of the narration element share. *)
Definition narration_cleared (s : State) : State :=
  s <| lessonAudioPlaying := false |>
    <| aiPaused := false |>
    <| lessonAudioRef := None |>
    <| pendingLessonAudio := None |>
    <| pendingLessonAudioRef := None |>.

(** [audio.onended]. *)
Definition lessonAudio_onended (env : Env) (s : State) : State :=
  addMessage env "system"
    "‚úÖ Lesson audio finished. Press Space to resume voice interaction."
    (narration_cleared s).

(** [audio.onerror]. *)
Definition lessonAudio_onerror (env : Env) (s : State) : State :=
  addMessage env "error" "Failed to play lesson audio." (narration_cleared s).

(** The [catch] of [audio.play()]. *)
Definition lessonAudio_play_rejected (s : State) : State :=
  narration_cleared s.

(** [playPendingLessonAudio]. *)
Definition playPendingLessonAudio (env : Env) (s : State) : State :=
  if negb (present (pendingLessonAudio s)) then s
  else
    (addMessage env "system" "üéß Playing lesson audio..."
       (s <| readyToPlayLessonAudio := false |> <| lessonAudioPlaying := true |>))
      <| lessonAudioRef := pendingLessonAudio s |>.

(** [resumeAI]. *)
Definition resumeAI (env : Env) (s : State) : State :=
  addMessage env "system" "üé§ Voice assistant resumed. You can speak now."
    ((stopLessonAudio s)
       <| aiPaused := false |>
       <| pendingLessonAudio := None |>
       <| pendingLessonAudioRef := None |>
       <| readyToPlayLessonAudio := false |>).

(** The body of [toggleListening], given how far its call of
    [startAudioCapture] gets; the conditions read the state of the render
    the callback belongs to, which is the state the handler starts in. *)
Definition toggleListening_with (startAudioCapture : State -> State)
    (env : Env) (s : State) : State :=
  if readyToPlayLessonAudio s && present (pendingLessonAudio s) then
    playPendingLessonAudio env s
  else if aiPaused s then
    let s1 := resumeAI env s in
    let s2 := if negb (isConnected s) then connect env s1 else s1 in
    startAudioCapture s2
  else
    let s1 := if lessonAudioPlaying s then stopLessonAudio s else s in
    if isListening s then stopAudioCapture s1
    else
      let s2 := if negb (isConnected s) then connect env s1 else s1 in
      startAudioCapture s2.

(** [toggleListening] when [getUserMedia] settles before anything else
    happens. *)
Definition toggleListening (env : Env) (s : State) : State :=
  toggleListening_with (startAudioCapture env) env s.

(** [toggleListening] up to the [getUserMedia] request. *)
Definition toggleListening_request (env : Env) (s : State) : State :=
  toggleListening_with startAudioCapture_request env s.

(* ===================================================================== *)
(** * 11. Keys, buttons, rendering                                       *)
(* ===================================================================== *)

(** [goToDashboard]. *)
Definition goToDashboard (env : Env) (s : State) : State :=
  let role := get_opt "role" (user env) in
  s <| navigated ::= fun l =>
         l ++ [JStr (if is_str role "admin" then "/admin"
                     else if is_str role "teacher" then "/teacher"
                     else "/student")] |>.

(** [handleKeyDown] for a key [code] pressed on an element [tagName]. *)
Definition handleKeyDown (env : Env) (code tagName : string) (s : State) : State :=
  let s :=
    if String.eqb code "Space" && negb (String.eqb tagName "INPUT")
       && negb (String.eqb tagName "TEXTAREA")
    then toggleListening env s else s in
  if String.eqb code "Escape" then goToDashboard env s else s.

(** The [Try reconnecting] button, shown with the error banner. *)
Definition reconnect_onClick (env : Env) (s : State) : State :=
  if present (connectionError s) then connect env s else s.




(* ===================================================================== *)
(** * 12. The session as a transition system                             *)
(* ===================================================================== *)

(** What can happen to a mounted page.  A key press other than Space
    starts no capture; a Space press whose [getUserMedia] is still pending
    when the handler returns is [ToggleRequest]. *)
Inductive Event : Type :=
| Mount                                   (* the mount effect calls [connect] *)
| AutoStart                               (* its timer, for blind users *)
| SocketOpened
| SocketError
| SocketClosed (code : Z) (reason : string)
| Inbound (event_data : option json)      (* [ws.onmessage] *)
| Toggle                                  (* Space, or the microphone button *)
| AudioFrame (inputData : list sample)    (* [onaudioprocess] *)
| SourceEnded (id : nat)                  (* a scheduled buffer ran out *)
| NarrationEnded
| NarrationError
| NarrationPlayRejected
| CountdownTick
(* The same, with [getUserMedia] still pending when the handler returns *)
| ToggleRequest
| AutoStartRequest
| GetUserMediaSettled                     (* a pending [getUserMedia] settles *)
(* Keys and buttons *)
| KeyDown (code tagName : string)         (* [handleKeyDown] *)
| DashboardButton
| RetryButton
(* Events of the [i]-th socket dropped from [wsRef] *)
| ReplacedSocketOpened (i : nat)
| ReplacedSocketError (i : nat)
| ReplacedSocketClosed (i : nat) (code : Z) (reason : string)
| ReplacedSocketInbound (i : nat) (event_data : option json).

Definition step (env : Env) (e : Event) (s : State) : State :=
  match e with
  | Mount => connect env s
  | AutoStart => if ws_open s then startAudioCapture env s else s
  | SocketOpened => set_readyState OPEN s
  | SocketError => ws_onerror s
  | SocketClosed code reason => ws_onclose code reason s
  | Inbound event_data => fst (handleMessage env event_data s)
  | Toggle => toggleListening env s
  | AudioFrame inputData => onaudioprocess env inputData s
  | SourceEnded id => source_onended id s
  | NarrationEnded => lessonAudio_onended env s
  | NarrationError => lessonAudio_onerror env s
  | NarrationPlayRejected => lessonAudio_play_rejected s
  | CountdownTick => countdown_tick s
  | ToggleRequest => toggleListening_request env s
  | AutoStartRequest => if ws_open s then startAudioCapture_request s else s
  | GetUserMediaSettled => getUserMedia_settled env s
  | KeyDown code tagName => handleKeyDown env code tagName s
  | DashboardButton => goToDashboard env s
  | RetryButton => reconnect_onClick env s
  | ReplacedSocketOpened i =>
      if replaced_live i s then set_replaced_readyState i OPEN s else s
  | ReplacedSocketError i => if replaced_live i s then ws_onerror s else s
  | ReplacedSocketClosed i code reason =>
      if replaced_live i s
      then socket_onclose code reason (set_replaced_readyState i CLOSED s)
      else s
  | ReplacedSocketInbound i event_data =>
      match replacedSockets s !! i with
      | Some ws =>
          if live ws then fst (handleMessage_of ws env event_data s) else s
      | None => s
      end
  end.

(** A run: events in arrival order, each with the environment it saw. *)
Definition run (trace : list (Env * Event)) (s : State) : State :=
  fold_left (fun st '(env, e) => step env e st) trace s.

Inductive reachable : State -> Prop :=
| reachable_init : reachable initialState
| reachable_step env e s : reachable s -> reachable (step env e s).

(** Live microphone capture is on. *)
Definition capturing (s : State) : bool := isListening s || isListeningRef s.

(** The narration track is playing. *)
Definition narrating (s : State) : bool := lessonAudioPlaying s.

(* ===================================================================== *)
(** * 13. Vocabulary of the statements                                   *)
(* ===================================================================== *)



(** The scheduling cursor once a source is scheduled: the double nearest
    to its start plus its duration. *)
Definition cursor_after (src : AudioSource) : Q :=
  round_double (startTime src + duration (buffer src)).

(** Consecutive sources are scheduled in order, each no earlier than the
    cursor left by the one before it. *)
Definition gapless (l : list AudioSource) : Prop :=
  forall n a b, l !! n = Some a -> l !! S n = Some b ->
    (cursor_after a <= startTime b)%Q /\ (startTime a <= startTime b)%Q.

(** From [s] to [s'] the sources [new] were scheduled, in this order, each
    between the cursor of [s] and the cursor of [s'], at a time that is a
    double. *)
Definition schedule_extends (s s' : State) (new : list AudioSource) : Prop :=
  started s' = started s ++ new
  /\ gapless new
  /\ (audioPlaybackTimeRef s <= audioPlaybackTimeRef s')%Q
  /\ is_double (audioPlaybackTimeRef s')
  /\ Forall (fun a => (audioPlaybackTimeRef s <= startTime a)%Q
                      /\ is_double (startTime a)
                      /\ buffer a <> []
                      /\ (cursor_after a <= audioPlaybackTimeRef s')%Q) new.

(** Events that reset the scheduling cursor: the barge-in interruption and
    the stream-done signal, on whichever socket they arrive. *)
Definition resets_cursor (e : Event) : bool :=
  match e with
  | Inbound (Some data) | ReplacedSocketInbound _ (Some data) =>
      is_str (get "type" data) "input_audio_buffer.speech_started"
      || is_str (get "type" data) "response.audio.done"
  | _ => false
  end.

(** Frames as the server sends them. *)
Definition context_update (data : json) : json :=
  JObj [("type", JStr "context_update"); ("data", data)].

Definition audio_delta (base64Audio : string) : json :=
  JObj [("type", JStr "response.audio.delta"); ("delta", JStr base64Audio)].

Definition response_done : json := JObj [("type", JStr "response.done")].

Definition session_created : json := JObj [("type", JStr "session.created")].

Definition start_lesson (has_audio : json) (lesson : json) : json :=
  JObj [("action", JStr "start_lesson"); ("lesson", lesson);
        ("has_audio", has_audio)].

(** The int16 that [floatTo16BitPCM] stores for a sample, and the value the
    decoding loop of [playAudio] reads back from an int16. *)
Definition quantize (x : sample) : Z := ToInt16 (scale (clamp x)).

Definition dequantize (int16 : Z) : Q := inject_Z int16 / 32768.

(** The capture flags, the pending narration and the number of pending
    microphone requests, as one tuple. *)
Definition handoff_view (s : State)
  : bool * bool * option string * option string * nat :=
  (isListening s, isListeningRef s, pendingLessonAudio s, pendingLessonAudioRef s,
   getUserMediaPending s).

(** The handoff is armed: capture is off and a narration URL is pending,
    in the state slot and in the ref. *)
Definition handoff_waiting (s : State) : Prop :=
  isListening s = false /\ isListeningRef s = false
  /\ present (pendingLessonAudio s) = true
  /\ present (pendingLessonAudioRef s) = true.

(** The handoff is armed and no microphone request is pending. *)
Definition handoff_held (s : State) : Prop :=
  handoff_waiting s /\ getUserMediaPending s = 0%nat.

(** What the server and the browser send while the page waits: every event
    that is neither an action of the user, nor the automatic start of
    capture, nor a callback of the narration element. *)
Definition passive (e : Event) : bool :=
  match e with
  | SocketOpened | SocketError | SocketClosed _ _ | Inbound _ | AudioFrame _
  | SourceEnded _ | CountdownTick | GetUserMediaSettled
  | ReplacedSocketOpened _ | ReplacedSocketError _ | ReplacedSocketClosed _ _ _
  | ReplacedSocketInbound _ _ => true
  | _ => false
  end.

(** The user asks to toggle: the microphone button, or the Space key
    outside a text field. *)
Definition toggles (e : Event) : bool :=
  match e with
  | Toggle | ToggleRequest => true
  | KeyDown code tagName =>
      String.eqb code "Space" && negb (String.eqb tagName "INPUT")
      && negb (String.eqb tagName "TEXTAREA")
  | _ => false
  end.

(** An environment for the worked examples. *)
Definition example_env : Env := {|
  Date_now := 1700000000000;
  currentTime := 1;
  sampleRate := 48000;
  micGranted := true;
  user := JObj [("role", JStr "student"); ("is_blind", JBool true)];
  VITE_API_URL := "http://localhost:8000";
  VITE_WS_URL := "ws://localhost:8000";
  token := "t"
|}.

(** The three-way projection compared by the idempotence statement. *)
Definition playback_idle (s : State) : Prop :=
  activeAudioSourcesRef s = [] /\ audioQueueRef s = []
  /\ audioPlaybackTimeRef s = 0%Q.

(* ===================================================================== *)
(** * 14. Vocabulary of the further properties                           *)
(* ===================================================================== *)

(** An element of a [Uint8Array]. *)
Definition is_byte (b : Z) : Prop := (0 <= b < 256)%Z.

(** The 6-bit groups [btoa] writes for a byte string, before padding. *)
Fixpoint sextets (bytes : list Z) : list Z :=
  match bytes with
  | [] => []
  | [a] => [(a / 4)%Z; ((a mod 4) * 16)%Z]
  | [a; b] => [(a / 4)%Z; ((a mod 4) * 16 + b / 16)%Z; ((b mod 16) * 4)%Z]
  | a :: b :: c :: rest =>
      [(a / 4)%Z; ((a mod 4) * 16 + b / 16)%Z; ((b mod 16) * 4 + c / 64)%Z;
       (c mod 64)%Z] ++ sextets rest
  end.

(** The character of the base64 alphabet for a 6-bit value. *)
Definition b64_char (n : Z) : ascii :=
  default "A"%char (String.get (Z.to_nat n) b64_alphabet).

(** The [=] signs [btoa] appends. *)
Definition b64_padding (bytes : list Z) : list ascii :=
  match (length bytes mod 3)%nat with
  | 1%nat => ["="%char; "="%char]
  | 2%nat => ["="%char]
  | _ => []
  end.

(** Outbound frames of the capture pipeline. *)
Definition audio_append (base64Audio : string) : json :=
  JObj [("type", JStr "input_audio_buffer.append"); ("audio", JStr base64Audio)].

Definition audio_commit : json := JObj [("type", JStr "input_audio_buffer.commit")].

(** The stream-done frame. *)
Definition audio_done : json := JObj [("type", JStr "response.audio.done")].



(** The three logs and the active set of the playback scheduler. *)
Definition playback_view (s : State)
  : list AudioSource * list AudioSource * list nat :=
  (started s, activeAudioSourcesRef s, stopped s).

(** No source is stopped twice, a stopped source is not active, and only
    scheduled sources are stopped. *)
Definition stop_coherent (s : State) : Prop :=
  NoDup (stopped s ++ map source_id (activeAudioSourcesRef s))
  /\ Forall (fun id => (id < length (started s))%nat) (stopped s).

(** Every scheduled source carries its position in the schedule as its
    identity, and the active set is a part of the schedule, in order. *)
Definition schedule_coherent (s : State) : Prop :=
  (forall i src, started s !! i = Some src -> source_id src = i)
  /\ activeAudioSourcesRef s `sublist_of` started s.

(** [k] firings of the countdown interval. *)
Definition countdown_ticks (k : nat) (s : State) : State :=
  Nat.iter k countdown_tick s.

(** The rate-limit wait is the number [x]. *)
Definition wait_is (s : State) (x : Q) : Prop :=
  match rateLimitWait s with
  | Finite q => (q == x)%Q
  | _ => False
  end.

(** The actions [handleContextUpdate] tests for. *)
Definition known_actions : list string :=
  [ "start_quiz"; "show_question"; "pending_answer"; "answer_confirmed";
    "answer_cancelled"; "quiz_completed"; "start_lesson"; "start_assignment";
    "confirm_submission"; "submission_complete"; "show_courses";
    "show_progress"; "enrollment_complete"; "show_assignments";
    "show_quizzes"; "navigate"; "clear_display" ].

Definition known_action (data : json) : bool :=
  existsb (is_str (get "action" data)) known_actions.

(** A run of digits and dots, as the capture group of the retry pattern. *)
Definition digits_or_dots (group : string) : bool :=
  forallb is_digit_or_dot (list_ascii_of_string group).

(** A decoded sample: finite and in [-1, 1). *)
Definition normalized (x : sample) : Prop :=
  match x with
  | Fin q => (-1 <= q)%Q /\ (q < 1)%Q
  | NaN => False
  end.

(** The bookkeeping of the playback scheduler is sound. *)
Definition playback_coherent (s : State) : Prop :=
  schedule_coherent s /\ stop_coherent s.

(** The frame that an event hands to [handleMessage]: one that arrives on
    the socket of [wsRef], or on a socket dropped from it that is still
    live. *)
Definition delivered (e : Event) (s : State) : option json :=
  match e with
  | Inbound (Some frame) => Some frame
  | ReplacedSocketInbound i (Some frame) =>
      if replaced_live i s then Some frame else None
  | _ => None
  end.

(** The payload of a frame that is a context update with the given
    action. *)
Definition frame_request (action : string) (frame : json) : option json :=
  if is_str (get "type" frame) "context_update"
     && is_str (get "action" (get "data" frame)) action
  then Some (get "data" frame)
  else None.

(** The payload of a context update with the given action, when the event
    is the arrival of one. *)
Definition context_request (action : string) (e : Event) (s : State) : option json :=
  delivered e s ≫= frame_request action.

(** The user asks for the dashboard: the Escape key, or the button of the
    header. *)
Definition asks_dashboard (e : Event) : bool :=
  match e with
  | DashboardButton => true
  | KeyDown code _ => String.eqb code "Escape"
  | _ => false
  end.

(** What a dialogue leaves behind: the recorded answers and the router
    navigations. *)
Definition outcome_view (s : State) : gmap string json * list json :=
  (quizAnswers (currentContext s), navigated s).

(** The answers and the navigations after a request. *)
Definition outcome_of (request : string -> option json) (s : State)
  : gmap string json * list json :=
  (match request "start_quiz" with
   | Some _ => ∅
   | None =>
       match request "answer_confirmed" with
       | Some data =>
           <[toString (get "questionIndex" data) := get "answer" data]>
             (quizAnswers (currentContext s))
       | None => quizAnswers (currentContext s)
       end
   end,
   navigated s
   ++ match request "navigate" with
      | Some data => if truthy (get "url" data) then [get "url" data] else []
      | None => []
      end).

(** The roles [addMessage] is called with. *)
Definition message_roles : list string := ["system"; "user"; "assistant"; "error"].

(** A log entry made while handling an event that saw [env]. *)
Definition stamped (env : Env) (m : Message) : Prop :=
  msg_id m = Date_now env /\ In (role m) message_roles.

(* ===================================================================== *)
(** * Part II. Properties                                                *)
(* ===================================================================== *)

(** ** Double precision *)

Section Doubles.
Local Open Scope Q_scope.

Lemma pow2_pos e : 0 < 2 ^ e.
Proof. apply Qpower_0_lt. reflexivity. Qed.

Lemma pow2_succ e : 2 ^ (e + 1) == 2 * 2 ^ e.
Proof. rewrite Qpower_plus by (intro H; discriminate H). change (2 ^ 1) with 2. ring. Qed.

Lemma pow2_add a b : 2 ^ (a + b) == 2 ^ a * 2 ^ b.
Proof. apply Qpower_plus. intro H; discriminate H. Qed.

Lemma pow2_le a b : (a <= b)%Z -> 2 ^ a <= 2 ^ b.
Proof. intros H. apply Qpower_le_compat_l; [exact H | discriminate]. Qed.

Lemma pow2_lt a b : (a < b)%Z -> 2 ^ a < 2 ^ b.
Proof.
  intros H. apply Qlt_le_trans with (2 ^ (a + 1)).
  - rewrite pow2_succ. pose proof (pow2_pos a). lra.
  - apply pow2_le. lia.
Qed.

Lemma pow2_le_inv a b : 2 ^ a < 2 ^ b -> (a < b)%Z.
Proof.
  intros H. destruct (Z.lt_ge_cases a b) as [|Hge]; [assumption|].
  apply pow2_le in Hge. lra.
Qed.

Lemma pow2_inject a : (0 <= a)%Z -> inject_Z (2 ^ a) == 2 ^ a.
Proof. intros H. rewrite Zpower_Qpower by exact H. reflexivity. Qed.

Lemma Qlog2_spec x : 0 < x -> 2 ^ Qlog2 x <= x /\ x < 2 ^ (Qlog2 x + 1).
Proof.
  intros Hx. destruct x as [n d]. unfold Qlog2. cbn [Qnum Qden].
  assert (Hn : (0 < n)%Z) by (unfold Qlt in Hx; cbn in Hx; lia).
  pose proof (Z.log2_spec n Hn) as [Ha1 Ha2].
  pose proof (Z.log2_spec (Zpos d) (Pos2Z.is_pos d)) as [Hb1 Hb2].
  pose proof (Z.log2_nonneg n) as Ha0. pose proof (Z.log2_nonneg (Zpos d)) as Hb0.
  set (a := Z.log2 n) in *. set (b := Z.log2 (Zpos d)) in *.
  assert (HE : 2 ^ (a - b) * inject_Z (2 ^ b) == inject_Z (2 ^ a)).
  { rewrite !pow2_inject by lia. rewrite <- pow2_add. f_equiv. lia. }
  rewrite Z.pow_succ_r in Ha2, Hb2 by lia.
  rewrite Zle_Qle in Ha1, Hb1. rewrite Zlt_Qlt in Ha2, Hb2.
  rewrite inject_Z_mult in Ha2, Hb2. change (inject_Z 2) with 2 in *.
  pose proof (pow2_pos (a - b)) as HEpos.
  assert (HEs : 2 ^ (a - b + 1) == 2 * 2 ^ (a - b)) by apply pow2_succ.
  assert (HE2 : 2 ^ (a - b) == 2 * 2 ^ (a - b - 1)).
  { rewrite <- pow2_succ. f_equiv. lia. }
  remember (2 ^ (a - b)) as E eqn:HeqE.
  remember (2 ^ (a - b + 1)) as P1 eqn:HeqP1.
  remember (2 ^ (a - b - 1)) as P0 eqn:HeqP0.
  remember (inject_Z (2 ^ a)) as A eqn:HeqA. remember (inject_Z (2 ^ b)) as B eqn:HeqB.
  assert (HD : 0 < inject_Z (Zpos d)) by (rewrite <- (Zlt_Qlt 0); lia).
  assert (Hq : n # d == inject_Z n / inject_Z (Zpos d)) by apply Qmake_Qdiv.
  remember (inject_Z n) as N eqn:HeqN. remember (inject_Z (Zpos d)) as D eqn:HeqD.
  clear HeqA HeqB HeqN HeqD.
  assert (Hm1 : E * B <= E * D) by (apply Qmult_le_l; assumption).
  assert (Hm2 : E * D < E * (2 * B)) by (apply Qmult_lt_l; assumption).
  assert (Hm3 : E * (2 * B) == 2 * (E * B)) by ring.
  assert (Hup : n # d < 2 * E).
  { rewrite Hq. apply Qlt_shift_div_r; [exact HD|].
    setoid_replace (2 * E * D) with (2 * (E * D)) using relation Qeq by ring.
    clear Hq Hx HeqE HeqP1 HeqP0. set (ED := E * D) in *. set (EB := E * B) in *. clearbody ED EB. lra. }
  assert (Hlo : (1 # 2) * E <= n # d).
  { rewrite Hq. apply Qle_shift_div_l; [exact HD|].
    setoid_replace ((1 # 2) * E * D) with ((1 # 2) * (E * D)) using relation Qeq by ring.
    clear Hq Hx Hup HeqE HeqP1 HeqP0. set (ED := E * D) in *. set (EB := E * B) in *. clearbody ED EB.
    set (EB2 := E * (2 * B)) in *. clearbody EB2. lra. }
  destruct (Qle_bool E (n # d)) eqn:Hc.
  - apply Qle_bool_iff in Hc. rewrite <- HeqE, <- HeqP1. clear HeqE HeqP1 HeqP0.
    split; [exact Hc | lra].
  - assert (Hlt : n # d < E).
    { apply Qnot_le_lt. intros H. apply Qle_bool_iff in H. congruence. }
    replace (a - b - 1 + 1)%Z with (a - b)%Z by lia.
    rewrite <- HeqE, <- HeqP0. clear HeqE HeqP1 HeqP0.
    split; [lra | exact Hlt].
Qed.

Lemma Qlog2_unique x e : 2 ^ e <= x -> x < 2 ^ (e + 1) -> Qlog2 x = e.
Proof.
  intros H1 H2.
  assert (Hx : 0 < x) by (pose proof (pow2_pos e); lra).
  destruct (Qlog2_spec x Hx) as [H3 H4].
  assert (Qlog2 x < e + 1)%Z by (apply pow2_le_inv; lra).
  assert (e < Qlog2 x + 1)%Z by (apply pow2_le_inv; lra).
  lia.
Qed.

Lemma Qlog2_monotone x y : 0 < x -> x <= y -> (Qlog2 x <= Qlog2 y)%Z.
Proof.
  intros Hx Hxy. destruct (Qlog2_spec x Hx) as [H1 _].
  destruct (Qlog2_spec y) as [_ H2]; [lra|].
  assert (Qlog2 x < Qlog2 y + 1)%Z by (apply pow2_le_inv; lra). lia.
Qed.

(** ** Rounding to the nearest integer, ties to even *)

Lemma Qfloor_frac x : 0 <= x - inject_Z (Qfloor x) /\ x - inject_Z (Qfloor x) < 1.
Proof.
  pose proof (Qfloor_le x). pose proof (Qlt_floor x) as H1.
  rewrite inject_Z_plus in H1. change (inject_Z 1) with 1 in H1. lra.
Qed.

Lemma round_half_even_cases x :
  let f := Qfloor x in
  (round_half_even x = f /\ x - inject_Z f <= 1 # 2)
  \/ (round_half_even x = (f + 1)%Z /\ 1 # 2 <= x - inject_Z f).
Proof.
  intros f. unfold round_half_even. fold f.
  destruct (Qcompare_spec (x - inject_Z f) (1 # 2)) as [H|H|H].
  - destruct (Z.even f); [left | right]; split; try reflexivity; lra.
  - left. split; [reflexivity | lra].
  - right. split; [reflexivity | lra].
Qed.

Lemma round_half_even_near x :
  inject_Z (round_half_even x) - (1 # 2) <= x
  /\ x <= inject_Z (round_half_even x) + (1 # 2).
Proof.
  pose proof (Qfloor_frac x) as [H0 H1].
  destruct (round_half_even_cases x) as [[-> H]|[-> H]].
  - lra.
  - rewrite inject_Z_plus. change (inject_Z 1) with 1. lra.
Qed.

Lemma round_half_even_Z n : round_half_even (inject_Z n) = n.
Proof.
  unfold round_half_even. rewrite Qfloor_Z.
  destruct (Qcompare_spec (inject_Z n - inject_Z n) (1 # 2)) as [H|H|H];
    [lra | reflexivity | lra].
Qed.

Lemma round_half_even_monotone x y : x <= y -> (round_half_even x <= round_half_even y)%Z.
Proof.
  intros Hxy. pose proof (Qfloor_resp_le x y Hxy) as Hf.
  pose proof (Qfloor_frac x) as [Hx0 Hx1]. pose proof (Qfloor_frac y) as [Hy0 Hy1].
  assert (Hlo : forall z, (Qfloor z <= round_half_even z <= Qfloor z + 1)%Z).
  { intros z. destruct (round_half_even_cases z) as [[-> _]|[-> _]]; lia. }
  destruct (Z.eq_dec (Qfloor x) (Qfloor y)) as [E|NE].
  - unfold round_half_even. rewrite <- E.
    destruct (Qcompare_spec (x - inject_Z (Qfloor x)) (1 # 2)) as [H|H|H];
      destruct (Qcompare_spec (y - inject_Z (Qfloor x)) (1 # 2)) as [H'|H'|H'];
      try lia; try lra; destruct (Z.even (Qfloor x)); lia.
  - pose proof (Hlo x). pose proof (Hlo y). lia.
Qed.

#[global] Instance round_half_even_proper : Proper (Qeq ==> eq) round_half_even.
Proof.
  intros x y H. apply Z.le_antisymm; apply round_half_even_monotone; lra.
Qed.

Lemma round_half_even_ge x n : inject_Z n <= x -> (n <= round_half_even x)%Z.
Proof.
  intros H. rewrite <- (round_half_even_Z n). apply round_half_even_monotone, H.
Qed.

Lemma round_half_even_le x n : x <= inject_Z n -> (round_half_even x <= n)%Z.
Proof.
  intros H. rewrite <- (round_half_even_Z n). apply round_half_even_monotone, H.
Qed.

(** Rounding to the nearest double. *)

Lemma round_double_pos_eq x :
  round_double_pos x
  = inject_Z (round_half_even (x / 2 ^ double_exponent x)) * 2 ^ double_exponent x.
Proof. reflexivity. Qed.

Lemma double_exponent_monotone x y :
  0 < x -> x <= y -> (double_exponent x <= double_exponent y)%Z.
Proof.
  intros Hx Hxy. unfold double_exponent.
  pose proof (Qlog2_monotone x y Hx Hxy). lia.
Qed.

(** A power of two on the grid of [x] bounds the rounding of [x] as it
    bounds [x]. *)
Lemma round_double_pos_le x e :
  (double_exponent x <= e)%Z -> x <= 2 ^ e -> round_double_pos x <= 2 ^ e.
Proof.
  intros Hq Hx. rewrite round_double_pos_eq.
  set (q := double_exponent x) in *.
  pose proof (pow2_pos q) as Hu.
  assert (He : 2 ^ e == inject_Z (2 ^ (e - q)) * 2 ^ q).
  { rewrite pow2_inject by lia. rewrite <- pow2_add. f_equiv. lia. }
  rewrite He. apply Qmult_le_compat_r; [|lra].
  rewrite <- Zle_Qle. apply round_half_even_le.
  apply Qle_shift_div_r; [exact Hu|]. rewrite <- He. exact Hx.
Qed.

Lemma round_double_pos_ge x e :
  (double_exponent x <= e)%Z -> 2 ^ e <= x -> 2 ^ e <= round_double_pos x.
Proof.
  intros Hq Hx. rewrite round_double_pos_eq.
  set (q := double_exponent x) in *.
  pose proof (pow2_pos q) as Hu.
  assert (He : 2 ^ e == inject_Z (2 ^ (e - q)) * 2 ^ q).
  { rewrite pow2_inject by lia. rewrite <- pow2_add. f_equiv. lia. }
  rewrite He. apply Qmult_le_compat_r; [|lra].
  rewrite <- Zle_Qle. apply round_half_even_ge.
  apply Qle_shift_div_l; [exact Hu|]. rewrite <- He. exact Hx.
Qed.

Lemma round_double_pos_nonneg x : 0 < x -> 0 <= round_double_pos x.
Proof.
  intros Hx. rewrite round_double_pos_eq.
  pose proof (pow2_pos (double_exponent x)) as Hu.
  apply Qmult_le_0_compat; [|lra].
  change 0 with (inject_Z 0). rewrite <- Zle_Qle. apply round_half_even_ge.
  change (inject_Z 0) with 0. apply Qle_shift_div_l; [exact Hu | lra].
Qed.

Lemma round_double_pos_monotone x y :
  0 < x -> x <= y -> round_double_pos x <= round_double_pos y.
Proof.
  intros Hx Hxy.
  pose proof (double_exponent_monotone x y Hx Hxy) as Hq.
  destruct (Z.eq_dec (double_exponent x) (double_exponent y)) as [E|NE].
  - rewrite !round_double_pos_eq, <- E.
    pose proof (pow2_pos (double_exponent x)) as Hu.
    apply Qmult_le_compat_r; [|lra].
    rewrite <- Zle_Qle. apply round_half_even_monotone.
    apply Qmult_le_compat_r; [exact Hxy|]. apply Qinv_le_0_compat. lra.
  - assert (Hy : 0 < y) by lra.
    destruct (Qlog2_spec x Hx) as [_ Hx2]. destruct (Qlog2_spec y Hy) as [Hy1 _].
    assert (Hlt : (double_exponent x < double_exponent y)%Z) by lia.
    unfold double_exponent in Hlt.
    apply Qle_trans with (2 ^ Qlog2 y).
    + apply round_double_pos_le; [unfold double_exponent; lia|].
      apply Qle_trans with (2 ^ (Qlog2 x + 1)); [lra|]. apply pow2_le. lia.
    + apply round_double_pos_ge; [unfold double_exponent; lia | exact Hy1].
Qed.

Lemma round_double_monotone x y : x <= y -> round_double x <= round_double y.
Proof.
  intros Hxy. unfold round_double.
  destruct (Qcompare_spec x 0) as [Hx|Hx|Hx]; destruct (Qcompare_spec y 0) as [Hy|Hy|Hy];
    try lra.
  - apply round_double_pos_nonneg, Hy.
  - assert (Hn : 0 < - x) by lra. pose proof (round_double_pos_nonneg (- x) Hn). lra.
  - assert (Hn : 0 < - y) by lra. assert (Hle : - y <= - x) by lra.
    pose proof (round_double_pos_monotone (- y) (- x) Hn Hle). lra.
  - assert (Hn : 0 < - x) by lra. pose proof (round_double_pos_nonneg (- x) Hn).
    pose proof (round_double_pos_nonneg y Hy). lra.
  - apply round_double_pos_monotone; assumption.
Qed.

Lemma round_double_comp x y : x == y -> round_double x == round_double y.
Proof.
  intros H. apply Qle_antisym; apply round_double_monotone; lra.
Qed.

#[global] Instance round_double_proper : Proper (Qeq ==> Qeq) round_double.
Proof. intros x y H. apply round_double_comp, H. Qed.

(** A mantissa of at most 53 bits on an exponent of at least [-1074] is a
    double. *)
Lemma is_double_mantissa m q :
  (0 < m < 2 ^ 53)%Z -> (-1074 <= q)%Z -> is_double (inject_Z m * 2 ^ q).
Proof.
  intros Hm Hq. unfold is_double, round_double.
  pose proof (pow2_pos q) as Hu.
  assert (Hpos : 0 < inject_Z m * 2 ^ q).
  { apply Qmult_lt_0_compat; [|exact Hu]. rewrite <- (Zlt_Qlt 0). lia. }
  destruct (Qcompare_spec (inject_Z m * 2 ^ q) 0) as [H|H|H]; try lra.
  pose proof (Z.log2_spec m (proj1 Hm)) as [Hl1 Hl2].
  assert (Hlog : Qlog2 (inject_Z m * 2 ^ q) = (Z.log2 m + q)%Z).
  { apply Qlog2_unique.
    - rewrite pow2_add. apply Qmult_le_compat_r; [|lra].
      rewrite <- pow2_inject by apply Z.log2_nonneg. rewrite <- Zle_Qle. exact Hl1.
    - replace (Z.log2 m + q + 1)%Z with (Z.succ (Z.log2 m) + q)%Z by lia.
      rewrite pow2_add. apply Qmult_lt_compat_r; [exact Hu|].
      rewrite <- pow2_inject by (pose proof (Z.log2_nonneg m); lia).
      rewrite <- Zlt_Qlt. exact Hl2. }
  assert (Hl53 : (Z.log2 m < 53)%Z) by (apply Z.log2_lt_pow2; lia).
  rewrite round_double_pos_eq. unfold double_exponent. rewrite Hlog.
  set (q' := Z.max (Z.log2 m + q - 52) (-1074)).
  assert (Hq' : (q' <= q)%Z) by (unfold q'; lia).
  pose proof (pow2_pos q') as Hu'.
  assert (He : 2 ^ q == inject_Z (2 ^ (q - q')) * 2 ^ q').
  { rewrite pow2_inject by lia. rewrite <- pow2_add. f_equiv. lia. }
  assert (Hd : inject_Z m * 2 ^ q / 2 ^ q' == inject_Z (m * 2 ^ (q - q'))).
  { rewrite He, inject_Z_mult. field. lra. }
  rewrite Hd, round_half_even_Z, inject_Z_mult, He. ring.
Qed.

Lemma is_double_0 : is_double 0.
Proof. reflexivity. Qed.

Lemma is_double_pos_round x : 0 < x -> is_double (round_double_pos x).
Proof.
  intros Hx. rewrite round_double_pos_eq.
  set (q := double_exponent x). set (M := round_half_even (x / 2 ^ q)).
  pose proof (pow2_pos q) as Hu.
  assert (Hq : (-1074 <= q)%Z) by (unfold q, double_exponent; lia).
  destruct (Qlog2_spec x Hx) as [_ Hx2].
  assert (HM0 : (0 <= M)%Z).
  { apply round_half_even_ge. change (inject_Z 0) with 0.
    apply Qle_shift_div_l; [exact Hu | lra]. }
  assert (HM1 : (M <= 2 ^ 53)%Z).
  { apply round_half_even_le. apply Qle_shift_div_r; [exact Hu|].
    rewrite pow2_inject by lia. rewrite <- pow2_add.
    apply Qle_trans with (2 ^ (Qlog2 x + 1)); [lra|].
    apply pow2_le. unfold q, double_exponent. lia. }
  destruct (Z.eq_dec M 0%Z) as [E0|N0].
  - rewrite E0. unfold is_double. setoid_replace (inject_Z 0 * 2 ^ q) with 0 using relation Qeq by ring.
    reflexivity.
  - destruct (Z.eq_dec M (2 ^ 53)%Z) as [E1|N1].
    + rewrite E1. unfold is_double.
      setoid_replace (inject_Z (2 ^ 53) * 2 ^ q) with (inject_Z (2 ^ 52) * 2 ^ (q + 1)) using relation Qeq.
      * apply is_double_mantissa; lia.
      * rewrite pow2_succ. change (2 ^ 53)%Z with (2 ^ 52 * 2)%Z.
        rewrite inject_Z_mult. change (inject_Z 2) with 2. ring.
    + apply is_double_mantissa; lia.
Qed.

(** Rounding is idempotent: what it returns is a double. *)
Lemma is_double_round x : is_double (round_double x).
Proof.
  unfold round_double. destruct (Qcompare_spec x 0) as [H|H|H].
  - apply is_double_0.
  - assert (Hn : 0 < - x) by lra.
    pose proof (is_double_pos_round (- x) Hn) as Hd.
    pose proof (round_double_pos_nonneg (- x) Hn) as H0.
    unfold is_double in *. unfold round_double at 1.
    destruct (Qcompare_spec (- round_double_pos (- x)) 0) as [E|E|E].
    + lra.
    + assert (Hr : round_double_pos (- - round_double_pos (- x))
                   == round_double_pos (- x)).
      { assert (Hp : 0 < round_double_pos (- x)) by lra.
        unfold round_double in Hd.
        destruct (Qcompare_spec (round_double_pos (- x)) 0) as [F|F|F]; try lra.
        rewrite <- Hd at 2.
        apply Qle_antisym; apply round_double_pos_monotone; lra. }
      lra.
    + lra.
  - apply is_double_pos_round, H.
Qed.

(** Integers of at most 53 bits are doubles. *)
Lemma is_double_Z z : (Z.abs z <= 2 ^ 53)%Z -> is_double (inject_Z z).
Proof.
  assert (Hp : forall m, (0 < m <= 2 ^ 53)%Z -> is_double (inject_Z m)).
  { intros m Hm. destruct (Z.eq_dec m (2 ^ 53)%Z) as [->|N].
    - vm_compute. reflexivity.
    - assert (E : inject_Z m == inject_Z m * 2 ^ 0) by (change (2 ^ 0) with 1; ring).
      unfold is_double. rewrite E at 1 2. apply is_double_mantissa; lia. }
  intros Hz. destruct (Z.lt_trichotomy z 0%Z) as [H|[->|H]].
  - assert (Hm : is_double (inject_Z (- z))) by (apply Hp; lia).
    unfold is_double, round_double in *.
    assert (Hneg : inject_Z z < 0) by (rewrite (Zlt_Qlt z 0) in H; exact H).
    rewrite inject_Z_opp in Hm.
    destruct (Qcompare_spec (inject_Z z) 0) as [F|F|F]; try lra.
    destruct (Qcompare_spec (- inject_Z z) 0) as [G|G|G]; try lra.
  - apply is_double_0.
  - apply Hp. lia.
Qed.

(** A double below [y] stays below the rounding of [y], and a double above
    stays above. *)
Lemma round_double_ge d y : is_double d -> d <= y -> d <= round_double y.
Proof.
  intros Hd H. unfold is_double in Hd.
  apply Qle_trans with (round_double d); [lra | apply round_double_monotone, H].
Qed.

Lemma round_double_le d y : is_double d -> y <= d -> round_double y <= d.
Proof.
  intros Hd H. unfold is_double in Hd.
  apply Qle_trans with (round_double d); [apply round_double_monotone, H | lra].
Qed.

(** In the normal range, rounding moves a number by at most the fraction
    [2^-53] of itself. *)
Lemma round_double_error x :
  2 ^ (-1022) <= x ->
  x - x * 2 ^ (-53) <= round_double x /\ round_double x <= x + x * 2 ^ (-53).
Proof.
  intros Hx.
  assert (Hpos : 0 < x) by (pose proof (pow2_pos (-1022)); lra).
  destruct (Qlog2_spec x Hpos) as [Hlo Hhi].
  assert (He : (-1022 <= Qlog2 x)%Z).
  { assert (-1022 < Qlog2 x + 1)%Z by (apply pow2_le_inv; lra). lia. }
  unfold round_double.
  destruct (Qcompare_spec x 0) as [F|F|F]; try lra.
  rewrite round_double_pos_eq.
  assert (Eq : double_exponent x = (Qlog2 x - 52)%Z) by (unfold double_exponent; lia).
  rewrite Eq. set (q := (Qlog2 x - 52)%Z).
  pose proof (pow2_pos q) as Hu.
  pose proof (round_half_even_near (x / 2 ^ q)) as [N1 N2].
  set (M := inject_Z (round_half_even (x / 2 ^ q))) in *.
  assert (Ex : x == (x / 2 ^ q) * 2 ^ q) by (field; lra).
  set (y := x / 2 ^ q) in *.
  assert (Hq : 2 ^ q == 2 ^ Qlog2 x * 2 ^ (-52)).
  { unfold q. replace (Qlog2 x - 52)%Z with (Qlog2 x + -52)%Z by lia. apply pow2_add. }
  assert (H53 : 2 ^ (-53) == (1 # 2) * 2 ^ (-52)) by reflexivity.
  assert (H52 : 0 < 2 ^ (-52)) by reflexivity.
  set (U := 2 ^ q) in *. set (E := 2 ^ Qlog2 x) in *. set (C := 2 ^ (-52)) in *.
  set (D := 2 ^ (-53)) in *.
  assert (Hhalf : (1 # 2) * U <= x * D).
  { rewrite H53, Hq.
    setoid_replace ((1 # 2) * (E * C)) with (((1 # 2) * C) * E) using relation Qeq by ring.
    setoid_replace (x * ((1 # 2) * C)) with (((1 # 2) * C) * x) using relation Qeq by ring.
    apply Qmult_le_l; [|exact Hlo]. lra. }
  assert (A1 : (M - (1 # 2)) * U <= y * U) by (apply Qmult_le_r; [exact Hu | exact N1]).
  assert (A2 : y * U <= (M + (1 # 2)) * U) by (apply Qmult_le_r; [exact Hu | exact N2]).
  clearbody M y U E C D. clear - Ex Hhalf A1 A2.
  assert (B1 : (M - (1 # 2)) * U == M * U - (1 # 2) * U) by ring.
  assert (B2 : (M + (1 # 2)) * U == M * U + (1 # 2) * U) by ring.
  set (MU := M * U) in *. set (yU := y * U) in *. set (hU := (1 # 2) * U) in *.
  set (xD := x * D) in *. clearbody MU yU hU xD. lra.
Qed.

End Doubles.

(** ** Integer conversions *)

Lemma wrap16_range n : (-32768 <= wrap16 n <= 32767)%Z.
Proof. unfold wrap16. destruct (Z.leb_spec 32768 (n mod 65536)); lia. Qed.

Lemma wrap16_id n : (-32768 <= n <= 32767)%Z -> wrap16 n = n.
Proof.
  unfold wrap16. intros Hn. destruct (Z.leb_spec 32768 (n mod 65536)); lia.
Qed.

(** Writing an int16 as two bytes and reading them back. *)
Lemma int16_bytes n :
  (-32768 <= n <= 32767)%Z ->
  wrap16 (n mod 256 + 256 * ((n / 256) mod 256)) = n.
Proof.
  unfold wrap16. intros Hn.
  destruct (Z.leb_spec 32768 ((n mod 256 + 256 * ((n / 256) mod 256)) mod 65536)); lia.
Qed.

Lemma ToInt16_range v : (-32768 <= ToInt16 v <= 32767)%Z.
Proof. destruct v; simpl; [apply wrap16_range | lia]. Qed.

(** Truncation is the floor of a non-negative number and the ceiling of a
    non-positive one. *)
Lemma Qtrunc_nonneg q : (0 <= q)%Q -> Qtrunc q = Qfloor q.
Proof.
  destruct q as [n d]. unfold Qle, Qtrunc, Qfloor. simpl. intros Hq.
  apply Z.quot_div_nonneg; lia.
Qed.

Lemma Qtrunc_nonpos q : (q <= 0)%Q -> Qtrunc q = Qceiling q.
Proof.
  destruct q as [n d]. unfold Qle, Qtrunc, Qceiling, Qfloor. simpl. intros Hq.
  rewrite <- (Z.opp_involutive n) at 1. rewrite Z.quot_opp_l by lia.
  f_equal. apply Z.quot_div_nonneg; lia.
Qed.

(** ** Rounding *)

Lemma inject_Z_succ z : inject_Z (z + 1) = (inject_Z z + 1)%Q.
Proof. rewrite inject_Z_plus. reflexivity. Qed.

Lemma inject_Z_pred z : inject_Z (z - 1) = (inject_Z z + - (1))%Q.
Proof. unfold Z.sub. rewrite inject_Z_plus. reflexivity. Qed.


Lemma Qfloor_between (x : Q) (lo hi : Z) :
  (inject_Z lo <= x)%Q -> (x <= inject_Z hi)%Q -> (lo <= Qfloor x <= hi)%Z.
Proof.
  intros Hlo Hhi. split.
  - rewrite <- (Qfloor_Z lo). apply Qfloor_resp_le. exact Hlo.
  - rewrite <- (Qfloor_Z hi). apply Qfloor_resp_le. exact Hhi.
Qed.

Lemma Qceiling_between (x : Q) (lo hi : Z) :
  (inject_Z lo <= x)%Q -> (x <= inject_Z hi)%Q -> (lo <= Qceiling x <= hi)%Z.
Proof.
  intros Hlo Hhi. split.
  - rewrite <- (Qceiling_Z lo). apply Qceiling_resp_le. exact Hlo.
  - rewrite <- (Qceiling_Z hi). apply Qceiling_resp_le. exact Hhi.
Qed.




(** ** The PCM codec *)

Lemma pcm_lookup_lo (f g : sample -> Z) (l : list sample) (i : nat) :
  flat_map (fun x => [f x; g x]) l !! (i * 2)%nat = f <$> l !! i.
Proof.
  revert i. induction l as [|a l IH]; intros [|i]; simpl; try reflexivity. apply IH.
Qed.

Lemma pcm_lookup_hi (f g : sample -> Z) (l : list sample) (i : nat) :
  flat_map (fun x => [f x; g x]) l !! S (i * 2)%nat = g <$> l !! i.
Proof.
  revert i. induction l as [|a l IH]; intros [|i]; simpl; try reflexivity. apply IH.
Qed.

Lemma pcm_length l : length (floatTo16BitPCM l) = (2 * length l)%nat.
Proof. induction l; simpl; lia. Qed.

(** Decoding what [floatTo16BitPCM] wrote gives back, sample by sample, the
    stored int16 over 32768. *)
Lemma pcm_roundtrip l :
  pcm16ToFloat (floatTo16BitPCM l) =
  Some (map (fun x => Fin (dequantize (quantize x))) l).
Proof.
  unfold pcm16ToFloat. rewrite pcm_length, Nat.div2_succ_double.
  apply mapM_Some. apply Forall2_same_length_lookup. split.
  - rewrite length_seq, length_map. reflexivity.
  - intros i j y Hj Hy. apply lookup_seq in Hj as [-> Hi]. simpl.
    rewrite list_lookup_fmap in Hy.
    unfold getInt16_le, floatTo16BitPCM, setInt16_le.
    rewrite (pcm_lookup_lo (fun x => (ToInt16 (scale (clamp x)) mod 256)%Z)
               (fun x => ((ToInt16 (scale (clamp x)) / 256) mod 256)%Z)).
    rewrite (pcm_lookup_hi (fun x => (ToInt16 (scale (clamp x)) mod 256)%Z)
               (fun x => ((ToInt16 (scale (clamp x)) / 256) mod 256)%Z)).
    destruct (l !! i) as [x|]; simpl in *; [|discriminate].
    injection Hy as <-. rewrite int16_bytes by apply ToInt16_range. reflexivity.
Qed.

Section Quantization.
(** One finite sample [x], its clamped value [s] and what comes back, [y]. *)
Variable x : Q.
Let s : Q := Qmax (-1) (Qmin 1 x).
Let y : Q := dequantize (quantize (Fin x)).

Lemma clamp_range : (-1 <= s <= 1)%Q.
Proof.
  unfold s. split.
  - apply Q.le_max_l.
  - apply Q.max_lub; [lra | apply Q.le_min_l].
Qed.

Lemma quantize_neg : (s < 0)%Q -> quantize (Fin x) = Qceiling (s * 32768).
Proof.
  intros Hs. unfold quantize, clamp, scale. fold s.
  destruct (Qlt_le_dec s 0) as [_|Hge]; [|lra].
  unfold ToInt16. rewrite Qtrunc_nonpos by lra.
  apply wrap16_id. pose proof clamp_range as [Hlo _].
  apply Qceiling_between; unfold inject_Z; lra.
Qed.

Lemma quantize_nonneg : (0 <= s)%Q -> quantize (Fin x) = Qfloor (s * 32767).
Proof.
  intros Hs. unfold quantize, clamp, scale. fold s.
  destruct (Qlt_le_dec s 0) as [Hlt|_]; [lra|].
  unfold ToInt16. rewrite Qtrunc_nonneg by lra.
  apply wrap16_id. pose proof clamp_range as [_ Hhi].
  apply Qfloor_between; unfold inject_Z; lra.
Qed.

(** A negative sample comes back at most one step above itself; a
    non-negative one less than two steps below. *)
Lemma roundtrip_error :
  ((s < 0 -> s <= y /\ y < s + (1 # 32768))
   /\ (0 <= s -> y <= s /\ s < y + (2 # 32768)))%Q.
Proof.
  pose proof clamp_range as [Hlo Hhi]. unfold y, dequantize. split; intros Hs.
  - rewrite quantize_neg by exact Hs.
    pose proof (Qle_ceiling (s * 32768)) as Hcl.
    pose proof (Qceiling_lt (s * 32768)) as Hcu.
    rewrite inject_Z_pred in Hcu.
    set (c := inject_Z (Qceiling (s * 32768))) in *.
    split.
    + apply Qle_shift_div_l; [reflexivity | lra].
    + apply Qlt_shift_div_r; [reflexivity | lra].
  - rewrite quantize_nonneg by exact Hs.
    pose proof (Qfloor_le (s * 32767)) as Hfl.
    pose proof (Qlt_floor (s * 32767)) as Hfu.
    rewrite inject_Z_succ in Hfu.
    set (c := inject_Z (Qfloor (s * 32767))) in *.
    split.
    + apply Qle_shift_div_r; [reflexivity | lra].
    + assert (s - (2 # 32768) < c / 32768)%Q as Hc; [|lra].
      apply Qlt_shift_div_l; [reflexivity | lra].
Qed.

Lemma clamp_of_zero : (x == 0)%Q -> (s == 0)%Q.
Proof.
  intros Hx. unfold s. rewrite Q.min_r by lra. rewrite Q.max_r by lra. exact Hx.
Qed.

Lemma clamp_of_high : (1 <= x)%Q -> (s == 1)%Q.
Proof.
  intros Hx. unfold s. rewrite Q.min_l by lra. rewrite Q.max_r by lra. reflexivity.
Qed.

Lemma clamp_of_low : (x <= -1)%Q -> (s == -1)%Q.
Proof.
  intros Hx. unfold s. rewrite Q.min_r by lra. rewrite Q.max_l by lra. reflexivity.
Qed.

(** Silence, a sample clipped at [+1.0] and a sample clipped at [-1.0]. *)
Lemma dequantize_special :
  ((x == 0 -> y == 0) /\ (1 <= x -> y == 32767 # 32768) /\ (x <= -1 -> y == -1))%Q.
Proof.
  unfold y, dequantize. repeat split; intros Hx.
  - pose proof (clamp_of_zero Hx) as Hs.
    rewrite quantize_nonneg by lra.
    rewrite (Qfloor_comp _ (inject_Z 0)) by (rewrite Hs; reflexivity).
    rewrite Qfloor_Z. reflexivity.
  - pose proof (clamp_of_high Hx) as Hs.
    rewrite quantize_nonneg by lra.
    rewrite (Qfloor_comp _ (inject_Z 32767)) by (rewrite Hs; reflexivity).
    rewrite Qfloor_Z. reflexivity.
  - pose proof (clamp_of_low Hx) as Hs.
    rewrite quantize_neg by lra.
    rewrite (Qceiling_comp _ (inject_Z (-32768))) by (rewrite Hs; reflexivity).
    rewrite Qceiling_Z. reflexivity.
Qed.

(** The error bounds of one sample, as absolute values. *)
Lemma roundtrip_error_abs :
  (Qabs (s - y) < 2 # 32768)%Q
  /\ (s < 0 -> Qabs (s - y) < 1 # 32768)%Q
  /\ (x == 0 \/ 1 <= x \/ x <= -1 -> Qabs (s - y) <= 1 # 32768)%Q.
Proof.
  destruct roundtrip_error as [Hneg Hpos].
  destruct dequantize_special as (H0 & H1 & Hm1).
  split; [|split].
  - apply Qabs_Qlt_condition. destruct (Qlt_le_dec s 0) as [Hs|Hs].
    + destruct (Hneg Hs). split; lra.
    + destruct (Hpos Hs). split; lra.
  - intros Hs. apply Qabs_Qlt_condition. destruct (Hneg Hs). split; lra.
  - intros [Hx|[Hx|Hx]]; apply Qabs_Qle_condition.
    + specialize (H0 Hx). pose proof (clamp_of_zero Hx). split; lra.
    + specialize (H1 Hx). pose proof (clamp_of_high Hx). split; lra.
    + specialize (Hm1 Hx). pose proof (clamp_of_low Hx). split; lra.
Qed.
End Quantization.

(** C6, as amended.  Encoding any sample array with [floatTo16BitPCM] and
    decoding the bytes with the loop of [playAudio] succeeds, keeps the
    length, and returns for every finite sample [x] a value [y] that differs
    from the clamped sample [s = max(-1, min(1, x))] by less than two
    quantization steps ([2/32768]); by less than one step when [s] is
    negative; and by at most one step for the all-zero, +1.0-clipped and
    -1.0-clipped inputs, where [y] is exactly [0], [32767/32768] and [-1]. *)
Theorem pcm_roundtrip_error (float32Array : list sample) :
  exists decoded,
    pcm16ToFloat (floatTo16BitPCM float32Array) = Some decoded /\
    length decoded = length float32Array /\
    forall i x, float32Array !! i = Some (Fin x) ->
      exists y, decoded !! i = Some (Fin y) /\
        let s := Qmax (-1) (Qmin 1 x) in
        (Qabs (s - y) < 2 # 32768)%Q /\
        (s < 0 -> Qabs (s - y) < 1 # 32768)%Q /\
        (x == 0 \/ 1 <= x \/ x <= -1 -> Qabs (s - y) <= 1 # 32768)%Q /\
        (x == 0 -> y == 0)%Q /\
        (1 <= x -> y == 32767 # 32768)%Q /\
        (x <= -1 -> y == -1)%Q.
Proof.
  exists (map (fun x => Fin (dequantize (quantize x))) float32Array).
  split; [apply pcm_roundtrip|]. split; [apply length_map|].
  intros i x Hx. exists (dequantize (quantize (Fin x))).
  split; [rewrite list_lookup_fmap, Hx; reflexivity|].
  intros s.
  destruct (roundtrip_error_abs x) as (Htwo & Hone & Hspecial).
  destruct (dequantize_special x) as (H0 & H1 & Hm1).
  repeat split; assumption.
Qed.

(** The theorem at the three inputs named by the specification: the sample
    at index 1, which is [+1.0], decodes to [32767/32768]. *)
Lemma pcm_roundtrip_error_witness :
  exists decoded y,
    pcm16ToFloat (floatTo16BitPCM [Fin 0; Fin 1; Fin (-1)]) = Some decoded
    /\ decoded !! 1%nat = Some (Fin y)
    /\ (y == 32767 # 32768)%Q.
Proof.
  destruct (pcm_roundtrip_error [Fin 0; Fin 1; Fin (-1)]) as (decoded & H & _ & Hall).
  destruct (Hall 1%nat 1%Q eq_refl) as (y & Hy & _ & _ & _ & _ & H1 & _).
  exists decoded, y. repeat split; try assumption. apply H1. lra.
Defined.

(** C6, as stated, fails: the in-range sample [65535/65536] comes back as
    [32766/32768], one and a half quantization steps away. *)
Lemma pcm_roundtrip_one_step_counterexample :
  pcm16ToFloat (floatTo16BitPCM [Fin (65535 # 65536)]) = Some [Fin (32766 # 32768)]
  /\ (1 # 32768 < Qabs ((65535 # 65536) - (32766 # 32768)))%Q.
Proof. split; reflexivity. Qed.

(** ** The capture resampler *)


Section Decimation.
(** A ratio of at least one: the source is at or above the target rate. *)
Variable ratio : Q.
Hypothesis ratio_ge_1 : (1 <= ratio)%Q.
Variables inputLength i : nat.
Hypothesis i_in_output : (Z.of_nat i < resample_length ratio inputLength)%Z.

Let a : Q := inject_Z (Z.of_nat i).
Let l : Q := inject_Z (Z.of_nat inputLength).
Let w : Q := (l / ratio)%Q.






End Decimation.











(** Below the target rate the bound is not available: from 12 kHz the last
    read of a four-sample frame is at index 4. *)
Example resample_below_target_reads_past_end :
  resample_index (resample_ratio 12000) 7 = 4%Z
  /\ (7 < resample_length (resample_ratio 12000) 4)%Z
  /\ last (resample 12000 [Fin 1; Fin 2; Fin 3; Fin 4]) = Some NaN.
Proof. repeat split. Qed.

(** ** The dialogue state machine *)

(** A value with a string under [action] is an object, so reading
    [data.action] does not throw. *)
Lemma get_str_not_nullish k v (lit : string) : get k v = JStr lit -> nullish v = false.
Proof. destruct v; simpl; congruence. Qed.

(** Dispatch on a known action or message type: every comparison with
    another literal computes to [false]. *)
Ltac dispatch H :=
  rewrite ?(get_str_not_nullish _ _ _ H); rewrite H; cbn [is_str String.eqb Ascii.eqb Bool.eqb].

Lemma handleContextUpdate_start_quiz env data s :
  get "action" data = JStr "start_quiz" ->
  handleContextUpdate env data s =
  (s <| currentContext ::= fun prev =>
          prev <| mode := "quiz" |>
               <| quiz := get "quiz" data |>
               <| quizQuestions := js_or (get "questions" data) (JArr []) |>
               <| currentQuestionIndex := JNum 0 |>
               <| quizAnswers := ∅ |> |>
     <| displayContent :=
          JObj [("type", JStr "quiz"); ("quiz", get "quiz" data);
                ("questions", get "questions" data);
                ("currentIndex", JNum 0)] |>,
   Normal).
Proof. intros H. unfold handleContextUpdate. dispatch H. reflexivity. Qed.

Lemma handleContextUpdate_pending_answer env data s :
  get "action" data = JStr "pending_answer" ->
  handleContextUpdate env data s =
  (s <| currentContext ::= fun prev =>
          prev <| pendingConfirmation :=
                    JObj [("type", JStr "quiz_answer");
                          ("questionIndex", get "questionIndex" data);
                          ("answer", get "answer" data);
                          ("answerText", get "answerText" data)] |> |>,
   Normal).
Proof. intros H. unfold handleContextUpdate. dispatch H. reflexivity. Qed.

Lemma handleContextUpdate_answer_confirmed env data s :
  get "action" data = JStr "answer_confirmed" ->
  handleContextUpdate env data s =
  (s <| currentContext ::= fun prev =>
          prev <| quizAnswers :=
                    <[toString (get "questionIndex" data) := get "answer" data]>
                      (quizAnswers prev) |>
               <| pendingConfirmation := JNull |> |>
     <| displayContent ::= fun prev =>
          if is_str (get_opt "type" prev) "quiz" then prev else prev |>,
   Normal).
Proof. intros H. unfold handleContextUpdate. dispatch H. reflexivity. Qed.

Lemma handleContextUpdate_answer_cancelled env data s :
  get "action" data = JStr "answer_cancelled" ->
  handleContextUpdate env data s =
  (s <| currentContext ::= fun prev => prev <| pendingConfirmation := JNull |> |>,
   Normal).
Proof. intros H. unfold handleContextUpdate. dispatch H. reflexivity. Qed.

(** C5.  From any state, [start_quiz], [pending_answer(0, "B")] and then
    [answer_cancelled] leave no answers and no pending confirmation;
    ending with [answer_confirmed(0, "B")] instead leaves exactly the answer
    ["B"] under key [0] and no pending confirmation; and [answer_cancelled]
    never changes the answers. *)
Theorem quiz_answer_confirm_or_cancel
    (env : Env) (s : State) (startQuiz pendingAnswer cancelled confirmed : json) :
  get "action" startQuiz = JStr "start_quiz" ->
  get "action" pendingAnswer = JStr "pending_answer" ->
  get "questionIndex" pendingAnswer = JNum 0 ->
  get "answer" pendingAnswer = JStr "B" ->
  get "action" cancelled = JStr "answer_cancelled" ->
  get "action" confirmed = JStr "answer_confirmed" ->
  get "questionIndex" confirmed = JNum 0 ->
  get "answer" confirmed = JStr "B" ->
  let apply data st := fst (handleContextUpdate env data st) in
  let asked := apply pendingAnswer (apply startQuiz s) in
  (quizAnswers (currentContext (apply cancelled asked)) = ∅
   /\ pendingConfirmation (currentContext (apply cancelled asked)) = JNull)
  /\ (quizAnswers (currentContext (apply confirmed asked)) = {[ "0" := JStr "B" ]}
      /\ pendingConfirmation (currentContext (apply confirmed asked)) = JNull)
  /\ (forall st, quizAnswers (currentContext (apply cancelled st))
                 = quizAnswers (currentContext st)).
Proof.
  intros Hq Hp Hpi Hpa Hc Hk Hki Hka apply asked. unfold asked, apply.
  rewrite (handleContextUpdate_start_quiz _ _ _ Hq).
  rewrite (handleContextUpdate_pending_answer _ _ _ Hp).
  rewrite (handleContextUpdate_answer_cancelled _ _ _ Hc).
  rewrite (handleContextUpdate_answer_confirmed _ _ _ Hk).
  rewrite Hki, Hka. repeat split.
  intros st. rewrite (handleContextUpdate_answer_cancelled _ _ _ Hc). reflexivity.
Qed.

Lemma quiz_answer_confirm_or_cancel_witness :
  let env := {| Date_now := 0; currentTime := 0; sampleRate := 48000;
                micGranted := true; user := JNull; VITE_API_URL := "http://localhost:8000";
                VITE_WS_URL := "ws://localhost:8000"; token := "t" |} in
  let apply data st := fst (handleContextUpdate env data st) in
  let asked :=
    apply (JObj [("action", JStr "pending_answer"); ("questionIndex", JNum 0);
                 ("answer", JStr "B"); ("answerText", JStr "Paris")])
      (apply (JObj [("action", JStr "start_quiz"); ("quiz", JObj [("id", JNum 7)]);
                    ("questions", JArr [JObj []; JObj []])])
         initialState) in
  quizAnswers (currentContext (apply (JObj [("action", JStr "answer_cancelled")]) asked)) = ∅
  /\ quizAnswers (currentContext
       (apply (JObj [("action", JStr "answer_confirmed"); ("questionIndex", JNum 0);
                     ("answer", JStr "B")]) asked))
     = {[ "0" := JStr "B" ]}.
Proof.
  intros env apply asked.
  destruct (quiz_answer_confirm_or_cancel env initialState
              (JObj [("action", JStr "start_quiz"); ("quiz", JObj [("id", JNum 7)]);
                     ("questions", JArr [JObj []; JObj []])])
              (JObj [("action", JStr "pending_answer"); ("questionIndex", JNum 0);
                     ("answer", JStr "B"); ("answerText", JStr "Paris")])
              (JObj [("action", JStr "answer_cancelled")])
              (JObj [("action", JStr "answer_confirmed"); ("questionIndex", JNum 0);
                     ("answer", JStr "B")])
              eq_refl eq_refl eq_refl eq_refl eq_refl eq_refl eq_refl eq_refl)
    as ((Hc & _) & (Hk & _) & _).
  split; [exact Hc | exact Hk].
Defined.

(** ** Interruption *)

(** C4.  [interruptAudio] calls [stop] on every handle of the active set
    (all [N] of them, none left to finish on its own), empties the active set
    and the queue of unplayed chunks, puts the scheduling cursor back to [0]
    and, on an open socket, sends the frame [{"type": "response.cancel"}];
    on a closed one it sends nothing.  With nothing in flight it stops nothing and leaves the
    active set, the queue and the cursor as they were, and interrupting twice
    leaves them as interrupting once does. *)
Theorem interruptAudio_stops_everything (s : State) :
  let s' := interruptAudio s in
  playback_idle s'
  /\ stopped s' = stopped s ++ map source_id (activeAudioSourcesRef s)
  /\ (forall src, src ∈ activeAudioSourcesRef s -> source_id src ∈ stopped s')
  /\ length (stopped s') = (length (stopped s) + length (activeAudioSourcesRef s))%nat
  /\ sent s' = (if ws_open s
                then sent s ++ [JObj [("type", JStr "response.cancel")]]
                else sent s)
  /\ (playback_idle s ->
      activeAudioSourcesRef s' = activeAudioSourcesRef s
      /\ audioQueueRef s' = audioQueueRef s
      /\ audioPlaybackTimeRef s' = audioPlaybackTimeRef s
      /\ stopped s' = stopped s)
  /\ (playback_idle (interruptAudio s')
      /\ stopped (interruptAudio s') = stopped s').
Proof.
  assert (forall t, playback_idle (interruptAudio t)
                    /\ stopped (interruptAudio t)
                       = stopped t ++ map source_id (activeAudioSourcesRef t)
                    /\ sent (interruptAudio t)
                       = (if ws_open t then sent t ++ [response_cancel] else sent t))
    as Hgen.
  { intros t. unfold interruptAudio.
    change (ws_open _) with (ws_open t).
    destruct (ws_open t); repeat split. }
  intros s'. destruct (Hgen s) as (Hidle & Hstop & Hsent). fold s' in Hidle, Hstop, Hsent.
  split; [exact Hidle|]. split; [exact Hstop|]. split; [|split; [|split; [|split]]].
  - intros src Hsrc. rewrite Hstop. apply elem_of_app. right.
    apply list_elem_of_fmap. exists src. split; [reflexivity | exact Hsrc].
  - rewrite Hstop, length_app, length_map. reflexivity.
  - exact Hsent.
  - intros (Ha & Hq & Hc). destruct Hidle as (Ha' & Hq' & Hc').
    rewrite Ha', Hq', Hc', Hstop, Ha, Hq, Hc. cbn. rewrite app_nil_r. repeat split.
  - destruct (Hgen s') as (Hi & Hs & _). split; [exact Hi|].
    rewrite Hs. destruct Hidle as (Ha' & _). rewrite Ha'. cbn. apply app_nil_r.
Qed.

(** Three handles in flight on an open socket: all three are stopped, one
    [response.cancel] goes out, and an idle state stays idle. *)
Lemma interruptAudio_stops_everything_witness :
  let src n t := {| source_id := n; buffer := [Fin 0; Fin 0]; startTime := t |} in
  let busy :=
    initialState
      <| wsRef := Some {| ws_url := "ws://localhost:8000/voice/realtime/t";
                          readyState := OPEN; onmessage_aiTranscript := "" |} |>
      <| activeAudioSourcesRef := [src 0%nat 1%Q; src 1%nat 2%Q; src 2%nat 3%Q] |>
      <| audioQueueRef := ["AAAA"] |>
      <| audioPlaybackTimeRef := 4%Q |> in
  stopped (interruptAudio busy) = [0; 1; 2]%nat
  /\ sent (interruptAudio busy) = [JObj [("type", JStr "response.cancel")]]
  /\ stopped (interruptAudio initialState) = stopped initialState.
Proof.
  intros src busy.
  destruct (interruptAudio_stops_everything busy) as (_ & Hs & _ & _ & Hc & _).
  destruct (interruptAudio_stops_everything initialState) as (_ & _ & _ & _ & _ & Hidle & _).
  split; [exact Hs|]. split; [exact Hc|].
  apply Hidle. repeat split.
Defined.

(** ** End of the narration *)

(** C8, as amended.  The three callbacks of the narration element clear
    the pending URL (state and ref), the paused flag, the playing flag and
    the element.  On completion one [system] message is appended to the
    log, inviting the user to resume voice interaction; on the element's
    [error] event one [error] message, saying that the lesson audio failed
    to play; and when [play()] is rejected, nothing is appended. *)
Theorem narration_end_clears_handoff (env : Env) (s : State) :
  let ended := lessonAudio_onended env s in
  let failed := lessonAudio_onerror env s in
  let rejected := lessonAudio_play_rejected s in
  (pendingLessonAudio ended = None /\ pendingLessonAudioRef ended = None
   /\ aiPaused ended = false /\ lessonAudioPlaying ended = false
   /\ lessonAudioRef ended = None
   /\ messages ended =
        messages s ++
        [{| msg_id := Date_now env; role := "system";
            content := "‚úÖ Lesson audio finished. Press Space to resume voice interaction.";
            timestamp := Date_now env |}])
  /\ (pendingLessonAudio failed = None /\ pendingLessonAudioRef failed = None
      /\ aiPaused failed = false /\ lessonAudioPlaying failed = false
      /\ lessonAudioRef failed = None
      /\ messages failed =
           messages s ++
           [{| msg_id := Date_now env; role := "error";
               content := "Failed to play lesson audio.";
               timestamp := Date_now env |}])
  /\ (pendingLessonAudio rejected = None /\ pendingLessonAudioRef rejected = None
      /\ aiPaused rejected = false /\ lessonAudioPlaying rejected = false
      /\ lessonAudioRef rejected = None
      /\ messages rejected = messages s).
Proof. repeat split. Qed.

(** C8, as stated, fails on both error paths.  After the element's [error]
    event with a narration pending, the message appended to the log has
    role [error] and does not invite the user to resume; and after a
    rejected [play()] the log has no new message at all. *)
Lemma narration_error_message_counterexample :
  let env := {| Date_now := 0; currentTime := 0; sampleRate := 48000;
                micGranted := true; user := JNull; VITE_API_URL := "http://localhost:8000";
                VITE_WS_URL := "ws://localhost:8000"; token := "t" |} in
  let pending :=
    initialState
      <| pendingLessonAudio := Some "http://localhost:8000/audio/1.mp3" |>
      <| pendingLessonAudioRef := Some "http://localhost:8000/audio/1.mp3" |>
      <| aiPaused := true |>
      <| lessonAudioPlaying := true |>
      <| lessonAudioRef := Some "http://localhost:8000/audio/1.mp3" |> in
  (messages (lessonAudio_onerror env pending)
   = [{| msg_id := 0; role := "error"; content := "Failed to play lesson audio.";
         timestamp := 0 |}]
   /\ ~ (exists m, last (messages (lessonAudio_onerror env pending)) = Some m
                   /\ role m = "system"))
  /\ messages (lessonAudio_play_rejected pending) = [].
Proof.
  intros env pending. split; [split; [reflexivity|] | reflexivity].
  intros (m & Hm & Hr). cbn in Hm. injection Hm as <-. discriminate Hr.
Qed.

(** ** Unknown and malformed inbound messages *)






(** ** The playback schedule *)

Lemma duration_nonneg b : (0 <= duration b)%Q.
Proof.
  unfold duration. apply round_double_ge; [apply is_double_0|].
  apply Qle_shift_div_l; [reflexivity|].
  assert (inject_Z 0 <= inject_Z (Z.of_nat (length b)))%Q as H
    by (rewrite <- Zle_Qle; lia).
  unfold inject_Z at 1 in H. lra.
Qed.

Lemma is_double_eq x y : (x == y)%Q -> is_double x -> is_double y.
Proof. unfold is_double. intros E H. rewrite <- E. exact H. Qed.

Lemma is_double_max x y : is_double x -> is_double y -> is_double (Qmax x y).
Proof.
  intros Hx Hy. destruct (Q.max_spec x y) as [[_ E]|[_ E]];
    eapply is_double_eq; [symmetry; exact E | exact Hy | symmetry; exact E | exact Hx].
Qed.

(** A source that starts at a double leaves the cursor at or after its
    start. *)
Lemma start_le_cursor_after a :
  is_double (startTime a) -> (startTime a <= cursor_after a)%Q.
Proof.
  intros H. unfold cursor_after. apply round_double_ge; [exact H|].
  pose proof (duration_nonneg (buffer a)). lra.
Qed.

Lemma gapless_nil : gapless [].
Proof. intros n a b H. rewrite lookup_nil in H. discriminate. Qed.

Lemma gapless_singleton a : gapless [a].
Proof. intros n x y _ H. destruct n; discriminate. Qed.

Create HintDb schedule.
#[local] Hint Resolve gapless_nil gapless_singleton Qle_refl : schedule.

Lemma gapless_app l1 l2 :
  gapless l1 -> gapless l2 ->
  (forall a b, last l1 = Some a -> head l2 = Some b ->
               is_double (startTime a) /\ (cursor_after a <= startTime b)%Q) ->
  gapless (l1 ++ l2).
Proof.
  intros H1 H2 Hlink n a b Ha Hb.
  destruct (Nat.lt_ge_cases (S n) (length l1)) as [Hlt|Hge].
  - rewrite lookup_app_l in Ha by lia. rewrite lookup_app_l in Hb by lia.
    exact (H1 n a b Ha Hb).
  - destruct (Nat.eq_dec (S n) (length l1)) as [Heq|Hne].
    + rewrite lookup_app_l in Ha by lia.
      rewrite lookup_app_r in Hb by lia.
      replace (S n - length l1)%nat with 0%nat in Hb by lia.
      assert (last l1 = Some a) as Hl.
      { rewrite last_lookup. rewrite <- Heq. exact Ha. }
      assert (head l2 = Some b) as Hh by (rewrite head_lookup; exact Hb).
      destruct (Hlink a b Hl Hh) as [Hd Hle].
      pose proof (start_le_cursor_after a Hd). split; lra.
    + rewrite lookup_app_r in Ha by lia. rewrite lookup_app_r in Hb by lia.
      replace (S n - length l1)%nat with (S (n - length l1)) in Hb by lia.
      exact (H2 _ a b Ha Hb).
Qed.

Lemma schedule_extends_same s s' :
  is_double (audioPlaybackTimeRef s) ->
  started s' = started s -> audioPlaybackTimeRef s' = audioPlaybackTimeRef s ->
  schedule_extends s s' [].
Proof.
  intros Hd Hs Hc. unfold schedule_extends. rewrite Hs, Hc, app_nil_r.
  repeat apply conj; auto with schedule.
Qed.

Lemma schedule_extends_double s s' new :
  schedule_extends s s' new -> is_double (audioPlaybackTimeRef s').
Proof. intros (_ & _ & _ & H & _). exact H. Qed.

Lemma schedule_extends_trans s s1 s2 n0 n1 :
  schedule_extends s s1 n0 -> schedule_extends s1 s2 n1 ->
  schedule_extends s s2 (n0 ++ n1).
Proof.
  intros (Hs0 & Hg0 & Hc0 & Hd0 & Hf0) (Hs1 & Hg1 & Hc1 & Hd1 & Hf1).
  unfold schedule_extends. split; [|split; [|split; [|split]]].
  - rewrite Hs1, Hs0, app_assoc. reflexivity.
  - apply gapless_app; [exact Hg0 | exact Hg1 |].
    intros a b Ha Hb.
    apply last_Some_elem_of in Ha. apply head_Some_elem_of in Hb.
    rewrite Forall_forall in Hf0, Hf1.
    destruct (Hf0 a Ha) as (_ & Hda & _ & Hea). destruct (Hf1 b Hb) as [Hsb _].
    split; [exact Hda | lra].
  - lra.
  - exact Hd1.
  - apply Forall_app. split.
    + eapply Forall_impl; [exact Hf0|]. cbv beta. intros a (? & ? & ? & ?).
      repeat split; try assumption; lra.
    + eapply Forall_impl; [exact Hf1|]. cbv beta. intros a (? & ? & ? & ?).
      repeat split; try assumption; lra.
Qed.

(** What [playAudio] does to the schedule: nothing when the chunk does not
    decode to a non-empty buffer, and otherwise one more source. *)
Lemma playAudio_cases env base64Audio s :
  let s' := playAudio env base64Audio s in
  (started s' = started s /\ audioPlaybackTimeRef s' = audioPlaybackTimeRef s
   /\ activeAudioSourcesRef s' = activeAudioSourcesRef s
   /\ (forall samples, base64ToArrayBuffer base64Audio ≫= pcm16ToFloat = Some samples
                       -> samples = []))
  \/ (exists samples,
        base64ToArrayBuffer base64Audio ≫= pcm16ToFloat = Some samples
        /\ samples <> []
        /\ let src := {| source_id := length (started s); buffer := samples;
                         startTime := Qmax (currentTime env) (audioPlaybackTimeRef s) |} in
           started s' = started s ++ [src]
           /\ activeAudioSourcesRef s' = activeAudioSourcesRef s ++ [src]
           /\ audioPlaybackTimeRef s' = cursor_after src).
Proof.
  intros s'. unfold s', playAudio.
  destruct (base64ToArrayBuffer base64Audio ≫= pcm16ToFloat) as [samples|].
  - destruct samples as [|x samples].
    + left. cbn. repeat split. intros samples [= <-]. reflexivity.
    + right. exists (x :: samples). split; [reflexivity|]. split; [discriminate|].
      cbn. repeat split.
  - left. cbn. repeat split. intros samples H. discriminate H.
Qed.

Lemma playAudio_extends env base64Audio s :
  is_double (currentTime env) -> is_double (audioPlaybackTimeRef s) ->
  exists new, schedule_extends s (playAudio env base64Audio s) new.
Proof.
  intros Hclock Hcur.
  destruct (playAudio_cases env base64Audio s)
    as [(Hs & Hc & _)|(samples & _ & Hne & Hs & _ & Hc)].
  - exists []. apply schedule_extends_same; assumption.
  - cbv zeta in Hs, Hc. eexists. unfold schedule_extends. split; [exact Hs|].
    pose proof (Q.le_max_r (currentTime env) (audioPlaybackTimeRef s)) as Hm.
    pose proof (is_double_max _ _ Hclock Hcur) as Hstart.
    match type of Hc with _ = cursor_after ?a => set (src := a) in * end.
    pose proof (start_le_cursor_after src Hstart) as Hle.
    rewrite Hc.
    split; [auto with schedule|]. split; [exact (Qle_trans _ _ _ Hm Hle)|].
    split; [apply is_double_round|].
    constructor; [|constructor].
    repeat split; [exact Hm | exact Hstart | exact Hne | apply Qle_refl].
Qed.

Lemma fold_playAudio_extends env queue s :
  is_double (currentTime env) -> is_double (audioPlaybackTimeRef s) ->
  exists new,
    schedule_extends s (fold_left (fun st audioData => playAudio env audioData st) queue s) new.
Proof.
  intros Hclock. revert s. induction queue as [|c queue IH]; intros s Hcur.
  - exists []. apply schedule_extends_same; [exact Hcur | reflexivity | reflexivity].
  - cbn [fold_left]. destruct (playAudio_extends env c s Hclock Hcur) as [n0 H0].
    destruct (IH (playAudio env c s) (schedule_extends_double _ _ _ H0)) as [n1 H1].
    exists (n0 ++ n1). eapply schedule_extends_trans; eassumption.
Qed.

Lemma schedule_extends_from s0 s s' new :
  started s0 = started s -> audioPlaybackTimeRef s0 = audioPlaybackTimeRef s ->
  schedule_extends s0 s' new -> schedule_extends s s' new.
Proof. unfold schedule_extends. intros -> ->. tauto. Qed.

Lemma processAudioQueue_extends env s :
  is_double (currentTime env) -> is_double (audioPlaybackTimeRef s) ->
  exists new, schedule_extends s (processAudioQueue env s) new.
Proof.
  intros Hclock Hcur.
  unfold processAudioQueue. destruct (audioQueueRef s) as [|c queue] eqn:E.
  - exists []. apply schedule_extends_same; [exact Hcur | reflexivity | reflexivity].
  - pose proof (fold_playAudio_extends env (c :: queue)
                  (s <| isSpeaking := true |> <| audioQueueRef := [] |>) Hclock) as H.
    destruct (H Hcur) as [new Hn]. clear H. rename Hn into H.
    exists new. eapply schedule_extends_from; [| |exact H]; reflexivity.
Qed.

(** Case analysis on every test of a handler. *)
Ltac case_tests :=
  repeat match goal with
         | |- context [if ?c then _ else _] => destruct c
         | |- context [match ?c with _ => _ end] => destruct c
         end.

(** The dialogue controller, the turn-complete block, the toggle and the
    remaining handlers leave the schedule and its cursor alone. *)
Lemma handleContextUpdate_schedule env data s :
  started (fst (handleContextUpdate env data s)) = started s
  /\ audioPlaybackTimeRef (fst (handleContextUpdate env data s)) = audioPlaybackTimeRef s.
Proof. unfold handleContextUpdate. split; case_tests; reflexivity. Qed.

Lemma check_rate_limit_schedule env data s :
  started (fst (check_rate_limit env data s)) = started s
  /\ audioPlaybackTimeRef (fst (check_rate_limit env data s)) = audioPlaybackTimeRef s.
Proof. unfold check_rate_limit. split; case_tests; reflexivity. Qed.

Lemma on_response_done_schedule env data s :
  started (fst (on_response_done env data s)) = started s
  /\ audioPlaybackTimeRef (fst (on_response_done env data s)) = audioPlaybackTimeRef s.
Proof.
  unfold on_response_done.
  destruct (check_rate_limit_schedule env data (s <| isProcessing := false |>)) as [Hs Hc].
  destruct (check_rate_limit env data (s <| isProcessing := false |>)) as [s1 []];
    cbn [fst] in Hs, Hc; [|split; assumption].
  destruct (present (pendingLessonAudioRef s1)); split; assumption.
Qed.

Lemma toggleListening_with_schedule start env s :
  (forall t, started (start t) = started t
             /\ audioPlaybackTimeRef (start t) = audioPlaybackTimeRef t) ->
  started (toggleListening_with start env s) = started s
  /\ audioPlaybackTimeRef (toggleListening_with start env s) = audioPlaybackTimeRef s.
Proof.
  intros Hstart.
  unfold toggleListening_with, playPendingLessonAudio, resumeAI, stopLessonAudio,
    stopAudioCapture, connect, initAudioContext.
  split; case_tests;
    first [ reflexivity
          | rewrite (proj1 (Hstart _)); reflexivity
          | rewrite (proj2 (Hstart _)); reflexivity ].
Qed.

Lemma startAudioCapture_request_schedule s :
  started (startAudioCapture_request s) = started s
  /\ audioPlaybackTimeRef (startAudioCapture_request s) = audioPlaybackTimeRef s.
Proof. split; reflexivity. Qed.

Lemma getUserMedia_settled_schedule env s :
  started (getUserMedia_settled env s) = started s
  /\ audioPlaybackTimeRef (getUserMedia_settled env s) = audioPlaybackTimeRef s.
Proof. unfold getUserMedia_settled. split; case_tests; reflexivity. Qed.

Lemma startAudioCapture_schedule env s :
  started (startAudioCapture env s) = started s
  /\ audioPlaybackTimeRef (startAudioCapture env s) = audioPlaybackTimeRef s.
Proof.
  unfold startAudioCapture.
  destruct (getUserMedia_settled_schedule env (startAudioCapture_request s)) as [-> ->].
  split; reflexivity.
Qed.

Lemma toggleListening_schedule env s :
  started (toggleListening env s) = started s
  /\ audioPlaybackTimeRef (toggleListening env s) = audioPlaybackTimeRef s.
Proof. apply toggleListening_with_schedule, startAudioCapture_schedule. Qed.

Lemma handleMessage_try_with_schedule captured env data s :
  resets_cursor (Inbound (Some data)) = false ->
  is_double (currentTime env) -> is_double (audioPlaybackTimeRef s) ->
  exists new,
    schedule_extends s (fst (handleMessage_try_with captured env (Some data) s)) new.
Proof.
  intros H Hclock Hcur. unfold resets_cursor in H. apply orb_false_elim in H as [H1 H2].
  unfold handleMessage_try_with.
  destruct (nullish data);
    [exists []; apply schedule_extends_same; [exact Hcur | reflexivity | reflexivity]|].
  rewrite H1, H2.
  repeat match goal with
         | |- context [if is_str ?t ?lit then _ else _] => destruct (is_str t lit)
         end.
  all: try (exists []; apply schedule_extends_same; [exact Hcur | |];
            case_tests; reflexivity).
  - destruct (truthy (get "delta" data)).
    + pose proof (processAudioQueue_extends env
                    (s <| audioQueueRef ::= fun q => q ++ [toString (get "delta" data)] |>)
                    Hclock) as Hq.
      destruct (Hq Hcur) as [new Hn].
      exists new. eapply schedule_extends_from; [| |exact Hn]; reflexivity.
    + exists []. apply schedule_extends_same; [exact Hcur | reflexivity | reflexivity].
  - exists []. apply schedule_extends_same;
      [exact Hcur | apply on_response_done_schedule | apply on_response_done_schedule].
  - exists []. apply schedule_extends_same;
      [exact Hcur | apply handleContextUpdate_schedule | apply handleContextUpdate_schedule].
Qed.

Lemma step_schedule env e s :
  resets_cursor e = false ->
  is_double (currentTime env) -> is_double (audioPlaybackTimeRef s) ->
  exists new, schedule_extends s (step env e s) new.
Proof.
  intros H Hclock Hcur.
  assert (forall t, started t = started s ->
                    audioPlaybackTimeRef t = audioPlaybackTimeRef s ->
                    exists new, schedule_extends s t new) as Hsame.
  { intros t Hs Hc. exists []. apply schedule_extends_same; assumption. }
  destruct e as [| | | |code reason|[data|]| |frame|id| | | | | | |
                 |key tag| | |i|i|i code reason|i [data|]].
  6: { unfold step, handleMessage, handleMessage_try.
       destruct (handleMessage_try_with_schedule (captured_aiTranscript s) env data s
                   H Hclock Hcur) as [new Hn].
       exists new. destruct (handleMessage_try_with _ env (Some data) s). exact Hn. }
  7: { apply Hsame; apply toggleListening_schedule. }
  all: try (apply Hsame;
    unfold step, reconnect_onClick, connect, startAudioCapture,
      startAudioCapture_request, getUserMedia_settled, initAudioContext,
      set_readyState, ws_onerror, ws_onclose, socket_onclose, stopAudioCapture,
      onaudioprocess, source_onended, lessonAudio_onended, lessonAudio_onerror,
      lessonAudio_play_rejected, narration_cleared, countdown_tick, goToDashboard,
      set_replaced_readyState, handleMessage_of, handleMessage, handleMessage_try,
      handleMessage_try_with, ws_send, addMessage;
    case_tests; reflexivity).
  - apply Hsame; apply (toggleListening_with_schedule _ env s);
      apply startAudioCapture_request_schedule.
  - apply Hsame; unfold step, handleKeyDown, goToDashboard;
      case_tests; cbn; try reflexivity; apply toggleListening_schedule.
  - unfold step. destruct (replacedSockets s !! i) as [ws|]; [|apply Hsame; reflexivity].
    destruct (live ws); [|apply Hsame; reflexivity].
    unfold handleMessage_of.
    destruct (handleMessage_try_with_schedule (onmessage_aiTranscript ws) env data s
                H Hclock Hcur) as [new Hn].
    exists new. destruct (handleMessage_try_with _ env (Some data) s). exact Hn.
Qed.

Lemma run_schedule trace s :
  Forall (fun ee => resets_cursor (snd ee) = false) trace ->
  Forall (fun ee => is_double (currentTime (fst ee))) trace ->
  is_double (audioPlaybackTimeRef s) ->
  exists new, schedule_extends s (run trace s) new.
Proof.
  revert s. induction trace as [|[env e] trace IH]; intros s H Hclock Hcur.
  - exists []. apply schedule_extends_same; [exact Hcur | reflexivity | reflexivity].
  - apply Forall_cons in H as [He Ht]. cbn [snd] in He.
    apply Forall_cons in Hclock as [Hc Hcs]. cbn [fst] in Hc.
    destruct (step_schedule env e s He Hc Hcur) as [n0 H0].
    destruct (IH (step env e s) Ht Hcs (schedule_extends_double _ _ _ H0)) as [n1 H1].
    exists (n0 ++ n1). unfold run. cbn [fold_left]. eapply schedule_extends_trans; eassumption.
Qed.

(** The cursor left by a source falls short of the exact end of its buffer
    by at most the fraction [2^-51] of that end. *)
Lemma cursor_after_shortfall a :
  (0 <= startTime a)%Q -> buffer a <> [] ->
  let finish := (startTime a + inject_Z (Z.of_nat (length (buffer a))) / 24000)%Q in
  (finish - cursor_after a <= finish * 2 ^ (-51))%Q.
Proof.
  intros Hs Hne finish. unfold cursor_after, duration.
  set (D := (inject_Z (Z.of_nat (length (buffer a))) / 24000)%Q) in *.
  assert (1 # 24000 <= D)%Q as HD.
  { unfold D. apply Qle_shift_div_l; [reflexivity|].
    assert (inject_Z 1 <= inject_Z (Z.of_nat (length (buffer a))))%Q as H.
    { rewrite <- Zle_Qle. destruct (buffer a); [congruence | cbn; lia]. }
    unfold inject_Z at 1 in H.
    apply Qle_trans with 1%Q; [discriminate | exact H]. }
  assert (2 ^ (-1022) <= 1 # 24000)%Q as Hsmall by (vm_compute; discriminate).
  assert (0 < 2 ^ (-53))%Q as Hu by reflexivity.
  assert (2 ^ (-53) <= 1 # 2)%Q as Hu2 by (vm_compute; discriminate).
  assert (2 ^ (-51) == 4 * 2 ^ (-53))%Q as H51 by reflexivity.
  destruct (round_double_error D) as [Hd1 Hd2]; [lra|].
  set (d := round_double D) in *.
  assert (2 ^ (-1022) <= d)%Q as Hdn.
  { apply round_double_ge; [|lra].
    apply (is_double_mantissa 1 (-1022)); lia. }
  destruct (round_double_error (startTime a + d)) as [Hx1 _]; [lra|].
  set (c := round_double (startTime a + d)) in *.
  unfold finish. rewrite H51.
  set (u := (2 ^ (-53))%Q) in *. set (st := startTime a) in *.
  clearbody c d u st D. clear - Hs HD Hu Hu2 Hd1 Hd2 Hx1. nra.
Qed.

(** C3, as amended.  Each audio chunk that decodes to a non-empty buffer
    of [n] samples is scheduled to start at [max(currentTime, nextFree)],
    joins the active set, and moves [nextFree] to the double nearest to its
    start plus its duration, the duration being the double nearest to
    [n / 24000].  Hence over any run without a barge-in interruption and
    without a stream-done reset (whatever else arrives or happens in
    between), with clock readings that are doubles, the sources scheduled
    during the run, in scheduling order, never start before the cursor the
    run began with, start in non-decreasing order, and each starts no
    earlier than the cursor left by the one before it.  That cursor can be
    below the exact end of the buffer before, by rounding: the next source
    may start before that end, by at most the fraction [2^-51] of it. *)
Theorem playback_schedule_gapless :
  (forall env base64Audio s samples,
      base64ToArrayBuffer base64Audio ≫= pcm16ToFloat = Some samples ->
      samples <> [] ->
      let s' := playAudio env base64Audio s in
      exists src,
        started s' = started s ++ [src]
        /\ activeAudioSourcesRef s' = activeAudioSourcesRef s ++ [src]
        /\ buffer src = samples
        /\ startTime src = Qmax (currentTime env) (audioPlaybackTimeRef s)
        /\ audioPlaybackTimeRef s'
           = round_double
               (startTime src
                + round_double (inject_Z (Z.of_nat (length samples)) / 24000)))
  /\ (forall trace s,
        Forall (fun ee => resets_cursor (snd ee) = false) trace ->
        Forall (fun ee => is_double (currentTime (fst ee))) trace ->
        is_double (audioPlaybackTimeRef s) ->
        (0 <= audioPlaybackTimeRef s)%Q ->
        exists new,
          started (run trace s) = started s ++ new
          /\ Forall (fun a => (audioPlaybackTimeRef s <= startTime a)%Q) new
          /\ forall n a b, new !! n = Some a -> new !! S n = Some b ->
               let finish :=
                 (startTime a + inject_Z (Z.of_nat (length (buffer a))) / 24000)%Q in
               (startTime a <= startTime b)%Q
               /\ (round_double
                     (startTime a
                      + round_double (inject_Z (Z.of_nat (length (buffer a))) / 24000))
                   <= startTime b)%Q
               /\ (finish - startTime b <= finish * 2 ^ (-51))%Q).
Proof.
  split.
  - intros env base64Audio s samples Hd Hne s'.
    destruct (playAudio_cases env base64Audio s)
      as [(_ & _ & _ & Hnil)|(samples' & Hd' & _ & Hs & Ha & Hc)].
    + exfalso. apply Hne. apply Hnil. exact Hd.
    + assert (samples' = samples) as -> by congruence.
      eexists. split; [exact Hs|]. split; [exact Ha|]. split; [reflexivity|].
      split; [reflexivity | exact Hc].
  - intros trace s H Hclock Hcur Hpos.
    destruct (run_schedule trace s H Hclock Hcur) as (new & Hs & Hg & _ & _ & Hf).
    exists new. split; [exact Hs|]. split.
    + eapply Forall_impl; [exact Hf|]. cbv beta. intros a [? _]. assumption.
    + intros n a b Ha Hb finish. destruct (Hg n a b Ha Hb) as [He Hle].
      split; [exact Hle|]. split; [exact He|].
      rewrite Forall_forall in Hf.
      destruct (Hf a (list_elem_of_lookup_2 _ _ _ Ha)) as (Hsa & _ & Hne & _).
      pose proof (cursor_after_shortfall a (Qle_trans _ _ _ Hpos Hsa) Hne) as Hshort.
      cbv zeta in Hshort. fold finish in Hshort. lra.
Qed.

(** Two three-sample chunks arriving at audio time 1, the second after a
    transcript delta: the second source starts at the cursor left by the
    first, within [2^-51] of the end of the first buffer. *)
Lemma playback_schedule_gapless_witness :
  let trace :=
    [(example_env, Inbound (Some (audio_delta "AAAAAAAA")));
     (example_env, Inbound (Some (JObj [("type", JStr "response.audio_transcript.delta");
                                        ("delta", JStr "Hello")])));
     (example_env, Inbound (Some (audio_delta "AAAAAAAA")))] in
  exists a b,
    started (run trace initialState) = [a; b]
    /\ (round_double (startTime a + round_double (3 / 24000)) <= startTime b)%Q
    /\ (startTime a + 3 / 24000 - startTime b
        <= (startTime a + 3 / 24000) * 2 ^ (-51))%Q.
Proof.
  intros trace.
  destruct playback_schedule_gapless as [_ H].
  destruct (H trace initialState) as (new & Hs & _ & Hg).
  { repeat constructor. }
  { repeat constructor; vm_compute; reflexivity. }
  { vm_compute. reflexivity. }
  { discriminate. }
  assert (exists a b, started (run trace initialState) = [a; b]
                      /\ length (buffer a) = 3%nat) as (a & b & E & El)
    by (eexists; eexists; split; vm_compute; reflexivity).
  exists a, b. split; [exact E|].
  rewrite E in Hs. cbn in Hs. subst new.
  destruct (Hg 0%nat a b eq_refl eq_refl) as (_ & H1 & H2).
  rewrite El in H1, H2. split; [exact H1 | exact H2].
Defined.

(** C3, as stated, fails by a rounding error.  For the same two chunks,
    the cursor left by the first is the double below [1 + 3/24000], so the
    second source starts before the end of the first: before its start
    plus its duration as a double, and before its start plus the exact
    length of its buffer. *)
Lemma playback_schedule_exact_counterexample :
  let trace :=
    [(example_env, Inbound (Some (audio_delta "AAAAAAAA")));
     (example_env, Inbound (Some (audio_delta "AAAAAAAA")))] in
  exists a b,
    started (run trace initialState) = [a; b]
    /\ startTime a = 1%Q
    /\ length (buffer a) = 3%nat
    /\ (startTime b < startTime a + duration (buffer a))%Q
    /\ (startTime b < startTime a + 3 / 24000)%Q.
Proof.
  intros trace. eexists. eexists.
  split; [vm_compute; reflexivity|]. repeat split.
Qed.

(** ** The lesson-audio handoff *)

(** Case analysis that remembers the outcome of each test. *)
Ltac case_tests_eq :=
  repeat match goal with
         | |- context [if ?c then _ else _] => destruct c eqn:?
         | |- context [match ?c with _ => _ end] => destruct c eqn:?
         end.

Lemma playAudio_handoff env c s : handoff_view (playAudio env c s) = handoff_view s.
Proof. unfold playAudio. case_tests; reflexivity. Qed.

Lemma processAudioQueue_handoff env s :
  handoff_view (processAudioQueue env s) = handoff_view s.
Proof.
  unfold processAudioQueue. destruct (audioQueueRef s) as [|c queue]; [reflexivity|].
  change (handoff_view s)
    with (handoff_view (s <| isSpeaking := true |> <| audioQueueRef := [] |>)).
  generalize (s <| isSpeaking := true |> <| audioQueueRef := [] |>).
  generalize (c :: queue). clear. intros queue.
  induction queue as [|c queue IH]; intros st; [reflexivity|].
  cbn [fold_left]. rewrite IH. apply playAudio_handoff.
Qed.

Lemma interruptAudio_handoff s : handoff_view (interruptAudio s) = handoff_view s.
Proof. unfold interruptAudio, ws_send. case_tests; reflexivity. Qed.

Lemma check_rate_limit_handoff env data s :
  handoff_view (fst (check_rate_limit env data s)) = handoff_view s.
Proof. unfold check_rate_limit. case_tests; reflexivity. Qed.

Lemma on_response_done_handoff env data s :
  handoff_view (fst (on_response_done env data s)) = handoff_view s.
Proof.
  unfold on_response_done.
  pose proof (check_rate_limit_handoff env data (s <| isProcessing := false |>)) as H.
  destruct (check_rate_limit env data (s <| isProcessing := false |>)) as [s1 []];
    cbn [fst] in H; [|exact H].
  destruct (present (pendingLessonAudioRef s1)); exact H.
Qed.

Lemma present_of_truthy u : truthy (JStr u) = true -> present (Some u) = true.
Proof. intros H. exact H. Qed.

Lemma present_prefixed api u :
  truthy (JStr u) = true -> present (Some (api ++ u)%string) = true.
Proof.
  cbn. intros H. destruct api as [|a api]; [exact H | reflexivity].
Qed.

(** The controller either leaves the capture flags, the pending narration
    and the pending microphone requests alone, or (on [start_lesson] with
    narration) stores a non-empty URL in both slots and switches capture
    off. *)
Lemma handleContextUpdate_handoff env data s :
  let s' := fst (handleContextUpdate env data s) in
  handoff_view s' = handoff_view s
  \/ (present (pendingLessonAudio s') = true
      /\ present (pendingLessonAudioRef s') = true
      /\ isListeningRef s' = false
      /\ (isListening s = isListeningRef s -> isListening s' = false)
      /\ getUserMediaPending s' = getUserMediaPending s).
Proof.
  unfold handleContextUpdate.
  case_tests_eq; try (left; reflexivity).
  all: right;
    match goal with
    | E : _ && truthy (JStr _) = true |- _ => apply andb_prop in E as [_ E]
    end;
    split; [first [ apply present_prefixed; assumption | apply present_of_truthy; assumption ]|];
    split; [first [ apply present_prefixed; assumption | apply present_of_truthy; assumption ]|];
    split; [first [ reflexivity | assumption ]|];
    split; [|reflexivity];
    intros Hc; first [ reflexivity | etransitivity; [exact Hc | assumption] ].
Qed.

Lemma handleMessage_try_with_handoff captured env event_data s :
  let s' := fst (handleMessage_try_with captured env event_data s) in
  handoff_view s' = handoff_view s
  \/ (present (pendingLessonAudio s') = true
      /\ present (pendingLessonAudioRef s') = true
      /\ isListeningRef s' = false
      /\ (isListening s = isListeningRef s -> isListening s' = false)
      /\ getUserMediaPending s' = getUserMediaPending s).
Proof.
  unfold handleMessage_try_with.
  destruct event_data as [data|]; [|left; reflexivity].
  destruct (nullish data); [left; reflexivity|].
  repeat match goal with
         | |- context [if is_str ?t ?lit then _ else _] => destruct (is_str t lit)
         end.
  all: try (left; case_tests; reflexivity).
  - left. cbn [fst]. apply interruptAudio_handoff.
  - left. cbn [fst]. destruct (truthy (get "delta" data)); [|reflexivity].
    rewrite processAudioQueue_handoff. reflexivity.
  - left. apply on_response_done_handoff.
  - apply handleContextUpdate_handoff.
Qed.

Lemma handleMessage_try_handoff env event_data s :
  let s' := fst (handleMessage_try env event_data s) in
  handoff_view s' = handoff_view s
  \/ (present (pendingLessonAudio s') = true
      /\ present (pendingLessonAudioRef s') = true
      /\ isListeningRef s' = false
      /\ (isListening s = isListeningRef s -> isListening s' = false)
      /\ getUserMediaPending s' = getUserMediaPending s).
Proof. exact (handleMessage_try_with_handoff (captured_aiTranscript s) env event_data s). Qed.

Lemma handoff_held_view s s' :
  handoff_view s' = handoff_view s -> handoff_held s -> handoff_held s'.
Proof.
  unfold handoff_view, handoff_held, handoff_waiting.
  intros [= -> -> -> -> ->] H. exact H.
Qed.

Lemma handleMessage_try_with_held captured env event_data s :
  handoff_held s ->
  handoff_held (fst (handleMessage_try_with captured env event_data s)).
Proof.
  intros H. pose proof (handleMessage_try_with_handoff captured env event_data s) as Hh.
  cbv zeta in Hh. destruct Hh as [Hh|(P & R & L & K & G)].
  - exact (handoff_held_view _ _ Hh H).
  - destruct H as ((A & B & C & D) & Hp). unfold handoff_held, handoff_waiting.
    repeat split; try assumption; [apply K; congruence | congruence].
Qed.

(** While the page waits, an armed handoff stays armed. *)
Lemma passive_keeps_held env e s :
  passive e = true -> handoff_held s -> handoff_held (step env e s).
Proof.
  intros Hp H.
  destruct e as [| | | |code reason|event_data| |frame|id| | | | | | |
                 |key tag| | |i|i|i code reason|i event_data];
    try discriminate Hp.
  4: { unfold step, handleMessage, handleMessage_try.
       pose proof (handleMessage_try_with_held (captured_aiTranscript s) env event_data s H).
       destruct (handleMessage_try_with _ env event_data s). assumption. }
  11: { unfold step. destruct (replacedSockets s !! i) as [ws|]; [|exact H].
        destruct (live ws); [|exact H]. unfold handleMessage_of.
        pose proof (handleMessage_try_with_held (onmessage_aiTranscript ws) env
                      event_data s H).
        destruct (handleMessage_try_with _ env event_data s). assumption. }
  all: destruct H as ((A & B & C & D) & G);
    unfold handoff_held, handoff_waiting, step, set_readyState, ws_onerror, ws_onclose,
      socket_onclose, stopAudioCapture, onaudioprocess, source_onended, countdown_tick,
      getUserMedia_settled, set_replaced_readyState, ws_send;
    destruct s; cbn in *; subst; case_tests; cbn; repeat split; assumption.
Qed.

Lemma run_passive_keeps_held trace s :
  Forall (fun ee => passive (snd ee) = true) trace ->
  handoff_held s -> handoff_held (run trace s).
Proof.
  revert s. induction trace as [|[env e] trace IH]; intros s Hp H; [exact H|].
  apply Forall_cons in Hp as [He Ht]. unfold run. cbn [fold_left]. apply IH; [exact Ht|].
  apply passive_keeps_held; assumption.
Qed.

(** On every reachable state the [isListening] state and the
    [isListeningRef] ref agree. *)
Lemma getUserMedia_settled_consistent env s :
  isListening s = isListeningRef s ->
  isListening (getUserMedia_settled env s) = isListeningRef (getUserMedia_settled env s).
Proof. intros H. unfold getUserMedia_settled. case_tests; first [reflexivity | exact H]. Qed.

Lemma toggleListening_with_consistent start env s :
  (forall t, isListening t = isListeningRef t ->
             isListening (start t) = isListeningRef (start t)) ->
  isListening s = isListeningRef s ->
  isListening (toggleListening_with start env s)
  = isListeningRef (toggleListening_with start env s).
Proof.
  intros Hstart H. destruct s.
  unfold toggleListening_with, playPendingLessonAudio, resumeAI, stopLessonAudio,
    stopAudioCapture, connect, ws_send, addMessage.
  cbn in *. case_tests; try apply Hstart; cbn; first [reflexivity | exact H].
Qed.

Lemma toggleListening_consistent env s :
  isListening s = isListeningRef s ->
  isListening (toggleListening env s) = isListeningRef (toggleListening env s).
Proof.
  apply toggleListening_with_consistent. intros t Ht.
  unfold startAudioCapture. apply getUserMedia_settled_consistent. exact Ht.
Qed.

Lemma step_consistent env e s :
  isListening s = isListeningRef s ->
  isListening (step env e s) = isListeningRef (step env e s).
Proof.
  intros H.
  assert (forall captured event_data,
             isListening (fst (handleMessage_try_with captured env event_data s))
             = isListeningRef (fst (handleMessage_try_with captured env event_data s)))
    as Hin.
  { intros captured event_data.
    pose proof (handleMessage_try_with_handoff captured env event_data s) as Hh.
    cbv zeta in Hh. destruct Hh as [Hh|(_ & _ & L & K & _)].
    - unfold handoff_view in Hh. injection Hh as -> -> _ _ _. exact H.
    - rewrite L. apply K. exact H. }
  destruct e as [| | | |code reason|event_data| |frame|id| | | | | | |
                 |key tag| | |i|i|i code reason|i event_data].
  6: { unfold step, handleMessage, handleMessage_try.
       specialize (Hin (captured_aiTranscript s) event_data).
       destruct (handleMessage_try_with _ env event_data s). exact Hin. }
  6: { apply toggleListening_consistent. exact H. }
  all: try (unfold step, reconnect_onClick, connect, startAudioCapture,
      startAudioCapture_request, getUserMedia_settled, initAudioContext, set_readyState,
      ws_onerror, ws_onclose, socket_onclose, stopAudioCapture, onaudioprocess,
      source_onended, lessonAudio_onended, lessonAudio_onerror, lessonAudio_play_rejected,
      narration_cleared, countdown_tick, goToDashboard, set_replaced_readyState,
      ws_send, addMessage;
    destruct s; cbn in *; case_tests; first [reflexivity | exact H]).
  - apply toggleListening_with_consistent; [|exact H]. intros t Ht. exact Ht.
  - unfold step, handleKeyDown, goToDashboard. case_tests; cbn;
      first [ exact H | apply toggleListening_consistent; exact H ].
  - unfold step. destruct (replacedSockets s !! i) as [ws|]; [|exact H].
    destruct (live ws); [|exact H]. unfold handleMessage_of.
    specialize (Hin (onmessage_aiTranscript ws) event_data).
    destruct (handleMessage_try_with _ env event_data s). exact Hin.
Qed.

Lemma reachable_consistent s : reachable s -> isListening s = isListeningRef s.
Proof.
  induction 1 as [|env e s _ IH]; [reflexivity|]. apply step_consistent. exact IH.
Qed.

Lemma reachable_run trace s : reachable s -> reachable (run trace s).
Proof.
  revert s. induction trace as [|[env e] trace IH]; intros s H; [exact H|].
  unfold run. cbn [fold_left]. apply IH. constructor. exact H.
Qed.

Lemma handleMessage_try_context_update env frame s :
  get "type" frame = JStr "context_update" ->
  handleMessage_try env (Some frame) s = handleContextUpdate env (get "data" frame) s.
Proof.
  intros H. unfold handleMessage_try, handleMessage_try_with. dispatch H. reflexivity.
Qed.

Lemma handleMessage_try_response_done env frame s :
  get "type" frame = JStr "response.done" ->
  handleMessage_try env (Some frame) s = on_response_done env frame s.
Proof.
  intros H. unfold handleMessage_try, handleMessage_try_with. dispatch H. reflexivity.
Qed.

(** [start_lesson] with narration: the URL is stored and capture is off. *)
Lemma start_lesson_arms_handoff env data u s :
  isListening s = isListeningRef s ->
  get "action" data = JStr "start_lesson" ->
  truthy (get "has_audio" data) = true ->
  get_opt "audio_url" (get "lesson" data) = JStr u ->
  u <> "" ->
  let s' := fst (handleContextUpdate env data s) in
  handoff_waiting s'
  /\ pendingLessonAudio s'
     = Some (if String.prefix "http" u then u else (VITE_API_URL env ++ u)%string)
  /\ mode (currentContext s') = "lesson"
  /\ getUserMediaPending s' = getUserMediaPending s
  /\ snd (handleContextUpdate env data s) = Normal.
Proof.
  intros Hc Ha Hh Hu Hne s'. unfold s', handleContextUpdate. dispatch Ha.
  rewrite Hu, Hh.
  assert (truthy (JStr u) = true) as Ht.
  { cbn. destruct (String.eqb_spec u ""); [contradiction | reflexivity]. }
  rewrite Ht. cbn [andb].
  match goal with
  | |- context [if isListeningRef ?t then _ else _] =>
      change (isListeningRef t) with (isListeningRef s)
  end.
  unfold handoff_waiting.
  destruct (isListeningRef s) eqn:E; cbn [fst snd];
    (split; [|split; [reflexivity | split; [reflexivity | split; reflexivity]]]).
  - repeat split; destruct (String.prefix "http" u);
      first [ apply present_of_truthy; exact Ht | apply present_prefixed; exact Ht ].
  - split; [exact Hc|]. split; [exact E|].
    split; destruct (String.prefix "http" u);
      first [ apply present_of_truthy; exact Ht | apply present_prefixed; exact Ht ].
Qed.

(** The turn-complete signal on an armed handoff. *)
Lemma response_done_makes_ready env frame s :
  handoff_waiting s ->
  snd (on_response_done env frame s) = Normal ->
  let s' := fst (on_response_done env frame s) in
  readyToPlayLessonAudio s' = true /\ aiPaused s' = true /\ handoff_waiting s'.
Proof.
  intros (A & B & C & D) Hn s'. unfold s' in *. clear s'. revert Hn.
  unfold on_response_done.
  pose proof (check_rate_limit_handoff env frame (s <| isProcessing := false |>)) as H.
  destruct (check_rate_limit env frame (s <| isProcessing := false |>)) as [s1 []];
    cbn [fst] in H; [|discriminate].
  assert (handoff_view s1 = handoff_view s) as H' by exact H.
  unfold handoff_view in H'. injection H' as H1 H2 H3 H4 _.
  rewrite H4, D. intros _. cbn [fst]. unfold handoff_waiting.
  repeat split;
    first [ reflexivity
          | exact (eq_trans H1 A) | exact (eq_trans H2 B)
          | exact (eq_trans (f_equal present H3) C)
          | exact (eq_trans (f_equal present H4) D) ].
Qed.

(** A toggle on a ready handoff starts the narration, whichever way it is
    asked for. *)
Lemma toggle_starts_narration env e s :
  toggles e = true ->
  readyToPlayLessonAudio s = true ->
  present (pendingLessonAudio s) = true ->
  step env e s =
  (addMessage env "system" "üéß Playing lesson audio..."
     (s <| readyToPlayLessonAudio := false |> <| lessonAudioPlaying := true |>))
    <| lessonAudioRef := pendingLessonAudio s |>.
Proof.
  intros He Hr Hp.
  assert (forall start, toggleListening_with start env s
                        = (addMessage env "system" "üéß Playing lesson audio..."
                             (s <| readyToPlayLessonAudio := false |>
                                <| lessonAudioPlaying := true |>))
                            <| lessonAudioRef := pendingLessonAudio s |>) as Ht.
  { intros start. unfold toggleListening_with, playPendingLessonAudio.
    rewrite Hr, Hp. reflexivity. }
  destruct e; try discriminate He; unfold step.
  - apply Ht.
  - apply Ht.
  - unfold handleKeyDown. cbn [toggles] in He. rewrite He.
    apply andb_prop in He as [He _]. apply andb_prop in He as [He _].
    apply String.eqb_eq in He. subst code. cbn [String.eqb Ascii.eqb Bool.eqb].
    apply Ht.
Qed.

(** C2, as amended.  Take a reachable state with no microphone request
    pending and a [start_lesson] context update whose [has_audio] is
    truthy and whose [lesson.audio_url] is a non-empty string.  After it,
    capture is off (stopped, if it was on) and the URL is pending.
    Whatever the server and the browser send next (inbound frames on any
    socket, microphone frames, ended sources, socket events, countdown
    ticks; no action of the user, no automatic start of capture and no
    callback of the narration element), a [response.done] frame whose
    processing does not end in the caught exception sets
    [readyToPlayLessonAudio] and [aiPaused] and leaves capture off; and the
    next toggle, by the button or by the Space key, starts the narration
    of the pending URL, clears [readyToPlayLessonAudio], and does not start
    listening. *)
Theorem lesson_audio_handoff
    (s : State) (env1 : Env) (lessonFrame : json) (u : string)
    (between : list (Env * Event))
    (env2 : Env) (doneFrame : json) (env3 : Env) (toggle : Event) :
  reachable s ->
  getUserMediaPending s = 0%nat ->
  get "type" lessonFrame = JStr "context_update" ->
  get "action" (get "data" lessonFrame) = JStr "start_lesson" ->
  truthy (get "has_audio" (get "data" lessonFrame)) = true ->
  get_opt "audio_url" (get "lesson" (get "data" lessonFrame)) = JStr u ->
  u <> "" ->
  Forall (fun ee => passive (snd ee) = true) between ->
  get "type" doneFrame = JStr "response.done" ->
  toggles toggle = true ->
  let s1 := step env1 (Inbound (Some lessonFrame)) s in
  let s2 := run between s1 in
  snd (handleMessage_try env2 (Some doneFrame) s2) = Normal ->
  let s3 := step env2 (Inbound (Some doneFrame)) s2 in
  let s4 := step env3 toggle s3 in
  (capturing s1 = false
   /\ pendingLessonAudio s1
      = Some (if String.prefix "http" u then u else (VITE_API_URL env1 ++ u)%string)
   /\ readyToPlayLessonAudio s1 = readyToPlayLessonAudio s)
  /\ (readyToPlayLessonAudio s3 = true /\ aiPaused s3 = true
      /\ capturing s3 = false /\ present (pendingLessonAudio s3) = true)
  /\ (narrating s4 = true /\ lessonAudioRef s4 = pendingLessonAudio s3
      /\ readyToPlayLessonAudio s4 = false /\ capturing s4 = false).
Proof.
  intros Hreach Hpend Hty Hact Hhas Hurl Hne Hpassive Hdone Htoggle s1 s2 Hnormal s3 s4.
  pose proof (reachable_consistent s Hreach) as Hcons.
  destruct (start_lesson_arms_handoff env1 (get "data" lessonFrame) u s
              Hcons Hact Hhas Hurl Hne) as (Hw1 & Hp1 & _ & Hg1 & _).
  assert (s1 = fst (handleContextUpdate env1 (get "data" lessonFrame) s)) as E1.
  { unfold s1, step, handleMessage.
    rewrite (handleMessage_try_context_update _ _ _ Hty).
    destruct (handleContextUpdate env1 (get "data" lessonFrame) s). reflexivity. }
  rewrite <- E1 in Hw1, Hp1, Hg1.
  assert (readyToPlayLessonAudio s1 = readyToPlayLessonAudio s) as Hr1.
  { rewrite E1. unfold handleContextUpdate. case_tests; reflexivity. }
  assert (handoff_held s1) as Hh1 by (split; [exact Hw1 | congruence]).
  pose proof (run_passive_keeps_held between s1 Hpassive Hh1) as [Hw2 _]. fold s2 in Hw2.
  rewrite (handleMessage_try_response_done _ _ _ Hdone) in Hnormal.
  destruct (response_done_makes_ready env2 doneFrame s2 Hw2 Hnormal) as (Hr3 & Hpz & Hw3).
  assert (s3 = fst (on_response_done env2 doneFrame s2)) as E3.
  { unfold s3, step, handleMessage.
    rewrite (handleMessage_try_response_done _ _ _ Hdone).
    destruct (on_response_done env2 doneFrame s2). reflexivity. }
  rewrite <- E3 in Hr3, Hpz, Hw3.
  destruct Hw1 as (A1 & B1 & _ & _). destruct Hw3 as (A3 & B3 & C3 & _).
  assert (s4 = step env3 toggle s3) as E4 by reflexivity.
  rewrite (toggle_starts_narration env3 toggle s3 Htoggle Hr3 C3) in E4.
  split; [|split].
  - unfold capturing. rewrite A1, B1. repeat split; assumption.
  - unfold capturing. rewrite A3, B3. repeat split; assumption.
  - rewrite E4. unfold capturing, narrating.
    repeat split. cbn. change (isListening s3 || isListeningRef s3 = false).
    rewrite A3, B3. reflexivity.
Qed.

(** The page has connected and the user is speaking when the lesson
    arrives with a relative URL: capture is stopped.  The assistant's
    introduction streams in, a last microphone frame and a source that
    ends come by, the turn completes, and the Space key starts the
    narration. *)
Lemma lesson_audio_handoff_witness :
  let listening :=
    run [(example_env, Mount); (example_env, SocketOpened);
         (example_env, Inbound (Some session_created)); (example_env, Toggle)]
      initialState in
  let lessonFrame :=
    context_update
      (start_lesson (JBool true)
         (JObj [("id", JNum 3); ("audio_url", JStr "/media/lesson3.mp3")])) in
  let between :=
    [(example_env, Inbound (Some (audio_delta "AAAAAAAA")));
     (example_env, AudioFrame [Fin 0; Fin 0]);
     (example_env, Inbound (Some (JObj [("type", JStr "response.audio_transcript.done");
                                        ("transcript", JStr "Here is lesson three.")])));
     (example_env, SourceEnded 0)] in
  let s1 := step example_env (Inbound (Some lessonFrame)) listening in
  let s3 := step example_env (Inbound (Some response_done)) (run between s1) in
  let s4 := step example_env (KeyDown "Space" "BODY") s3 in
  capturing listening = true
  /\ capturing s1 = false
  /\ readyToPlayLessonAudio s3 = true
  /\ narrating s4 = true
  /\ lessonAudioRef s4 = Some "http://localhost:8000/media/lesson3.mp3"
  /\ capturing s4 = false.
Proof.
  intros listening lessonFrame between s1 s3 s4.
  destruct (lesson_audio_handoff listening example_env lessonFrame "/media/lesson3.mp3"
              between example_env response_done example_env (KeyDown "Space" "BODY"))
    as ((Hc1 & _) & (Hr & _) & (Hn & Hl & _ & Hc)).
  - apply reachable_run, reachable_init.
  - reflexivity.
  - reflexivity.
  - reflexivity.
  - reflexivity.
  - reflexivity.
  - discriminate.
  - repeat constructor.
  - reflexivity.
  - reflexivity.
  - reflexivity.
  - split; [reflexivity|]. split; [exact Hc1|]. split; [exact Hr|].
    split; [exact Hn|]. split; [|exact Hc].
    exact (eq_trans Hl eq_refl).
Defined.

(** C2, as stated, fails in three ways.  A [start_lesson] carrying
    [has_audio = true] for a lesson without an [audio_url] arms nothing: the
    turn-complete signal leaves [readyToPlayLessonAudio] false and the toggle
    starts listening.  With the narration armed, a [response.done] whose
    rate-limit error message is not a string ends in the caught exception
    before the handoff check, so [readyToPlayLessonAudio] stays false.  And
    when the user has pressed Space before the lesson arrives and the
    microphone permission is granted only after it, [start_lesson] finds
    nothing to stop and capture comes on afterwards without any further
    toggle: it is on at the turn-complete signal, and stays on when the
    next toggle starts the narration. *)
Lemma lesson_audio_handoff_counterexample :
  (let lessonFrame :=
     context_update (start_lesson (JBool true) (JObj [("id", JNum 3)])) in
   let s3 :=
     step example_env (Inbound (Some response_done))
       (step example_env (Inbound (Some lessonFrame)) initialState) in
   readyToPlayLessonAudio s3 = false
   /\ narrating (step example_env Toggle s3) = false
   /\ capturing (step example_env Toggle s3) = true)
  /\ (let lessonFrame :=
        context_update
          (start_lesson (JBool true)
             (JObj [("id", JNum 3); ("audio_url", JStr "/media/lesson3.mp3")])) in
      let doneFrame :=
        JObj [("type", JStr "response.done");
              ("response",
               JObj [("status", JStr "failed");
                     ("status_details",
                      JObj [("error",
                             JObj [("code", JStr "rate_limit_exceeded");
                                   ("message", JNum 42)])])])] in
      let s3 :=
        step example_env (Inbound (Some doneFrame))
          (step example_env (Inbound (Some lessonFrame)) initialState) in
      present (pendingLessonAudio s3) = true
      /\ readyToPlayLessonAudio s3 = false
      /\ capturing (step example_env Toggle s3) = true)
  /\ (let lessonFrame :=
        context_update
          (start_lesson (JBool true)
             (JObj [("id", JNum 3); ("audio_url", JStr "/media/lesson3.mp3")])) in
      let asked :=
        run [(example_env, Mount); (example_env, SocketOpened);
             (example_env, Inbound (Some session_created));
             (example_env, ToggleRequest)] initialState in
      let s1 := step example_env (Inbound (Some lessonFrame)) asked in
      let s2 := step example_env GetUserMediaSettled s1 in
      let s3 := step example_env (Inbound (Some response_done)) s2 in
      let s4 := step example_env Toggle s3 in
      getUserMediaPending asked = 1%nat
      /\ capturing asked = false /\ capturing s1 = false
      /\ capturing s2 = true
      /\ readyToPlayLessonAudio s3 = true /\ capturing s3 = true
      /\ narrating s4 = true /\ capturing s4 = true).
Proof. repeat split. Qed.

(** ** Capture during narration *)

Lemma reachable_from_init trace : reachable (run trace initialState).
Proof. apply reachable_run. apply reachable_init. Qed.

(** C1 does not hold of the code.  The page mounts and connects; a lesson
    with narration starts; the user toggles before the assistant's turn is
    over, which starts capture; the turn completes; the user toggles again,
    which starts the narration without stopping capture.  The state reached
    has both on, and the next microphone frame is sent upstream while the
    narration plays. *)
Theorem capture_and_narration_overlap :
  let lessonFrame :=
    context_update
      (start_lesson (JBool true)
         (JObj [("id", JNum 3); ("audio_url", JStr "/media/lesson3.mp3")])) in
  let trace :=
    [(example_env, Mount);
     (example_env, SocketOpened);
     (example_env, Inbound (Some session_created));
     (example_env, Inbound (Some lessonFrame));
     (example_env, Toggle);
     (example_env, Inbound (Some response_done));
     (example_env, Toggle)] in
  let s := run trace initialState in
  reachable s
  /\ isListening s = true /\ isListeningRef s = true /\ capturing s = true
  /\ lessonAudioPlaying s = true /\ narrating s = true
  /\ lessonAudioRef s = Some "http://localhost:8000/media/lesson3.mp3"
  /\ sent (step example_env (AudioFrame [Fin 0; Fin 0]) s)
     = sent s ++ [JObj [("type", JStr "input_audio_buffer.append");
                        ("audio", JStr "AAA=")]].
Proof.
  intros lessonFrame trace s. split; [apply reachable_from_init|].
  repeat split.
Qed.

(* ===================================================================== *)
(** * Part III. Further properties of the page                           *)
(* ===================================================================== *)

(** ** Shared steps *)

(** Playing the queue leaves alone whatever [playAudio] and the two flag
    updates leave alone. *)
Lemma processAudioQueue_frame {A} (view : State -> A) env s :
  (forall c st, view (playAudio env c st) = view st) ->
  (forall st, view (st <| isSpeaking := true |> <| audioQueueRef := [] |>) = view st) ->
  view (processAudioQueue env s) = view s.
Proof.
  intros Hplay Hflags. unfold processAudioQueue.
  destruct (audioQueueRef s) as [|c queue]; [reflexivity|].
  rewrite <- (Hflags s).
  generalize (s <| isSpeaking := true |> <| audioQueueRef := [] |>).
  generalize (c :: queue). clear -Hplay. intros queue.
  induction queue as [|c queue IH]; intros st; [reflexivity|].
  cbn [fold_left]. rewrite IH. apply Hplay.
Qed.

(** And it keeps whatever they keep. *)
Lemma processAudioQueue_invariant (P : State -> Prop) env s :
  (forall c st, P st -> P (playAudio env c st)) ->
  (forall st, P st -> P (st <| isSpeaking := true |> <| audioQueueRef := [] |>)) ->
  P s -> P (processAudioQueue env s).
Proof.
  intros Hplay Hflags H. unfold processAudioQueue.
  destruct (audioQueueRef s) as [|c queue]; [exact H|].
  apply Hflags in H. revert H.
  generalize (s <| isSpeaking := true |> <| audioQueueRef := [] |>).
  generalize (c :: queue). clear -Hplay. intros queue.
  induction queue as [|c queue IH]; intros st H; [exact H|].
  cbn [fold_left]. apply IH, Hplay, H.
Qed.

Lemma existsb_false_Forall {A} (p : A -> bool) (l : list A) :
  existsb p l = false -> Forall (fun x => p x = false) l.
Proof.
  induction l as [|x l IH]; cbn; [constructor|].
  intros H. apply orb_false_elim in H as [Hx Hl]. constructor; auto.
Qed.

Lemma is_str_inj v a b : is_str v a = true -> is_str v b = true -> a = b.
Proof.
  destruct v; cbn; try discriminate.
  intros Ha Hb. apply String.eqb_eq in Ha, Hb. congruence.
Qed.

(** Two different literals cannot both match. *)
Ltac clash :=
  match goal with
  | H1 : is_str ?v ?a = true, H2 : is_str ?v ?b = true |- _ =>
      exfalso; pose proof (is_str_inj _ _ _ H1 H2); discriminate
  end.

Ltac case_literals :=
  repeat match goal with
         | |- context [is_str ?t ?lit] => destruct (is_str t lit) eqn:?
         end.

(** Case analysis on the socket held by a destructured state. *)
Ltac case_socket :=
  match goal with
  | w : option WebSocket |- _ => destruct w as [[? [] ?]|]
  end.

Lemma nullish_get k v : nullish v = true -> get k v = JUndefined.
Proof. destruct v; cbn; congruence. Qed.

(** ** Base64 framing *)

Lemma list_ind3 {A} (P : list A -> Prop) :
  P [] -> (forall a, P [a]) -> (forall a b, P [a; b]) ->
  (forall a b c l, P l -> P (a :: b :: c :: l)) -> forall l, P l.
Proof.
  intros H0 H1 H2 H3 l.
  assert (H : P l /\ (forall a, P (a :: l)) /\ (forall a b, P (a :: b :: l))).
  { induction l as [|x l IH]; [auto|].
    destruct IH as (I0 & I1 & I2). split; [apply I1|]. split; [intros; apply I2|].
    intros a b. apply H3, I0. }
  apply H.
Qed.

(** The alphabet has 64 distinct characters, none of them [=] or white
    space. *)
Lemma b64_char_facts n :
  (0 <= n < 64)%Z ->
  String.get (Z.to_nat n) b64_alphabet = Some (b64_char n)
  /\ index_of (b64_char n) b64_alphabet = Some (Z.to_nat n)
  /\ b64_char n <> "="%char
  /\ is_ascii_whitespace (b64_char n) = false.
Proof.
  intros Hn. unfold b64_char.
  assert (Hk : (Z.to_nat n < 64)%nat) by lia.
  generalize dependent (Z.to_nat n). clear. intros k Hk.
  do 64 (destruct k as [|k]; [vm_compute; repeat split; congruence|]).
  lia.
Qed.

Lemma length_mod3 {A} (a b c : A) l :
  (length (a :: b :: c :: l) mod 3)%nat = (length l mod 3)%nat.
Proof.
  cbn [length]. replace (S (S (S (length l)))) with (length l + 1 * 3)%nat by lia.
  apply Nat.Div0.mod_add.
Qed.

Lemma b64_digit_char n :
  (0 <= n < 64)%Z -> b64_digit n = String (b64_char n) EmptyString.
Proof.
  intros Hn. unfold b64_digit.
  destruct (b64_char_facts n Hn) as (-> & _). reflexivity.
Qed.

Lemma sextets_range bytes :
  Forall is_byte bytes -> Forall (fun n => (0 <= n < 64)%Z) (sextets bytes).
Proof.
  unfold is_byte.
  induction bytes as [| a | a b | a b c l IH] using list_ind3; intros H; cbn [sextets].
  - constructor.
  - inversion_clear H. repeat constructor; lia.
  - inversion_clear H as [|? ? Ha H']. inversion_clear H' as [|? ? Hb _].
    repeat constructor; lia.
  - inversion_clear H as [|? ? Ha H']. inversion_clear H' as [|? ? Hb H''].
    inversion_clear H'' as [|? ? Hc Hl].
    repeat (apply Forall_cons; split; [lia|]). apply IH, Hl.
Qed.

Lemma sextets_to_bytes_sextets bytes :
  Forall is_byte bytes -> sextets_to_bytes (sextets bytes) = bytes.
Proof.
  unfold is_byte.
  induction bytes as [| a | a b | a b c l IH] using list_ind3; intros H; cbn [sextets].
  - reflexivity.
  - inversion_clear H. cbn. f_equal. lia.
  - inversion_clear H as [|? ? Ha H']. inversion_clear H' as [|? ? Hb _].
    cbn. f_equal; [lia|]. f_equal. lia.
  - inversion_clear H as [|? ? Ha H']. inversion_clear H' as [|? ? Hb H''].
    inversion_clear H'' as [|? ? Hc Hl].
    cbn [app sextets_to_bytes]. rewrite (IH Hl).
    f_equal; [lia|]. f_equal; [lia|]. f_equal. lia.
Qed.

Lemma length_mod4 {A} (a b c d : A) l :
  (length (a :: b :: c :: d :: l) mod 4)%nat = (length l mod 4)%nat.
Proof.
  cbn [length].
  replace (S (S (S (S (length l))))) with (length l + 1 * 4)%nat by lia.
  apply Nat.Div0.mod_add.
Qed.

Lemma sextets_length bytes :
  (length (map b64_char (sextets bytes) ++ b64_padding bytes) mod 4)%nat = 0%nat
  /\ (length (sextets bytes) mod 4)%nat <> 1%nat.
Proof.
  unfold b64_padding.
  induction bytes as [| a | a b | a b c l IH] using list_ind3; cbn [sextets].
  - split; cbn; lia.
  - split; cbn; lia.
  - split; cbn; lia.
  - rewrite length_mod3. cbn [app map]. rewrite !length_mod4. exact IH.
Qed.

Lemma btoa_chars bytes :
  Forall is_byte bytes ->
  list_ascii_of_string (btoa bytes)
  = map b64_char (sextets bytes) ++ b64_padding bytes.
Proof.
  unfold is_byte, b64_padding.
  induction bytes as [| a | a b | a b c l IH] using list_ind3; intros H;
    cbn [sextets btoa].
  - reflexivity.
  - inversion_clear H. rewrite !b64_digit_char by lia. reflexivity.
  - inversion_clear H as [|? ? Ha H']. inversion_clear H' as [|? ? Hb _].
    rewrite !b64_digit_char by lia. reflexivity.
  - inversion_clear H as [|? ? Ha H']. inversion_clear H' as [|? ? Hb H''].
    inversion_clear H'' as [|? ? Hc Hl].
    rewrite !b64_digit_char by lia. 
    change (b64_char (a / 4) :: b64_char (a mod 4 * 16 + b / 16)
            :: b64_char (b mod 16 * 4 + c / 64) :: b64_char (c mod 64)
            :: list_ascii_of_string (btoa l)
            = map b64_char
                ([(a / 4)%Z; (a mod 4 * 16 + b / 16)%Z;
                  (b mod 16 * 4 + c / 64)%Z; (c mod 64)%Z] ++ sextets l)
              ++ match (length (a :: b :: c :: l) mod 3)%nat with
                 | 1%nat => ["="%char; "="%char]
                 | 2%nat => ["="%char]
                 | _ => []
                 end).
    rewrite (IH Hl).
    rewrite length_mod3.
    reflexivity.
Qed.

Lemma strip_default (c : ascii) r cs :
  c <> "="%char ->
  match c :: r with
  | "="%char :: "="%char :: r0 => rev r0
  | "="%char :: r0 => rev r0
  | _ => cs
  end = cs.
Proof.
  intros Hc. destruct c as [[] [] [] [] [] [] [] []]; try reflexivity.
  congruence.
Qed.

Lemma strip_one (c : ascii) r cs :
  c <> "="%char ->
  match "="%char :: c :: r with
  | "="%char :: "="%char :: r0 => rev r0
  | "="%char :: r0 => rev r0
  | _ => cs
  end = rev (c :: r).
Proof.
  intros Hc. destruct c as [[] [] [] [] [] [] [] []]; try reflexivity.
  congruence.
Qed.

Lemma strip_padding_btoa bytes :
  Forall is_byte bytes ->
  strip_padding (map b64_char (sextets bytes) ++ b64_padding bytes)
  = map b64_char (sextets bytes).
Proof.
  intros H. pose proof (sextets_range bytes H) as Hr.
  destruct (sextets_length bytes) as [Hlen _].
  unfold strip_padding. rewrite Hlen. cbn [Nat.eqb].
  assert (Hlast : forall body,
             Forall (fun n => (0 <= n < 64)%Z) body ->
             rev (map b64_char body) = [] \/
             exists c r, rev (map b64_char body) = c :: r /\ c <> "="%char).
  { intros body Hb. destruct (rev body) as [|x r] eqn:E.
    - left. rewrite <- map_rev, E. reflexivity.
    - right. exists (b64_char x), (map b64_char r). rewrite <- map_rev, E.
      split; [reflexivity|]. apply b64_char_facts.
      assert (Hin : In x (rev body)) by (rewrite E; left; reflexivity).
      apply in_rev in Hin. exact (proj1 (List.Forall_forall _ _) Hb x Hin). }
  rewrite rev_app_distr.
  assert (Hbody : rev (rev (map b64_char (sextets bytes)))
                  = map b64_char (sextets bytes)) by apply rev_involutive.
  unfold b64_padding.
  destruct (Hlast _ Hr) as [E | (c & r & E & Hc)]; rewrite E in *;
    destruct (length bytes mod 3)%nat as [|[|[|]]]; cbn [rev app].
  all: rewrite ?app_nil_r; try exact Hbody.
  all: try (apply strip_default, Hc).
  all: try (rewrite <- Hbody; apply (strip_one c r []), Hc).
  all: rewrite <- Hbody; reflexivity.
Qed.

Lemma filter_whitespace_btoa bytes :
  Forall is_byte bytes ->
  filter (fun c => negb (is_ascii_whitespace c))
         (map b64_char (sextets bytes) ++ b64_padding bytes)
  = map b64_char (sextets bytes) ++ b64_padding bytes.
Proof.
  intros H. pose proof (sextets_range bytes H) as Hr.
  rewrite filter_app. f_equal.
  - induction Hr as [|n l Hn Hl IH]; [reflexivity|].
    cbn [map]. rewrite filter_cons.
    destruct (b64_char_facts n Hn) as (_ & _ & _ & Hw). rewrite Hw. cbn.
    rewrite decide_True by exact I. f_equal. exact IH.
  - unfold b64_padding. destruct (length bytes mod 3)%nat as [|[|[|]]]; reflexivity.
Qed.

Lemma mapM_index_of body :
  Forall (fun n => (0 <= n < 64)%Z) body ->
  mapM (fun c => Z.of_nat <$> index_of c b64_alphabet) (map b64_char body)
  = Some body.
Proof.
  induction 1 as [|n l Hn Hl IH]; [reflexivity|].
  cbn [map mapM]. destruct (b64_char_facts n Hn) as (_ & Hi & _).
  rewrite Hi, IH. cbn. f_equal. f_equal. lia.
Qed.

Lemma base64_roundtrip_bytes bytes :
  Forall is_byte bytes ->
  base64ToArrayBuffer (arrayBufferToBase64 bytes) = Some bytes.
Proof.
  intros H. unfold base64ToArrayBuffer, arrayBufferToBase64, atob.
  rewrite (btoa_chars bytes H), (filter_whitespace_btoa bytes H),
    (strip_padding_btoa bytes H), length_map.
  destruct (sextets_length bytes) as [_ Hne].
  destruct (length (sextets bytes) mod 4 =? 1)%nat eqn:E.
  - apply Nat.eqb_eq in E. contradiction.
  - rewrite (mapM_index_of _ (sextets_range bytes H)). cbn.
    f_equal. apply sextets_to_bytes_sextets, H.
Qed.

(** X1. Base64 framing is lossless: decoding the text produced for a byte
    buffer gives back the buffer. *)
Theorem base64_roundtrip (bytes : list Z) :
  Forall is_byte bytes ->
  base64ToArrayBuffer (arrayBufferToBase64 bytes) = Some bytes.
Proof. apply base64_roundtrip_bytes. Qed.

Lemma base64_roundtrip_witness :
  Forall is_byte [72; 105; 33; 255]%Z
  /\ base64ToArrayBuffer (arrayBufferToBase64 [72; 105; 33; 255]%Z)
     = Some [72; 105; 33; 255]%Z.
Proof.
  assert (H : Forall is_byte [72; 105; 33; 255]%Z)
    by (repeat constructor; unfold is_byte; lia).
  split; [exact H | exact (base64_roundtrip _ H)].
Defined.

(** ** Decoding and encoding PCM *)

Lemma pcm_bytes l : Forall is_byte (floatTo16BitPCM l).
Proof.
  unfold floatTo16BitPCM, setInt16_le, is_byte.
  induction l as [|x l IH]; cbn [flat_map app]; [constructor|].
  repeat (apply Forall_cons; split; [lia|]). exact IH.
Qed.

Lemma dequantize_normalized z :
  (-32768 <= z <= 32767)%Z -> normalized (Fin (inject_Z z / 32768)).
Proof.
  intros [Hlo Hhi]. cbn.
  rewrite Zle_Qle in Hlo, Hhi.
  change (inject_Z (-32768)) with (-32768)%Q in Hlo.
  change (inject_Z 32767) with 32767%Q in Hhi.
  split.
  - apply Qle_shift_div_l; lra.
  - apply Qlt_shift_div_r; lra.
Qed.

Lemma getInt16_le_Some view i :
  (S (i * 2) < length view)%nat ->
  exists z, getInt16_le view (i * 2) = Some z /\ (-32768 <= z <= 32767)%Z.
Proof.
  intros Hi. unfold getInt16_le.
  destruct (lookup_lt_is_Some_2 view (i * 2)) as [lo ->]; [lia|].
  destruct (lookup_lt_is_Some_2 view (S (i * 2))) as [hi ->]; [lia|].
  eexists. split; [reflexivity | apply wrap16_range].
Qed.

Lemma getInt16_le_None view i :
  (length view <= S (i * 2))%nat -> getInt16_le view (i * 2) = None.
Proof.
  intros Hi. unfold getInt16_le.
  rewrite (lookup_ge_None_2 view (S (i * 2))) by lia.
  destruct (view !! (i * 2)%nat); reflexivity.
Qed.

Lemma pcm16ToFloat_odd pcmData :
  Nat.odd (length pcmData) = true -> pcm16ToFloat pcmData = None.
Proof.
  intros Hodd. apply Nat.odd_spec in Hodd as [k Hk].
  unfold pcm16ToFloat. apply mapM_None.
  apply Exists_exists. exists k. split.
  - apply elem_of_seq. replace (S (length pcmData)) with (2 * S k)%nat by lia.
    rewrite Nat.div2_double. lia.
  - rewrite getInt16_le_None by lia. reflexivity.
Qed.

Lemma pcm16ToFloat_even pcmData :
  Nat.even (length pcmData) = true ->
  exists samples,
    pcm16ToFloat pcmData = Some samples
    /\ (2 * length samples)%nat = length pcmData
    /\ Forall normalized samples.
Proof.
  intros Heven. apply Nat.even_spec in Heven as [k Hk].
  unfold pcm16ToFloat. rewrite Hk, Nat.div2_succ_double.
  assert (H : forall n, (n <= k)%nat ->
            exists samples,
              mapM (fun i => (fun int16 => Fin (inject_Z int16 / 32768)) <$>
                               getInt16_le pcmData (i * 2)) (seq 0 n) = Some samples
              /\ length samples = n /\ Forall normalized samples).
  { induction n as [|n IH]; intros Hn.
    - exists []. repeat split. constructor.
    - destruct IH as (samples & E & Hl & Hf); [lia|].
      destruct (getInt16_le_Some pcmData n) as (z & Ez & Hz); [lia|].
      exists (samples ++ [Fin (inject_Z z / 32768)]).
      rewrite seq_S, Nat.add_0_l. split; [|split].
      + apply mapM_Some. apply Forall2_app; [apply mapM_Some, E|].
        constructor; [|constructor]. rewrite Ez. reflexivity.
      + rewrite length_app, Hl. cbn. lia.
      + apply Forall_app. split; [exact Hf|].
        constructor; [|constructor]. apply dequantize_normalized, Hz. }
  destruct (H k (Nat.le_refl k)) as (samples & E & Hl & Hf).
  exists samples. split; [exact E|]. split; [lia | exact Hf].
Qed.

(** X2. The decoding loop of [playAudio] fails exactly on a payload with an
    odd number of bytes; on any other payload it yields one sample per two
    bytes, each finite and in [-1, 1). *)
Theorem pcm_decode_spec (pcmData : list Z) :
  match pcm16ToFloat pcmData with
  | Some samples =>
      (2 * length samples)%nat = length pcmData /\ Forall normalized samples
  | None => Nat.odd (length pcmData) = true
  end.
Proof.
  destruct (Nat.even (length pcmData)) eqn:E.
  - destruct (pcm16ToFloat_even pcmData E) as (samples & -> & Hl & Hf).
    split; assumption.
  - assert (Ho : Nat.odd (length pcmData) = true)
      by (unfold Nat.odd; rewrite E; reflexivity).
    rewrite (pcm16ToFloat_odd pcmData Ho). exact Ho.
Qed.

(** X3. A captured frame goes out only while the page listens on an open
    socket, as one [input_audio_buffer.append] frame; its payload decodes,
    by the decoder of the playback path, to the resampled frame in 16-bit
    precision. *)
Theorem capture_frame_wire_format (env : Env) (inputData : list sample) (s : State) :
  let audioData := resample (sampleRate env) inputData in
  let payload := arrayBufferToBase64 (floatTo16BitPCM audioData) in
  base64ToArrayBuffer payload ≫= pcm16ToFloat
  = Some (map (fun x => Fin (dequantize (quantize x))) audioData)
  /\ onaudioprocess env inputData s
     = if isListeningRef s && ws_open s then ws_send (audio_append payload) s else s.
Proof.
  intros audioData payload. split.
  - unfold payload. rewrite (base64_roundtrip_bytes _ (pcm_bytes audioData)).
    cbn [mbind option_bind]. apply pcm_roundtrip.
  - unfold onaudioprocess.
    destruct (isListeningRef s); [|reflexivity].
    destruct (ws_open s); reflexivity.
Qed.

(** X4. A delta that is not valid base64, or that decodes to an empty or
    odd-length payload, is dropped: nothing is scheduled and the cursor
    stays; the audio context is created all the same. *)
Theorem playAudio_drops_bad_chunk (env : Env) (base64Audio : string) (s : State) :
  (forall bytes, base64ToArrayBuffer base64Audio = Some bytes ->
                 bytes = [] \/ Nat.odd (length bytes) = true) ->
  playAudio env base64Audio s = initAudioContext s.
Proof.
  intros H. unfold playAudio.
  destruct (base64ToArrayBuffer base64Audio) as [bytes|]; [|reflexivity].
  destruct (H bytes eq_refl) as [-> | Hodd]; [reflexivity|].
  cbn [mbind option_bind]. rewrite (pcm16ToFloat_odd bytes Hodd). reflexivity.
Qed.

Lemma playAudio_drops_bad_chunk_witness :
  playAudio example_env "QUJD" initialState = initAudioContext initialState.
Proof.
  apply playAudio_drops_bad_chunk.
  intros bytes H. vm_compute in H. injection H as <-. right. reflexivity.
Defined.

Lemma playAudio_good_chunk
    (env : Env) (base64Audio : string) (bytes : list Z) (s : State) :
  base64ToArrayBuffer base64Audio = Some bytes ->
  bytes <> [] ->
  Nat.even (length bytes) = true ->
  exists samples,
    (2 * length samples)%nat = length bytes
    /\ Forall normalized samples
    /\ let start := Qmax (currentTime env) (audioPlaybackTimeRef s) in
       let src := {| source_id := length (started s); buffer := samples;
                     startTime := start |} in
       playAudio env base64Audio s
       = (initAudioContext s)
           <| started := started s ++ [src] |>
           <| activeAudioSourcesRef := activeAudioSourcesRef s ++ [src] |>
           <| audioPlaybackTimeRef :=
                round_double
                  (start + round_double (inject_Z (Z.of_nat (length samples)) / 24000)) |>.
Proof.
  intros Hb Hne Heven.
  destruct (pcm16ToFloat_even bytes Heven) as (samples & E & Hl & Hf).
  exists samples. split; [exact Hl|]. split; [exact Hf|].
  unfold playAudio. rewrite Hb. cbn [mbind option_bind]. rewrite E.
  destruct samples as [|x samples].
  - destruct bytes; [congruence | discriminate Hl].
  - reflexivity.
Qed.

(** X5. A delta that decodes to [2 n > 0] bytes schedules exactly one
    source of [n] normalized samples, starting at the later of the audio
    clock and the cursor, and moves the cursor past that start by the
    duration of the buffer: to the double nearest to the start plus the
    double nearest to [n / 24000]. *)
Theorem playAudio_plays_good_chunk
    (env : Env) (base64Audio : string) (bytes : list Z) (s : State) :
  base64ToArrayBuffer base64Audio = Some bytes ->
  bytes <> [] ->
  Nat.even (length bytes) = true ->
  exists samples,
    (2 * length samples)%nat = length bytes
    /\ Forall normalized samples
    /\ let start := Qmax (currentTime env) (audioPlaybackTimeRef s) in
       let src := {| source_id := length (started s); buffer := samples;
                     startTime := start |} in
       playAudio env base64Audio s
       = (initAudioContext s)
           <| started := started s ++ [src] |>
           <| activeAudioSourcesRef := activeAudioSourcesRef s ++ [src] |>
           <| audioPlaybackTimeRef :=
                round_double
                  (start + round_double (inject_Z (Z.of_nat (length samples)) / 24000)) |>.
Proof. apply playAudio_good_chunk. Qed.

Lemma playAudio_plays_good_chunk_witness :
  exists samples,
    (2 * length samples)%nat = 2%nat
    /\ Forall normalized samples
    /\ playAudio example_env "AEA=" initialState
       = (initAudioContext initialState)
           <| started := [{| source_id := 0; buffer := samples;
                             startTime := Qmax (currentTime example_env) 0 |}] |>
           <| activeAudioSourcesRef :=
                [{| source_id := 0; buffer := samples;
                    startTime := Qmax (currentTime example_env) 0 |}] |>
           <| audioPlaybackTimeRef :=
                round_double
                  (Qmax (currentTime example_env) 0
                   + round_double (inject_Z (Z.of_nat (length samples)) / 24000)) |>.
Proof.
  exact (playAudio_plays_good_chunk example_env "AEA=" [0; 64]%Z initialState
           eq_refl ltac:(discriminate) eq_refl).
Defined.

Lemma clamp_monotone x y :
  (x <= y)%Q -> (Qmax (-1) (Qmin 1 x) <= Qmax (-1) (Qmin 1 y))%Q.
Proof.
  intros H. apply Q.max_le_compat_l. apply Q.min_le_compat_l. exact H.
Qed.

(** X6. The encoder never wraps around: a louder sample never gets a
    smaller int16, samples at or above full scale saturate at [32767] and
    samples at or below [-1] at [-32768]. *)
Theorem quantize_monotone (x y : Q) :
  (x <= y)%Q ->
  (quantize (Fin x) <= quantize (Fin y))%Z
  /\ ((1 <= x)%Q -> quantize (Fin x) = 32767%Z)
  /\ ((y <= -1)%Q -> quantize (Fin y) = (-32768)%Z).
Proof.
  intros Hxy. pose proof (clamp_monotone x y Hxy) as Hs.
  pose proof (clamp_range x) as [Hx1 Hx2]. pose proof (clamp_range y) as [Hy1 Hy2].
  split; [|split].
  - destruct (Qlt_le_dec (Qmax (-1) (Qmin 1 x)) 0) as [Hx|Hx];
      destruct (Qlt_le_dec (Qmax (-1) (Qmin 1 y)) 0) as [Hy|Hy].
    + rewrite (quantize_neg x Hx), (quantize_neg y Hy).
      apply Qceiling_resp_le. lra.
    + rewrite (quantize_neg x Hx), (quantize_nonneg y Hy).
      transitivity 0%Z.
      * change 0%Z with (Qceiling 0). apply Qceiling_resp_le. lra.
      * change 0%Z with (Qfloor 0). apply Qfloor_resp_le. lra.
    + lra.
    + rewrite (quantize_nonneg x Hx), (quantize_nonneg y Hy).
      apply Qfloor_resp_le. lra.
  - intros H1. pose proof (clamp_of_high x H1) as E.
    rewrite (quantize_nonneg x) by lra.
    rewrite (Qfloor_comp _ 32767) by (rewrite E; reflexivity). reflexivity.
  - intros H1. pose proof (clamp_of_low y H1) as E.
    rewrite (quantize_neg y) by lra.
    rewrite (Qceiling_comp _ (-32768)) by (rewrite E; reflexivity). reflexivity.
Qed.

Lemma quantize_monotone_witness :
  (quantize (Fin (1 # 4)) <= quantize (Fin (3 # 2)))%Z
  /\ quantize (Fin (3 # 2)) = 32767%Z.
Proof.
  assert (H : (1 # 4 <= 3 # 2)%Q) by (unfold Qle; cbn; lia).
  destruct (quantize_monotone (1 # 4) (3 # 2) H) as (Hm & _ & _).
  split; [exact Hm | reflexivity].
Defined.

(** ** What goes out on the socket *)

Lemma playAudio_sent env c s : sent (playAudio env c s) = sent s.
Proof. unfold playAudio. case_tests; reflexivity. Qed.

Lemma processAudioQueue_sent env s : sent (processAudioQueue env s) = sent s.
Proof.
  apply (processAudioQueue_frame sent); [apply playAudio_sent | reflexivity].
Qed.

Lemma interruptAudio_sent s :
  sent (interruptAudio s)
  = if ws_open s then sent s ++ [response_cancel] else sent s.
Proof.
  unfold interruptAudio, ws_send, ws_open. destruct s as [].
  cbn. case_tests; reflexivity.
Qed.

Lemma handleContextUpdate_sent env data s :
  sent (fst (handleContextUpdate env data s)) = sent s.
Proof. unfold handleContextUpdate. case_tests; reflexivity. Qed.

Lemma check_rate_limit_sent env data s :
  sent (fst (check_rate_limit env data s)) = sent s.
Proof. unfold check_rate_limit. case_tests; reflexivity. Qed.

Lemma on_response_done_sent env data s :
  sent (fst (on_response_done env data s)) = sent s.
Proof.
  unfold on_response_done.
  pose proof (check_rate_limit_sent env data (s <| isProcessing := false |>)) as H.
  destruct (check_rate_limit env data (s <| isProcessing := false |>)) as [s1 []];
    cbn [fst] in H; [|exact H].
  destruct (present (pendingLessonAudioRef s1)); exact H.
Qed.

Lemma handleMessage_try_with_sent captured env event_data s :
  sent (fst (handleMessage_try_with captured env event_data s))
  = if ws_open s
       && match event_data with
          | Some data =>
              negb (nullish data)
              && negb (is_str (get "type" data) "session.created")
              && negb (is_str (get "type" data) "session.updated")
              && is_str (get "type" data) "input_audio_buffer.speech_started"
          | None => false
          end
    then sent s ++ [response_cancel] else sent s.
Proof.
  unfold handleMessage_try_with.
  destruct event_data as [data|]; [|rewrite andb_false_r; reflexivity].
  destruct (nullish data); [rewrite andb_false_r; reflexivity|].
  repeat match goal with
         | |- context [if is_str ?t ?lit then _ else _] => destruct (is_str t lit)
         end.
  all: cbn [negb andb]; rewrite ?andb_false_r, ?andb_true_r.
  all: try (case_tests; reflexivity).
  - cbn [fst]. apply interruptAudio_sent.
  - cbn [fst]. destruct (truthy (get "delta" data)); [|reflexivity].
    rewrite processAudioQueue_sent. reflexivity.
  - apply on_response_done_sent.
  - apply handleContextUpdate_sent.
Qed.

Lemma stopAudioCapture_sent s :
  sent (stopAudioCapture s)
  = if ws_open s then sent s ++ [audio_commit] else sent s.
Proof.
  unfold stopAudioCapture, ws_send, ws_open. destruct s as [].
  cbn. case_tests; reflexivity.
Qed.

Lemma startAudioCapture_request_sent s : sent (startAudioCapture_request s) = sent s.
Proof. reflexivity. Qed.

Lemma getUserMedia_settled_sent env s : sent (getUserMedia_settled env s) = sent s.
Proof. unfold getUserMedia_settled. case_tests; reflexivity. Qed.

Lemma startAudioCapture_sent env s : sent (startAudioCapture env s) = sent s.
Proof. unfold startAudioCapture. rewrite getUserMedia_settled_sent. reflexivity. Qed.

Lemma connect_sent env s : sent (connect env s) = sent s.
Proof. unfold connect. case_tests; reflexivity. Qed.

Lemma toggleListening_with_sent start env s :
  (forall t, sent (start t) = sent t) ->
  sent (toggleListening_with start env s) = sent s
  \/ (ws_open s = true
      /\ sent (toggleListening_with start env s) = sent s ++ [audio_commit]).
Proof.
  intros Hstart. unfold toggleListening_with.
  destruct (readyToPlayLessonAudio s && present (pendingLessonAudio s)).
  { left. unfold playPendingLessonAudio. case_tests; reflexivity. }
  destruct (aiPaused s).
  { left. rewrite Hstart.
    destruct (negb (isConnected s)); rewrite ?connect_sent; reflexivity. }
  destruct (isListening s).
  - rewrite stopAudioCapture_sent.
    assert (Ho : ws_open (if lessonAudioPlaying s then stopLessonAudio s else s) = ws_open s)
      by (destruct (lessonAudioPlaying s); reflexivity).
    assert (Hs : sent (if lessonAudioPlaying s then stopLessonAudio s else s) = sent s)
      by (destruct (lessonAudioPlaying s); reflexivity).
    rewrite Ho, Hs. destruct (ws_open s); [right; split; reflexivity | left; reflexivity].
  - left. rewrite Hstart.
    destruct (negb (isConnected s)); rewrite ?connect_sent;
      destruct (lessonAudioPlaying s); reflexivity.
Qed.

Lemma toggleListening_sent env s :
  sent (toggleListening env s) = sent s
  \/ (ws_open s = true /\ sent (toggleListening env s) = sent s ++ [audio_commit]).
Proof. apply toggleListening_with_sent. intros t. apply startAudioCapture_sent. Qed.

Lemma ws_open_closed s : ws_open (set_readyState CLOSED s) = false.
Proof. unfold ws_open, set_readyState. destruct s as []. cbn. case_socket; reflexivity. Qed.

Lemma socket_onclose_sent code reason s :
  sent (socket_onclose code reason s)
  = if ws_open s then sent s ++ [audio_commit] else sent s.
Proof.
  unfold socket_onclose.
  assert (H : sent (stopAudioCapture (s <| isConnected := false |> <| isListening := false |>))
              = if ws_open s then sent s ++ [audio_commit] else sent s)
    by (rewrite stopAudioCapture_sent; reflexivity).
  destruct (negb (code =? 1000)%Z); exact H.
Qed.

Lemma ws_onclose_sent code reason s : sent (ws_onclose code reason s) = sent s.
Proof.
  unfold ws_onclose. rewrite socket_onclose_sent, ws_open_closed. reflexivity.
Qed.

(** X7. The page never writes to a socket that is not open.  One event
    writes at most one frame, and that frame is a [response.cancel], an
    [input_audio_buffer.commit] or an [input_audio_buffer.append]. *)
Theorem frames_only_on_open_socket (env : Env) (e : Event) (s : State) :
  sent (step env e s) = sent s
  \/ (ws_open s = true
      /\ exists frame,
           sent (step env e s) = sent s ++ [frame]
           /\ (frame = response_cancel \/ frame = audio_commit
               \/ exists payload, frame = audio_append payload)).
Proof.
  assert (forall captured event_data,
             sent (fst (handleMessage_try_with captured env event_data s)) = sent s
             \/ (ws_open s = true
                 /\ exists frame,
                      sent (fst (handleMessage_try_with captured env event_data s))
                      = sent s ++ [frame]
                      /\ (frame = response_cancel \/ frame = audio_commit
                          \/ exists payload, frame = audio_append payload))) as Hin.
  { intros captured event_data.
    pose proof (handleMessage_try_with_sent captured env event_data s) as H.
    destruct (ws_open s); [|left; exact H].
    match type of H with
    | _ = if ?b then _ else _ => destruct b
    end; [right | left; exact H].
    split; [reflexivity|]. exists response_cancel. split; [exact H | left; reflexivity]. }
  assert (forall t, (sent t = sent s
                     \/ (ws_open s = true /\ sent t = sent s ++ [audio_commit])) ->
                    sent t = sent s
                    \/ (ws_open s = true
                        /\ exists frame,
                             sent t = sent s ++ [frame]
                             /\ (frame = response_cancel \/ frame = audio_commit
                                 \/ exists payload, frame = audio_append payload))) as Hcommit.
  { intros t [H | [Ho H]]; [left; exact H | right].
    split; [exact Ho|]. exists audio_commit. split; [exact H | right; left; reflexivity]. }
  destruct e as [| | | |code reason|event_data| |frame|id| | | | | | |
                 |key tag| | |i|i|i code reason|i event_data].
  6: { unfold step, handleMessage, handleMessage_try.
       specialize (Hin (captured_aiTranscript s) event_data).
       destruct (handleMessage_try_with _ env event_data s). exact Hin. }
  6: { apply Hcommit, toggleListening_sent. }
  6: { unfold step, onaudioprocess.
       destruct (isListeningRef s); [|left; reflexivity].
       destruct (ws_open s); [right | left; reflexivity].
       split; [reflexivity|]. eexists. split; [reflexivity|].
       right; right. eexists. reflexivity. }
  5: { left. apply ws_onclose_sent. }
  10: { apply Hcommit, toggleListening_with_sent. intros t. reflexivity. }
  12: { unfold step, handleKeyDown, goToDashboard.
        destruct (String.eqb key "Space" && negb (String.eqb tag "INPUT")
                  && negb (String.eqb tag "TEXTAREA"));
          destruct (String.eqb key "Escape"); cbn;
          first [ apply Hcommit, toggleListening_sent | left; reflexivity ]. }
  16: { unfold step. destruct (replaced_live i s); [|left; reflexivity].
        apply Hcommit. rewrite socket_onclose_sent.
        change (ws_open (set_replaced_readyState i CLOSED s)) with (ws_open s).
        change (sent (set_replaced_readyState i CLOSED s)) with (sent s).
        destruct (ws_open s); [right; split; reflexivity | left; reflexivity]. }
  16: { unfold step. destruct (replacedSockets s !! i) as [ws|]; [|left; reflexivity].
        destruct (live ws); [|left; reflexivity]. unfold handleMessage_of.
        specialize (Hin (onmessage_aiTranscript ws) event_data).
        destruct (handleMessage_try_with _ env event_data s). exact Hin. }
  all: left.
  all: unfold step, reconnect_onClick, connect, startAudioCapture,
      startAudioCapture_request, getUserMedia_settled, initAudioContext,
      set_readyState, ws_onerror, source_onended, lessonAudio_onended,
      lessonAudio_onerror, lessonAudio_play_rejected, narration_cleared, countdown_tick,
      goToDashboard, set_replaced_readyState, ws_send, addMessage, ws_open;
    destruct s as []; cbn; case_tests; reflexivity.
Qed.

(** What the [onclose] handler does, whichever socket has closed. *)
Lemma socket_onclose_effect code reason t :
  let t' := socket_onclose code reason t in
  isConnected t' = false
  /\ capturing t' = false
  /\ processorRef t' = false
  /\ mediaStreamRef t' = false
  /\ wsRef t' = wsRef t
  /\ replacedSockets t' = replacedSockets t
  /\ sent t' = (if ws_open t then sent t ++ [audio_commit] else sent t)
  /\ connectionError t'
     = if (code =? 1000)%Z then connectionError t
       else Some (if String.eqb reason "" then "Connection closed: Unknown reason"
                  else "Connection closed: " ++ reason)%string.
Proof.
  intros t'. unfold t', socket_onclose, stopAudioCapture, ws_send, capturing, ws_open.
  destruct t as []; case_socket; cbn.
  all: destruct (code =? 1000)%Z; cbn.
  all: destruct (String.eqb reason ""); repeat split; reflexivity.
Qed.

(** X8. When a socket closes, the session is marked disconnected and the
    capture graph is torn down, whichever socket it is.  If it is the
    socket that [wsRef] holds, no commit frame is written, the socket being
    closed.  If it is a socket that [connect] had dropped from [wsRef], the
    handler acts on the socket that took its place: that socket stays as it
    is and, when it is open, the commit frame is written to it.  Either
    way a normal closure (code 1000) leaves the error banner as it was, and
    any other code sets it to the reason given, or says that the reason is
    unknown. *)
Theorem socket_close_tears_down (env : Env) (code : Z) (reason : string) (s : State) :
  (let s' := step env (SocketClosed code reason) s in
   isConnected s' = false
   /\ capturing s' = false
   /\ processorRef s' = false
   /\ mediaStreamRef s' = false
   /\ ws_open s' = false
   /\ sent s' = sent s
   /\ connectionError s'
      = if (code =? 1000)%Z then connectionError s
        else Some (if String.eqb reason "" then "Connection closed: Unknown reason"
                   else "Connection closed: " ++ reason)%string)
  /\ (forall i, replaced_live i s = true ->
      let s' := step env (ReplacedSocketClosed i code reason) s in
      isConnected s' = false
      /\ capturing s' = false
      /\ processorRef s' = false
      /\ mediaStreamRef s' = false
      /\ wsRef s' = wsRef s
      /\ replaced_live i s' = false
      /\ sent s' = (if ws_open s
                    then sent s ++ [JObj [("type", JStr "input_audio_buffer.commit")]]
                    else sent s)
      /\ connectionError s'
         = if (code =? 1000)%Z then connectionError s
           else Some (if String.eqb reason "" then "Connection closed: Unknown reason"
                      else "Connection closed: " ++ reason)%string).
Proof.
  split.
  - intros s'. destruct (socket_onclose_effect code reason (set_readyState CLOSED s))
      as (H1 & H2 & H3 & H4 & _ & _ & H7 & H8).
    rewrite ws_open_closed in H7.
    repeat split; try assumption.
    unfold s', step, ws_onclose, ws_open. 
    destruct (socket_onclose_effect code reason (set_readyState CLOSED s))
      as (_ & _ & _ & _ & -> & _).
    exact (ws_open_closed s).
  - intros i Hlive s'.
    assert (replaced_live i (set_replaced_readyState i CLOSED s) = false) as Hdead.
    { unfold replaced_live.
      change (replacedSockets (set_replaced_readyState i CLOSED s))
        with (alter (fun ws => ws <| readyState := CLOSED |>) i (replacedSockets s)).
      rewrite list_lookup_alter, decide_True by reflexivity.
      destruct (replacedSockets s !! i); reflexivity. }
    unfold s', step. rewrite Hlive.
    destruct (socket_onclose_effect code reason (set_replaced_readyState i CLOSED s))
      as (H1 & H2 & H3 & H4 & H5 & H6 & H7 & H8).
    repeat split; try assumption.
    unfold replaced_live. rewrite H6. exact Hdead.
Qed.

(** A press before the session is confirmed replaces the connecting socket
    by a new one.  When the first socket closes, with capture running on
    the second, capture is torn down and the commit frame goes out on the
    second socket, which stays open. *)
Lemma socket_close_tears_down_witness :
  let s :=
    run [(example_env, Mount); (example_env, Toggle); (example_env, SocketOpened)]
      initialState in
  let s' := step example_env (ReplacedSocketClosed 0 1006 "") s in
  replaced_live 0 s = true
  /\ capturing s = true
  /\ isConnected s' = false
  /\ capturing s' = false
  /\ ws_open s' = true
  /\ sent s' = [JObj [("type", JStr "input_audio_buffer.commit")]]
  /\ connectionError s' = Some "Connection closed: Unknown reason".
Proof.
  intros s s'.
  destruct (socket_close_tears_down example_env 1006 "" s) as [_ H].
  destruct (H 0%nat eq_refl) as (Hc & Hcap & _ & _ & Hws & _ & Hsent & Herr).
  split; [reflexivity|]. split; [reflexivity|]. split; [exact Hc|].
  split; [exact Hcap|]. split; [reflexivity|]. split; [exact Hsent | exact Herr].
Defined.

(** ** The capture graph *)
























(** ** Capture against narration *)










(** ** Bookkeeping of the playback scheduler *)

Lemma playback_coherent_view s s' :
  playback_view s' = playback_view s -> playback_coherent s -> playback_coherent s'.
Proof.
  unfold playback_view, playback_coherent, schedule_coherent, stop_coherent.
  intros [= -> -> ->]. tauto.
Qed.

(** An active source was scheduled, so its identity is below the number of
    scheduled sources. *)
Lemma active_id_lt s src :
  schedule_coherent s -> src ∈ activeAudioSourcesRef s ->
  (source_id src < length (started s))%nat.
Proof.
  intros [Hid Hsub] Hin.
  apply (elem_of_sublist _ _ _ Hin) in Hsub.
  apply list_elem_of_lookup_1 in Hsub as [i Hi].
  rewrite (Hid i src Hi). apply lookup_lt_Some in Hi. exact Hi.
Qed.

Lemma active_ids_lt s :
  schedule_coherent s ->
  Forall (fun id => (id < length (started s))%nat) (map source_id (activeAudioSourcesRef s)).
Proof.
  intros H. apply Forall_forall. intros id Hin.
  apply list_elem_of_fmap in Hin as (src & -> & Hin).
  apply active_id_lt; assumption.
Qed.

Lemma playAudio_stopped env c s : stopped (playAudio env c s) = stopped s.
Proof. unfold playAudio. case_tests; reflexivity. Qed.

Lemma playAudio_coherent env c s :
  playback_coherent s -> playback_coherent (playAudio env c s).
Proof.
  intros H.
  destruct (playAudio_cases env c s) as [(Hs & _ & Ha & _)|(samples & _ & _ & Hs & Ha & _)].
  - apply (playback_coherent_view s); [|exact H].
    unfold playback_view. rewrite Hs, Ha, playAudio_stopped. reflexivity.
  - cbv zeta in Hs, Ha. destruct H as [Hsc [Hnd Hlt]].
    pose proof (active_ids_lt s Hsc) as Hact. destruct Hsc as [Hid Hsub].
    unfold playback_coherent, schedule_coherent, stop_coherent.
    rewrite Hs, Ha, playAudio_stopped. repeat split.
    + intros i src Hi. apply lookup_app_Some in Hi as [Hi | [Hge Hi]].
      * apply Hid, Hi.
      * apply list_lookup_singleton_Some in Hi as [Hi <-]. cbn. lia.
    + apply sublist_app; [exact Hsub | reflexivity].
    + rewrite map_app, app_assoc. cbn [map source_id].
      apply NoDup_app. split; [exact Hnd|]. split; [|apply NoDup_singleton].
      intros id Hin Hid'. apply list_elem_of_singleton in Hid'. subst id.
      apply elem_of_app in Hin as [Hin | Hin].
      * rewrite Forall_forall in Hlt. specialize (Hlt _ Hin). lia.
      * rewrite Forall_forall in Hact. specialize (Hact _ Hin). lia.
    + rewrite length_app. cbn [length].
      eapply Forall_impl; [exact Hlt|]. cbv beta. intros. lia.
Qed.

Lemma interruptAudio_view s :
  playback_view (interruptAudio s)
  = (started s, [], stopped s ++ map source_id (activeAudioSourcesRef s)).
Proof. unfold interruptAudio, ws_send. case_tests; reflexivity. Qed.

Lemma interruptAudio_coherent s :
  playback_coherent s -> playback_coherent (interruptAudio s).
Proof.
  intros [Hsc [Hnd Hlt]]. pose proof (active_ids_lt s Hsc) as Hact.
  destruct Hsc as [Hid Hsub].
  pose proof (interruptAudio_view s) as Hv. unfold playback_view in Hv.
  injection Hv as Hs Ha Hst.
  unfold playback_coherent, schedule_coherent, stop_coherent.
  rewrite Hs, Ha, Hst. repeat split.
  - exact Hid.
  - apply sublist_nil_l.
  - cbn [map]. rewrite app_nil_r. exact Hnd.
  - apply Forall_app. split; assumption.
Qed.

Lemma source_onended_coherent id s :
  playback_coherent s -> playback_coherent (source_onended id s).
Proof.
  intros [[Hid Hsub] [Hnd Hlt]].
  unfold playback_coherent, schedule_coherent, stop_coherent, source_onended.
  cbn. repeat split.
  - exact Hid.
  - etransitivity; [apply sublist_filter | exact Hsub].
  - eapply sublist_NoDup; [exact Hnd|].
    apply sublist_app; [reflexivity|].
    apply fmap_sublist. apply sublist_filter.
  - exact Hlt.
Qed.

Lemma handleContextUpdate_playback env data s :
  playback_view (fst (handleContextUpdate env data s)) = playback_view s.
Proof. unfold handleContextUpdate. case_tests; reflexivity. Qed.

Lemma check_rate_limit_playback env data s :
  playback_view (fst (check_rate_limit env data s)) = playback_view s.
Proof. unfold check_rate_limit. case_tests; reflexivity. Qed.

Lemma on_response_done_playback env data s :
  playback_view (fst (on_response_done env data s)) = playback_view s.
Proof.
  unfold on_response_done.
  pose proof (check_rate_limit_playback env data (s <| isProcessing := false |>)) as H.
  destruct (check_rate_limit env data (s <| isProcessing := false |>)) as [s1 []];
    cbn [fst] in H; [|exact H].
  destruct (present (pendingLessonAudioRef s1)); exact H.
Qed.

Lemma toggleListening_playback env s :
  playback_view (toggleListening env s) = playback_view s.
Proof.
  unfold toggleListening, toggleListening_with, playPendingLessonAudio, resumeAI,
    stopLessonAudio, startAudioCapture, startAudioCapture_request, getUserMedia_settled,
    stopAudioCapture, connect, initAudioContext, ws_send, addMessage.
  case_tests; reflexivity.
Qed.

Lemma toggleListening_request_playback env s :
  playback_view (toggleListening_request env s) = playback_view s.
Proof.
  unfold toggleListening_request, toggleListening_with, playPendingLessonAudio, resumeAI,
    stopLessonAudio, startAudioCapture_request, stopAudioCapture, connect,
    initAudioContext, ws_send, addMessage.
  case_tests; reflexivity.
Qed.

Lemma handleMessage_try_with_coherent captured env event_data s :
  playback_coherent s ->
  playback_coherent (fst (handleMessage_try_with captured env event_data s)).
Proof.
  intros H. unfold handleMessage_try_with.
  destruct event_data as [data|]; [|exact H].
  destruct (nullish data); [exact H|].
  repeat match goal with
         | |- context [if is_str ?t ?lit then _ else _] => destruct (is_str t lit)
         end.
  all: try (refine (playback_coherent_view _ _ _ H); case_tests; reflexivity).
  - cbn [fst]. exact (playback_coherent_view _ _ eq_refl (interruptAudio_coherent s H)).
  - cbn [fst]. destruct (truthy (get "delta" data)); [|exact H].
    apply processAudioQueue_invariant.
    + apply playAudio_coherent.
    + intros st Hst. exact (playback_coherent_view _ _ eq_refl Hst).
    + exact (playback_coherent_view _ _ eq_refl H).
  - exact (playback_coherent_view _ _ (on_response_done_playback env data s) H).
  - exact (playback_coherent_view _ _ (handleContextUpdate_playback env _ s) H).
Qed.

Lemma step_coherent env e s : playback_coherent s -> playback_coherent (step env e s).
Proof.
  intros H.
  destruct e as [| | | |code reason|event_data| |frame|id| | | | | | |
                 |key tag| | |i|i|i code reason|i event_data]; cbn [step].
  6: { unfold handleMessage, handleMessage_try.
       pose proof (handleMessage_try_with_coherent (captured_aiTranscript s) env
                     event_data s H) as Hh.
       destruct (handleMessage_try_with _ env event_data s) as [s' c]. exact Hh. }
  6: { exact (playback_coherent_view _ _ (toggleListening_playback env s) H). }
  7: { apply source_onended_coherent, H. }
  11: { exact (playback_coherent_view _ _ (toggleListening_request_playback env s) H). }
  13: { unfold handleKeyDown, goToDashboard.
        destruct (String.eqb key "Space" && negb (String.eqb tag "INPUT")
                  && negb (String.eqb tag "TEXTAREA"));
          destruct (String.eqb key "Escape");
          try refine (playback_coherent_view _ _ eq_refl _);
          first [ exact (playback_coherent_view _ _ (toggleListening_playback env s) H)
                | exact H ]. }
  18: { destruct (replacedSockets s !! i) as [ws|]; [|exact H].
        destruct (live ws); [|exact H]. unfold handleMessage_of.
        pose proof (handleMessage_try_with_coherent (onmessage_aiTranscript ws) env
                      event_data s H) as Hh.
        destruct (handleMessage_try_with _ env event_data s) as [s' c]. exact Hh. }
  all: refine (playback_coherent_view _ _ _ H).
  all: unfold reconnect_onClick, connect, startAudioCapture, startAudioCapture_request,
      getUserMedia_settled, initAudioContext, set_readyState, ws_onerror,
      ws_onclose, socket_onclose, stopAudioCapture, onaudioprocess, lessonAudio_onended,
      lessonAudio_onerror, lessonAudio_play_rejected, narration_cleared, countdown_tick,
      goToDashboard, set_replaced_readyState, ws_send, addMessage;
    case_tests; reflexivity.
Qed.

Lemma reachable_coherent s : reachable s -> playback_coherent s.
Proof.
  induction 1 as [|env e s _ IH]; [|apply step_coherent, IH].
  repeat split; cbn; try constructor. intros i src Hi. discriminate Hi.
Qed.

(** X12. Whatever happens to a mounted page, a scheduled source carries its
    position in the schedule as its identity, the active set holds
    scheduled sources only, in scheduling order, and no source is in it
    twice. *)
Theorem active_set_coherent (trace : list (Env * Event)) :
  let s := run trace initialState in
  schedule_coherent s /\ NoDup (map source_id (activeAudioSourcesRef s)).
Proof.
  intros s. destruct (reachable_coherent s (reachable_from_init trace)) as [Hs [Hnd _]].
  split; [exact Hs|]. apply NoDup_app in Hnd as (_ & _ & Hnd). exact Hnd.
Qed.

(** X13. Whatever happens to a mounted page, no source is stopped twice, a
    stopped source is never in the active set again, and every stopped
    source is one that was scheduled. *)
Theorem no_source_stopped_twice (trace : list (Env * Event)) :
  let s := run trace initialState in
  NoDup (stopped s)
  /\ (forall src, src ∈ activeAudioSourcesRef s -> source_id src ∉ stopped s)
  /\ (forall id, id ∈ stopped s -> exists src, started s !! id = Some src
                                               /\ source_id src = id).
Proof.
  intros s.
  destruct (reachable_coherent s (reachable_from_init trace)) as [[Hid _] [Hnd Hlt]].
  apply NoDup_app in Hnd as (Hst & Hdisj & _).
  split; [exact Hst|]. split.
  - intros src Hin Hstop. apply (Hdisj _ Hstop).
    apply list_elem_of_fmap. exists src. split; [reflexivity | exact Hin].
  - intros id Hin. rewrite Forall_forall in Hlt.
    destruct (lookup_lt_is_Some_2 _ _ (Hlt id Hin)) as [src Hsrc].
    exists src. split; [exact Hsrc | apply Hid, Hsrc].
Qed.

Lemma filter_keeps_all {A} (p : A -> bool) (l : list A) :
  Forall (fun x => p x = true) l -> filter (fun x => p x) l = l.
Proof.
  induction 1 as [|x l Hx Hl IH]; [reflexivity|].
  rewrite filter_cons. rewrite decide_True by (rewrite Hx; exact I).
  f_equal. exact IH.
Qed.

(** X14. When a source plays to its end, exactly that source leaves the
    active set: the others stay, in order. *)
Theorem source_ended_removes_one
    (trace : list (Env * Event)) (before after : list AudioSource) (src : AudioSource) :
  activeAudioSourcesRef (run trace initialState) = before ++ src :: after ->
  activeAudioSourcesRef (source_onended (source_id src) (run trace initialState))
  = before ++ after.
Proof.
  pose proof (reachable_coherent _ (reachable_from_init trace)) as [_ [Hnd _]].
  generalize dependent (run trace initialState). intros s Hnd Hact.
  apply NoDup_app in Hnd as (_ & _ & Hnd). rewrite Hact in Hnd.
  rewrite map_app in Hnd. cbn [map] in Hnd.
  apply NoDup_app in Hnd as (_ & Hdisj & Hnd).
  apply NoDup_cons in Hnd as [Hnotin _].
  unfold source_onended. destruct s as []. cbn in Hact |- *. rewrite Hact.
  rewrite filter_app, filter_cons.
  rewrite decide_False by (rewrite Nat.eqb_refl; exact id).
  f_equal; apply (filter_keeps_all (fun x => negb (source_id x =? source_id src)%nat)).
  - apply Forall_forall. intros x Hx. apply negb_true_iff, Nat.eqb_neq. intros E.
    apply (Hdisj (source_id x)).
    + apply list_elem_of_fmap. exists x. split; [reflexivity | exact Hx].
    + rewrite E. left.
  - apply Forall_forall. intros x Hx. apply negb_true_iff, Nat.eqb_neq. intros E.
    apply Hnotin. rewrite <- E.
    apply list_elem_of_fmap. exists x. split; [reflexivity | exact Hx].
Qed.

(** Three chunks are playing when the second one ends: the first and the
    third stay in the active set, in this order. *)
Lemma source_ended_removes_one_witness :
  let trace :=
    [(example_env, Inbound (Some (audio_delta "AEA=")));
     (example_env, Inbound (Some (audio_delta "AAAAAAAA")));
     (example_env, Inbound (Some (audio_delta "AEAAQA==")))] in
  exists a b c,
    activeAudioSourcesRef (run trace initialState) = [a; b; c]
    /\ (source_id a, source_id b, source_id c) = (0, 1, 2)%nat
    /\ activeAudioSourcesRef (source_onended (source_id b) (run trace initialState))
       = [a; c].
Proof.
  intros trace. eexists. eexists. eexists.
  split; [reflexivity|]. split; [reflexivity|].
  exact (source_ended_removes_one trace [_] [_] _ eq_refl).
Defined.

(** ** The dialogue controller *)

(** X15. A context update whose action is none of those the controller
    knows (or that has no action at all) changes nothing. *)
Theorem unknown_action_ignored (env : Env) (data : json) (s : State) :
  known_action data = false ->
  handleContextUpdate env data s = (s, if nullish data then Thrown else Normal)
  /\ step env (Inbound (Some (context_update data))) s = s.
Proof.
  intros H.
  assert (E : handleContextUpdate env data s
              = (s, if nullish data then Thrown else Normal)).
  { unfold known_action in H. apply existsb_false_Forall in H.
    unfold known_actions in H.
    repeat match goal with
           | H : Forall _ (_ :: _) |- _ => apply Forall_cons in H as [? H]
           end.
    unfold handleContextUpdate. destruct (nullish data); [reflexivity|].
    repeat match goal with
           | E : is_str _ _ = false |- _ => rewrite E; clear E
           end.
    reflexivity. }
  split; [exact E|].
  unfold step, handleMessage.
  rewrite (handleMessage_try_context_update env (context_update data) s eq_refl).
  change (get "data" (context_update data)) with data. rewrite E. reflexivity.
Qed.

Lemma unknown_action_ignored_witness :
  step example_env
    (Inbound (Some (context_update (JObj [("action", JStr "show_grades")]))))
    initialState
  = initialState.
Proof.
  exact (proj2 (unknown_action_ignored example_env
                  (JObj [("action", JStr "show_grades")]) initialState eq_refl)).
Defined.

(** ** What a dialogue leaves behind *)

Lemma handleContextUpdate_outcome env data s :
  outcome_view (fst (handleContextUpdate env data s))
  = (if is_str (get "action" data) "start_quiz" then ∅
     else if is_str (get "action" data) "answer_confirmed"
          then <[toString (get "questionIndex" data) := get "answer" data]>
                 (quizAnswers (currentContext s))
          else quizAnswers (currentContext s),
     navigated s
     ++ (if is_str (get "action" data) "navigate" && truthy (get "url" data)
         then [get "url" data] else [])).
Proof.
  unfold handleContextUpdate. destruct (nullish data) eqn:Hn.
  { rewrite (nullish_get "action" data Hn). cbn. unfold outcome_view.
    rewrite app_nil_r. reflexivity. }
  cbv zeta. case_literals; try clash.
  all: cbn [andb]; unfold outcome_view.
  all: case_tests; cbn [fst]; rewrite ?app_nil_r; reflexivity.
Qed.

Lemma playAudio_outcome env c s : outcome_view (playAudio env c s) = outcome_view s.
Proof. unfold playAudio. case_tests; reflexivity. Qed.

Lemma interruptAudio_outcome s : outcome_view (interruptAudio s) = outcome_view s.
Proof. unfold interruptAudio, ws_send. case_tests; reflexivity. Qed.

Lemma check_rate_limit_outcome env data s :
  outcome_view (fst (check_rate_limit env data s)) = outcome_view s.
Proof. unfold check_rate_limit. case_tests; reflexivity. Qed.

Lemma on_response_done_outcome env data s :
  outcome_view (fst (on_response_done env data s)) = outcome_view s.
Proof.
  unfold on_response_done.
  pose proof (check_rate_limit_outcome env data (s <| isProcessing := false |>)) as H.
  destruct (check_rate_limit env data (s <| isProcessing := false |>)) as [s1 []];
    cbn [fst] in H; [|exact H].
  destruct (present (pendingLessonAudioRef s1)); exact H.
Qed.

Lemma toggleListening_with_outcome start env s :
  (forall t, outcome_view (start t) = outcome_view t) ->
  outcome_view (toggleListening_with start env s) = outcome_view s.
Proof.
  intros Hstart.
  unfold toggleListening_with, playPendingLessonAudio, resumeAI, stopLessonAudio,
    stopAudioCapture, connect, ws_send, addMessage.
  case_tests; rewrite ?Hstart; reflexivity.
Qed.

Lemma startAudioCapture_outcome env s :
  outcome_view (startAudioCapture env s) = outcome_view s.
Proof.
  unfold startAudioCapture, startAudioCapture_request, getUserMedia_settled.
  case_tests; reflexivity.
Qed.

Lemma toggleListening_outcome env s :
  outcome_view (toggleListening env s) = outcome_view s.
Proof. apply toggleListening_with_outcome. intros t. apply startAudioCapture_outcome. Qed.

Lemma outcome_of_none s : outcome_of (fun _ => None) s = outcome_view s.
Proof. unfold outcome_of, outcome_view. rewrite app_nil_r. reflexivity. Qed.

(** What one frame does to the recorded answers and to the navigations. *)
Lemma handleMessage_try_with_outcome captured env event_data s :
  outcome_view (fst (handleMessage_try_with captured env event_data s))
  = outcome_of (fun action => event_data ≫= frame_request action) s.
Proof.
  unfold handleMessage_try_with, outcome_of, frame_request.
  destruct event_data as [data|]; [|cbn; unfold outcome_view; rewrite app_nil_r; reflexivity].
  cbn [mbind option_bind].
  destruct (nullish data) eqn:Hn.
  { rewrite (nullish_get "type" data Hn). cbn. unfold outcome_view.
    rewrite app_nil_r. reflexivity. }
  cbv zeta.
  repeat match goal with
         | |- context [is_str (get "type" data) ?lit] =>
             destruct (is_str (get "type" data) lit) eqn:?
         end; try clash; cbn [andb].
  all: try (rewrite handleContextUpdate_outcome; case_literals; cbn [andb];
            case_tests; reflexivity).
  all: try (unfold outcome_view; case_tests; cbn [fst]; rewrite ?app_nil_r; reflexivity).
  - cbn [fst]. transitivity (outcome_view s);
      [exact (interruptAudio_outcome s) | unfold outcome_view; rewrite app_nil_r; reflexivity].
  - cbn [fst]. transitivity (outcome_view s);
      [| unfold outcome_view; rewrite app_nil_r; reflexivity].
    destruct (truthy (get "delta" data)); [|reflexivity].
    rewrite (processAudioQueue_frame outcome_view);
      [reflexivity | apply playAudio_outcome | reflexivity].
  - rewrite on_response_done_outcome. unfold outcome_view.
    rewrite app_nil_r. reflexivity.
Qed.

(** What one event does to the recorded answers and to the navigations. *)
Lemma step_outcome env e s :
  outcome_view (step env e s)
  = (fst (outcome_of (fun action => context_request action e s) s),
     snd (outcome_of (fun action => context_request action e s) s)
     ++ (if asks_dashboard e
         then [JStr (if is_str (get_opt "role" (user env)) "admin" then "/admin"
                     else if is_str (get_opt "role" (user env)) "teacher" then "/teacher"
                     else "/student")]
         else [])).
Proof.
  assert (forall t, outcome_view t = outcome_view s ->
                    outcome_view t
                    = (fst (outcome_of (fun _ => None) s),
                       snd (outcome_of (fun _ => None) s) ++ [])) as Hsame.
  { intros t ->. rewrite outcome_of_none, app_nil_r. reflexivity. }
  destruct e as [| | | |code reason|event_data| |frame|id| | | | | | |
                 |key tag| | |i|i|i code reason|i event_data].
  6: { unfold step, handleMessage, handleMessage_try.
       pose proof (handleMessage_try_with_outcome (captured_aiTranscript s) env
                     event_data s) as H.
       destruct (handleMessage_try_with _ env event_data s) as [s' c]. cbn [fst] in H |- *.
       rewrite H. cbn [asks_dashboard]. rewrite app_nil_r.
       destruct event_data; reflexivity. }
  6: { apply Hsame, toggleListening_outcome. }
  12: { apply Hsame, toggleListening_with_outcome. intros t. reflexivity. }
  14: { unfold step, handleKeyDown, goToDashboard. cbn [asks_dashboard].
        change (fun action => context_request action (KeyDown key tag) s)
          with (fun _ : string => @None json).
        rewrite outcome_of_none.
        pose proof (toggleListening_outcome env s) as Ht.
        unfold outcome_view in Ht. injection Ht as H1 H2.
        destruct (String.eqb key "Space" && negb (String.eqb tag "INPUT")
                  && negb (String.eqb tag "TEXTAREA"));
          destruct (String.eqb key "Escape"); unfold outcome_view; cbn;
          rewrite ?app_nil_r;
          first [ reflexivity
                | f_equal; [exact H1 | f_equal; exact H2]
                | f_equal; [exact H1 | exact H2] ]. }
  14: { unfold step, goToDashboard. cbn [asks_dashboard].
        change (fun action => context_request action DashboardButton s)
          with (fun _ : string => @None json).
        rewrite outcome_of_none. reflexivity. }
  18: { unfold step, context_request, delivered, replaced_live. cbn [asks_dashboard].
        destruct (replacedSockets s !! i) as [ws|];
          [|destruct event_data; exact (Hsame s eq_refl)].
        destruct (live ws); [|destruct event_data; exact (Hsame s eq_refl)].
        unfold handleMessage_of.
        pose proof (handleMessage_try_with_outcome (onmessage_aiTranscript ws) env
                      event_data s) as H.
        destruct (handleMessage_try_with _ env event_data s) as [s' c]. cbn [fst] in H |- *.
        rewrite H, app_nil_r. destruct event_data; reflexivity. }
  all: apply Hsame.
  all: unfold step, reconnect_onClick, connect, startAudioCapture,
      startAudioCapture_request, getUserMedia_settled, initAudioContext, set_readyState,
      ws_onerror, ws_onclose, socket_onclose, stopAudioCapture, onaudioprocess,
      source_onended, lessonAudio_onended, lessonAudio_onerror,
      lessonAudio_play_rejected, narration_cleared, countdown_tick,
      set_replaced_readyState, ws_send, addMessage;
    case_tests; reflexivity.
Qed.

(** X16. The recorded quiz answers change on two occasions only: a
    [start_quiz] update empties them and an [answer_confirmed] update
    records one answer under its question index, the key being the index
    as [String] prints it.  The update may arrive on the socket of [wsRef]
    or on a live socket dropped from it.  No other event, inbound or
    local, touches the answers. *)
Theorem answers_change_only_on_quiz_updates (env : Env) (e : Event) (s : State) :
  quizAnswers (currentContext (step env e s))
  = match context_request "start_quiz" e s with
    | Some _ => ∅
    | None =>
        match context_request "answer_confirmed" e s with
        | Some data =>
            <[toString (get "questionIndex" data) := get "answer" data]>
              (quizAnswers (currentContext s))
        | None => quizAnswers (currentContext s)
        end
    end.
Proof. exact (f_equal fst (step_outcome env e s)). Qed.

(** Question 2 is recorded under the key [2]; a question index of
    [10^21] under the key [1e+21], as [String] prints that number. *)
Lemma answers_change_only_on_quiz_updates_witness :
  let confirmed n :=
    context_update (JObj [("action", JStr "answer_confirmed");
                          ("questionIndex", JNum n); ("answer", JStr "B")]) in
  quizAnswers (currentContext
                 (step example_env (Inbound (Some (confirmed 2%Z))) initialState))
  = {[ "2" := JStr "B" ]}
  /\ quizAnswers (currentContext
                    (step example_env (Inbound (Some (confirmed (10 ^ 21)%Z))) initialState))
     = {[ "1e+21" := JStr "B" ]}.
Proof.
  intros confirmed. split.
  - rewrite (answers_change_only_on_quiz_updates example_env
               (Inbound (Some (confirmed 2%Z))) initialState).
    vm_compute. reflexivity.
  - rewrite (answers_change_only_on_quiz_updates example_env
               (Inbound (Some (confirmed (10 ^ 21)%Z))) initialState).
    vm_compute. reflexivity.
Defined.

(** X17. The page navigates on two occasions only.  A [navigate] update
    with a truthy [url] makes exactly one router navigation, to that URL.
    The Escape key and the button of the header make exactly one, to the
    dashboard of the user's role: [/admin], [/teacher], or [/student] for
    any other user.  No other event makes any. *)
Theorem navigation_only_on_request (env : Env) (e : Event) (s : State) :
  navigated (step env e s)
  = navigated s
    ++ match context_request "navigate" e s with
       | Some data => if truthy (get "url" data) then [get "url" data] else []
       | None => []
       end
    ++ (if asks_dashboard e
        then [JStr (if is_str (get_opt "role" (user env)) "admin" then "/admin"
                    else if is_str (get_opt "role" (user env)) "teacher" then "/teacher"
                    else "/student")]
        else []).
Proof.
  rewrite app_assoc. exact (f_equal snd (step_outcome env e s)).
Qed.

(** A [navigate] update, the Escape key for a teacher, and the header
    button for a student. *)
Lemma navigation_only_on_request_witness :
  let teacher :=
    {| Date_now := 0; currentTime := 0; sampleRate := 48000; micGranted := true;
       user := JObj [("role", JStr "teacher")];
       VITE_API_URL := "http://localhost:8000"; VITE_WS_URL := "ws://localhost:8000";
       token := "t" |} in
  let frame :=
    context_update (JObj [("action", JStr "navigate"); ("url", JStr "/courses/3")]) in
  navigated (step example_env (Inbound (Some frame)) initialState) = [JStr "/courses/3"]
  /\ navigated (step teacher (KeyDown "Escape" "BODY") initialState) = [JStr "/teacher"]
  /\ navigated (step example_env DashboardButton initialState) = [JStr "/student"]
  /\ navigated (step teacher (KeyDown "Space" "BODY") initialState) = [].
Proof.
  intros teacher frame. split; [|split; [|split]].
  - exact (navigation_only_on_request example_env (Inbound (Some frame)) initialState).
  - exact (navigation_only_on_request teacher (KeyDown "Escape" "BODY") initialState).
  - exact (navigation_only_on_request example_env DashboardButton initialState).
  - exact (navigation_only_on_request teacher (KeyDown "Space" "BODY") initialState).
Defined.

(** ** The conversation log *)

Ltac log_cases :=
  first [ exists []; split; [rewrite app_nil_r; reflexivity|];
          split; [cbn; lia | constructor]
        | eexists [_]; split; [reflexivity|];
          split; [cbn; lia | repeat constructor; cbn; tauto] ].

Lemma check_rate_limit_log env data s :
  exists new,
    messages (fst (check_rate_limit env data s)) = messages s ++ new
    /\ (length new <= 1)%nat /\ Forall (stamped env) new.
Proof. unfold check_rate_limit, addMessage. case_tests; cbn [fst]; log_cases. Qed.

Lemma on_response_done_log env data s :
  exists new,
    messages (fst (on_response_done env data s)) = messages s ++ new
    /\ (length new <= 2)%nat /\ Forall (stamped env) new.
Proof.
  unfold on_response_done.
  destruct (check_rate_limit_log env data (s <| isProcessing := false |>))
    as (new & E & Hl & Hf).
  destruct (check_rate_limit env data (s <| isProcessing := false |>)) as [s1 []];
    cbn [fst] in E.
  - destruct (present (pendingLessonAudioRef s1)); cbn [fst].
    + eexists (new ++ [_]). split; [|split].
      * unfold addMessage. cbn. rewrite app_assoc. f_equal. exact E.
      * rewrite length_app. cbn. lia.
      * apply Forall_app. split; [exact Hf|]. repeat constructor; cbn; tauto.
    + exists new. split; [exact E|]. split; [lia | exact Hf].
  - exists new. split; [exact E|]. split; [lia | exact Hf].
Qed.

Lemma playAudio_messages env c s : messages (playAudio env c s) = messages s.
Proof. unfold playAudio. case_tests; reflexivity. Qed.

Lemma handleContextUpdate_messages env data s :
  messages (fst (handleContextUpdate env data s)) = messages s.
Proof. unfold handleContextUpdate. case_tests; reflexivity. Qed.

Lemma handleMessage_try_with_log captured env event_data s :
  exists new,
    messages (fst (handleMessage_try_with captured env event_data s)) = messages s ++ new
    /\ (length new <= 2)%nat /\ Forall (stamped env) new.
Proof.
  unfold handleMessage_try_with.
  destruct event_data as [data|]; [|cbn [fst]; log_cases].
  destruct (nullish data); [cbn [fst]; log_cases|].
  repeat match goal with
         | |- context [if is_str ?t ?lit then _ else _] => destruct (is_str t lit)
         end.
  all: try (unfold addMessage; case_tests; cbn [fst]; log_cases).
  - cbn [fst]. exists []. rewrite app_nil_r. split; [|split; [cbn; lia | constructor]].
    unfold interruptAudio, ws_send. case_tests; reflexivity.
  - cbn [fst]. exists []. rewrite app_nil_r. split; [|split; [cbn; lia | constructor]].
    destruct (truthy (get "delta" data)); [|reflexivity].
    rewrite (processAudioQueue_frame messages);
      [reflexivity | apply playAudio_messages | reflexivity].
  - apply on_response_done_log.
  - exists []. rewrite app_nil_r. split; [|split; [cbn; lia | constructor]].
    apply handleContextUpdate_messages.
Qed.

Lemma toggleListening_with_log start env s :
  (forall t, messages (start t) = messages t) ->
  exists new,
    messages (toggleListening_with start env s) = messages s ++ new
    /\ (length new <= 2)%nat /\ Forall (stamped env) new.
Proof.
  intros Hstart.
  unfold toggleListening_with, playPendingLessonAudio, resumeAI, stopLessonAudio,
    stopAudioCapture, connect, ws_send, addMessage.
  case_tests; rewrite ?Hstart; log_cases.
Qed.

Lemma startAudioCapture_messages env s :
  messages (startAudioCapture env s) = messages s.
Proof.
  unfold startAudioCapture, startAudioCapture_request, getUserMedia_settled.
  case_tests; reflexivity.
Qed.

Lemma toggleListening_log env s :
  exists new,
    messages (toggleListening env s) = messages s ++ new
    /\ (length new <= 2)%nat /\ Forall (stamped env) new.
Proof. apply toggleListening_with_log. intros t. apply startAudioCapture_messages. Qed.

(** X18. The conversation log is append-only.  One event adds at most two
    entries, each with the clock reading of that event as its identity and
    one of the four roles. *)
Theorem conversation_log_append_only (env : Env) (e : Event) (s : State) :
  exists new,
    messages (step env e s) = messages s ++ new
    /\ (length new <= 2)%nat
    /\ Forall (stamped env) new.
Proof.
  destruct e as [| | | |code reason|event_data| |frame|id| | | | | | |
                 |key tag| | |i|i|i code reason|i event_data].
  6: { unfold step, handleMessage, handleMessage_try.
       pose proof (handleMessage_try_with_log (captured_aiTranscript s) env event_data s)
         as H.
       destruct (handleMessage_try_with _ env event_data s) as [s' c]. exact H. }
  6: { apply toggleListening_log. }
  12: { apply toggleListening_with_log. intros t. reflexivity. }
  14: { unfold step, handleKeyDown, goToDashboard.
        destruct (String.eqb key "Space" && negb (String.eqb tag "INPUT")
                  && negb (String.eqb tag "TEXTAREA"));
          destruct (String.eqb key "Escape"); cbn;
          first [ apply toggleListening_log | log_cases ]. }
  19: { unfold step. destruct (replacedSockets s !! i) as [ws|]; [|log_cases].
        destruct (live ws); [|log_cases]. unfold handleMessage_of.
        pose proof (handleMessage_try_with_log (onmessage_aiTranscript ws) env event_data s)
          as H.
        destruct (handleMessage_try_with _ env event_data s) as [s' c]. exact H. }
  all: unfold step, reconnect_onClick, connect, startAudioCapture,
      startAudioCapture_request, getUserMedia_settled, initAudioContext, set_readyState,
      ws_onerror, ws_onclose, socket_onclose, stopAudioCapture, onaudioprocess,
      source_onended, lessonAudio_onended, lessonAudio_onerror,
      lessonAudio_play_rejected, narration_cleared, countdown_tick, goToDashboard,
      set_replaced_readyState, ws_send, addMessage;
    case_tests; log_cases.
Qed.

(** ** The rate-limit notice *)

Lemma drop_prefix_Some p s t : drop_prefix p s = Some t -> s = (p ++ t)%string.
Proof.
  revert s. induction p as [|a p IH]; intros s H; cbn in H.
  - injection H as <-. reflexivity.
  - destruct s as [|b s]; [discriminate|].
    destruct (Ascii.eqb_spec a b) as [<-|]; [|discriminate].
    rewrite (IH s H). reflexivity.
Qed.

Lemma span_spec p s a b :
  span p s = (a, b) ->
  s = (a ++ b)%string /\ forallb p (list_ascii_of_string a) = true.
Proof.
  revert a b. induction s as [|c s IH]; intros a b H; cbn in H.
  - injection H as <- <-. split; reflexivity.
  - destruct (p c) eqn:Hc.
    + destruct (span p s) as [a' b'] eqn:E. injection H as <- <-.
      destruct (IH a' b' eq_refl) as [-> Hall]. split; [reflexivity|].
      cbn. rewrite Hc. exact Hall.
    + injection H as <- <-. split; reflexivity.
Qed.

Lemma prefix_s after :
  String.prefix "s" after = true -> exists rest, after = String "s" rest.
Proof.
  destruct after as [|c rest]; [discriminate|].
  change (String.prefix "s" (String c rest))
    with (if ascii_dec "s" c then String.prefix "" rest else false).
  destruct (ascii_dec "s" c) as [<-|]; [|discriminate].
  intros _. exists rest. reflexivity.
Qed.

(** X19. What the retry pattern captures is a non-empty run of digits and
    dots that stands in the message between [try again in ] and [s]. *)
Theorem match_try_again_sound (msg group : string) :
  match_try_again msg = Some group ->
  group <> ""
  /\ digits_or_dots group = true
  /\ exists before after,
       msg = (before ++ "try again in " ++ group ++ "s" ++ after)%string.
Proof.
  induction msg as [|c rest IH]; intros H; [discriminate|].
  cbn [match_try_again] in H.
  assert (Hrest : match_try_again rest = Some group ->
                  group <> "" /\ digits_or_dots group = true
                  /\ exists before after,
                       String c rest
                       = (before ++ "try again in " ++ group ++ "s" ++ after)%string).
  { intros Hr. destruct (IH Hr) as (Hne & Hd & before & after & ->).
    split; [exact Hne|]. split; [exact Hd|].
    exists (String c before), after. reflexivity. }
  destruct (drop_prefix "try again in " (String c rest)) as [tail|] eqn:Ed;
    [|exact (Hrest H)].
  destruct (span is_digit_or_dot tail) as [g after0] eqn:Es.
  destruct (negb (String.eqb g "") && String.prefix "s" after0) eqn:Et;
    [|exact (Hrest H)].
  injection H as <-. apply andb_prop in Et as [Hne Hs].
  apply drop_prefix_Some in Ed. apply span_spec in Es as [-> Hall].
  apply prefix_s in Hs as [after ->].
  split; [|split].
  - intros ->. discriminate Hne.
  - exact Hall.
  - exists ""%string, after. rewrite Ed. reflexivity.
Qed.

Lemma match_try_again_sound_witness :
  exists before after,
    "Rate limit reached. Please try again in 2.5s."%string
    = (before ++ "try again in " ++ "2.5" ++ "s" ++ after)%string.
Proof.
  exact (proj2 (proj2 (match_try_again_sound
                         "Rate limit reached. Please try again in 2.5s." "2.5" eq_refl))).
Defined.

Lemma countdown_tick_wait s :
  rateLimitWait (countdown_tick s)
  = match rateLimitWait s with
    | Finite n => if Qle_bool n 1 then Finite 0 else Finite (round_double (n - 1))
    | PlusInfinity => PlusInfinity
    | NotANumber => NotANumber
    end.
Proof. destruct s as []. reflexivity. Qed.

Lemma countdown_tick_rest s w :
  (countdown_tick s) <| rateLimitWait := w |> = s <| rateLimitWait := w |>.
Proof. destruct s as []. reflexivity. Qed.

Lemma countdown_ticks_succ k s :
  countdown_ticks (S k) s = countdown_tick (countdown_ticks k s).
Proof. unfold countdown_ticks. apply Nat.iter_succ. Qed.

(** One tick on a whole number of seconds that a double holds exactly. *)
Lemma countdown_tick_whole s m :
  (0 <= m <= 2 ^ 53)%Z -> wait_is s (inject_Z m) ->
  wait_is (countdown_tick s) (inject_Z (Z.max 0 (m - 1))).
Proof.
  intros Hm. unfold wait_is. rewrite countdown_tick_wait.
  destruct (rateLimitWait s) as [q| |]; try contradiction. intros Hq.
  destruct (Qle_bool q 1) eqn:E.
  - apply Qle_bool_iff in E. rewrite Hq in E.
    change 1%Q with (inject_Z 1) in E. rewrite <- Zle_Qle in E.
    replace (Z.max 0 (m - 1)) with 0%Z by lia. reflexivity.
  - assert (~ (q <= 1)%Q) as Hgt by (rewrite <- Qle_bool_iff, E; discriminate).
    rewrite Hq in Hgt. change 1%Q with (inject_Z 1) in Hgt. rewrite <- Zle_Qle in Hgt.
    replace (Z.max 0 (m - 1)) with (m - 1)%Z by lia.
    assert (q - 1 == inject_Z (m - 1))%Q as Hsub.
    { rewrite Hq. unfold Z.sub. rewrite inject_Z_plus. reflexivity. }
    rewrite Hsub. apply is_double_Z. lia.
Qed.

(** One tick on a number that the subtraction rounds back to itself. *)
Lemma countdown_tick_stalls s x :
  (1 < x)%Q -> (round_double (x - 1) == x)%Q ->
  wait_is s x -> wait_is (countdown_tick s) x.
Proof.
  intros Hx Hr. unfold wait_is. rewrite countdown_tick_wait.
  destruct (rateLimitWait s) as [q| |]; try contradiction. intros Hq.
  destruct (Qle_bool q 1) eqn:E.
  - apply Qle_bool_iff in E. rewrite Hq in E. exfalso. lra.
  - rewrite Hq. exact Hr.
Qed.

(** X20. The countdown of a rate-limit notice.  From a wait that is a
    whole number [n] of seconds, at most [2^53], [k] ticks leave
    [max 0 (n - k)]: the notice clears after [n] ticks and not before, and
    stays cleared.  The subtraction is made in double precision, so a
    longer wait need not count down: a wait of [2^54] seconds, or of
    [2^53 + 4], is left as it is by every tick.  A wait that is [NaN] or
    [Infinity] never clears either.  A tick changes nothing but the
    wait. *)
Theorem countdown_reaches_zero (k : nat) (s : State) :
  (forall n, (0 <= n <= 2 ^ 53)%Z -> wait_is s (inject_Z n) ->
             wait_is (countdown_ticks k s) (inject_Z (Z.max 0 (n - Z.of_nat k))))
  /\ (forall x, (x = 2 ^ 54 \/ x = 2 ^ 53 + 4)%Z -> wait_is s (inject_Z x) ->
                wait_is (countdown_ticks k s) (inject_Z x))
  /\ (rateLimitWait s = NotANumber -> rateLimitWait (countdown_ticks k s) = NotANumber)
  /\ (rateLimitWait s = PlusInfinity ->
      rateLimitWait (countdown_ticks k s) = PlusInfinity)
  /\ (countdown_ticks k s) <| rateLimitWait := rateLimitWait s |> = s.
Proof.
  split; [|split; [|split; [|split]]].
  - intros n Hn H. induction k as [|k IH].
    + replace (Z.max 0 (n - Z.of_nat 0)) with n by lia. exact H.
    + rewrite countdown_ticks_succ.
      replace (Z.max 0 (n - Z.of_nat (S k)))
        with (Z.max 0 (Z.max 0 (n - Z.of_nat k) - 1)) by lia.
      apply countdown_tick_whole; [lia | exact IH].
  - intros x Hx H. induction k as [|k IH]; [exact H|].
    rewrite countdown_ticks_succ. apply countdown_tick_stalls; [| |exact IH].
    + destruct Hx as [-> | ->]; reflexivity.
    + destruct Hx as [-> | ->]; vm_compute; reflexivity.
  - intros H. induction k as [|k IH]; [exact H|].
    rewrite countdown_ticks_succ, countdown_tick_wait, IH. reflexivity.
  - intros H. induction k as [|k IH]; [exact H|].
    rewrite countdown_ticks_succ, countdown_tick_wait, IH. reflexivity.
  - induction k as [|k IH]; [destruct s as []; reflexivity|].
    rewrite countdown_ticks_succ, countdown_tick_rest. exact IH.
Qed.

(** A rate limit that asks for 2.5 seconds sets a wait of 3 seconds, which
    two ticks bring to 1 and three ticks to 0; a wait of [2^54] seconds is
    still [2^54] after a thousand ticks. *)
Lemma countdown_reaches_zero_witness :
  let limited :=
    step example_env
      (Inbound (Some (JObj [("type", JStr "response.done");
                            ("response",
                             JObj [("status", JStr "failed");
                                   ("status_details",
                                    JObj [("error",
                                           JObj [("code", JStr "rate_limit_exceeded");
                                                 ("message",
                                                  JStr "Please try again in 2.5s.")])])])])))
      initialState in
  wait_is limited 3
  /\ wait_is (countdown_ticks 2 limited) 1
  /\ wait_is (countdown_ticks 3 limited) 0
  /\ wait_is (countdown_ticks 4 limited) 0
  /\ wait_is (countdown_ticks 1000
                (initialState <| rateLimitWait := Finite (inject_Z (2 ^ 54)) |>))
       (inject_Z (2 ^ 54)).
Proof.
  intros limited.
  assert (wait_is limited (inject_Z 3)) as H3 by (vm_compute; reflexivity).
  split; [exact H3|]. split; [|split; [|split]].
  - exact (proj1 (countdown_reaches_zero 2 limited) 3%Z ltac:(lia) H3).
  - exact (proj1 (countdown_reaches_zero 3 limited) 3%Z ltac:(lia) H3).
  - exact (proj1 (countdown_reaches_zero 4 limited) 3%Z ltac:(lia) H3).
  - apply (proj1 (proj2 (countdown_reaches_zero 1000
                           (initialState <| rateLimitWait := Finite (inject_Z (2 ^ 54)) |>)))).
    + left. reflexivity.
    + reflexivity.
Defined.

(** ** The stream-done signal *)

(** X21. [response.audio.done] rewinds the scheduling cursor without
    stopping anything: the sources already scheduled stay scheduled and
    active, and the next chunk starts at the audio clock, wherever the
    cursor stood before.  So it starts while every earlier source that is
    playing at that moment still plays: the two overlap. *)
Theorem stream_done_restarts_at_clock
    (env env' : Env) (payload : string) (bytes : list Z) (s : State) :
  audioQueueRef s = [] ->
  base64ToArrayBuffer payload = Some bytes ->
  bytes <> [] ->
  Nat.even (length bytes) = true ->
  let s1 := step env (Inbound (Some audio_done)) s in
  let s2 := step env' (Inbound (Some (audio_delta payload))) s1 in
  playback_view s1 = playback_view s
  /\ audioPlaybackTimeRef s1 = 0%Q
  /\ exists src,
       started s2 = started s ++ [src]
       /\ activeAudioSourcesRef s2 = activeAudioSourcesRef s ++ [src]
       /\ startTime src = Qmax (currentTime env') 0
       /\ forall earlier,
            earlier ∈ activeAudioSourcesRef s ->
            (startTime earlier <= Qmax (currentTime env') 0)%Q ->
            (Qmax (currentTime env') 0
             < startTime earlier
               + inject_Z (Z.of_nat (length (buffer earlier))) / 24000)%Q ->
            earlier ∈ activeAudioSourcesRef s2
            /\ (startTime earlier <= startTime src)%Q
            /\ (startTime src
                < startTime earlier
                  + inject_Z (Z.of_nat (length (buffer earlier))) / 24000)%Q.
Proof.
  intros Hq Hb Hne Heven s1 s2.
  assert (E1 : s1 = resetAudioPlayback s) by reflexivity.
  split; [rewrite E1; reflexivity|]. split; [rewrite E1; reflexivity|].
  assert (Hp : truthy (JStr payload) = true).
  { cbn. destruct (String.eqb_spec payload "") as [->|]; [|reflexivity].
    cbv in Hb. injection Hb as <-. contradiction. }
  assert (E2 : s2 = playAudio env' payload
                      (s1 <| audioQueueRef ::= fun q => q ++ [payload] |>
                          <| isSpeaking := true |> <| audioQueueRef := [] |>)).
  { assert (Ht : get "type" (audio_delta payload) = JStr "response.audio.delta")
      by reflexivity.
    unfold s2, step, handleMessage, handleMessage_try, handleMessage_try_with. dispatch Ht.
    change (get "delta" (audio_delta payload)) with (JStr payload). rewrite Hp.
    cbn [fst].
    unfold processAudioQueue.
    change (audioQueueRef (s1 <| audioQueueRef ::= fun q => q ++ [toString (JStr payload)] |>))
      with (audioQueueRef s ++ [payload]).
    rewrite Hq. reflexivity. }
  destruct (playAudio_good_chunk env' payload bytes
              (s1 <| audioQueueRef ::= fun q => q ++ [payload] |>
                  <| isSpeaking := true |> <| audioQueueRef := [] |>)
              Hb Hne Heven) as (samples & _ & _ & E).
  cbv zeta in E. rewrite <- E2 in E. rewrite E.
  eexists. split; [reflexivity|]. split; [reflexivity|]. split; [reflexivity|].
  intros earlier Hin Hstarted Hplaying. split; [|split; assumption].
  apply elem_of_app. left. exact Hin.
Qed.

(** A chunk of four samples is scheduled at audio time 1 and plays until
    [1 + 4/24000].  The stream ends, and the next chunk arrives while the
    clock still reads 1: it starts at 1, on top of the first one. *)
Lemma stream_done_restarts_at_clock_witness :
  let s := step example_env (Inbound (Some (audio_delta "AEAAQABAAEA="))) initialState in
  let s2 :=
    step example_env (Inbound (Some (audio_delta "AEA=")))
      (step example_env (Inbound (Some audio_done)) s) in
  exists earlier src,
    started s = [earlier]
    /\ (0 < audioPlaybackTimeRef s)%Q
    /\ started s2 = [earlier; src]
    /\ activeAudioSourcesRef s2 = [earlier; src]
    /\ startTime earlier = 1%Q /\ length (buffer earlier) = 4%nat
    /\ startTime src = 1%Q
    /\ (startTime src < startTime earlier + 4 / 24000)%Q.
Proof.
  intros s s2.
  destruct (stream_done_restarts_at_clock example_env example_env "AEA=" [0; 64]%Z
              s eq_refl eq_refl ltac:(discriminate) eq_refl)
    as (_ & _ & src & Hs & Ha & Ht & Hover).
  fold s2 in Hs, Ha.
  assert (exists earlier, started s = [earlier] /\ activeAudioSourcesRef s = [earlier]
                          /\ startTime earlier = 1%Q
                          /\ length (buffer earlier) = 4%nat) as (earlier & E & Ea & Et & El)
    by (eexists; repeat split).
  exists earlier, src. rewrite E in Hs. rewrite Ea in Ha, Hover.
  destruct (Hover earlier) as (_ & _ & Hlt).
  { left. }
  { rewrite Et. discriminate. }
  { rewrite Et, El. reflexivity. }
  rewrite El in Hlt.
  split; [exact E|]. split; [reflexivity|]. split; [exact Hs|]. split; [exact Ha|].
  split; [exact Et|]. split; [exact El|]. split; [exact Ht | exact Hlt].
Defined.
